(** * Bisimulation decomposition of sparse probabilistic models

    A shallow embedding of [src/storage/bisimulation/BisimulationDecomposition.cpp]:
    the formula-driven configuration ([Options]), the construction of the
    initial partition, the splitter-driven refinement loop and the retrieval of
    the quotient model, together with the properties the specification states
    about them.

    The first part holds the definitions: the value type, formulas, models,
    options, partitions, the class [BisimulationDecomposition] with its
    virtual member functions as a type class, and the instance for
    deterministic models.  The second part holds the properties: of the
    configuration, of the constructor and the quotient, of the refinement
    loop, of the refinement of deterministic models (termination, stability,
    rewards), and of the measure-driven initial partition. *)

From Stdlib Require Import QArith Qcanon.
From stdpp Require Import base option list sorting gmap strings.

Open Scope nat_scope.

(** ** The numeric value type

    The C++ class is a template over [ValueType] (double, rational functions).
    The embedding is generic over a type offering the operations the algorithm
    uses: the constants zero and one, arithmetic, [operator<] and exact
    equality. *)

Class ValueType (V : Type) := {
  vzero : V;
  vone : V;
  vadd : V → V → V;
  vsub : V → V → V;
  vdiv : V → V → V;
  vlt : V → V → bool;
  v_eq_dec :: EqDecision V
}.

(** The laws of a numeric type whose [operator<] is a strict total order. *)
Class ValueOrder (V : Type) `{ValueType V} := {
  vlt_irrefl : ∀ a : V, vlt a a = false;
  vlt_trans : ∀ a b c : V, vlt a b = true → vlt b c = true → vlt a c = true;
  vlt_connex : ∀ a b : V, vlt a b = false → vlt b a = false → a = b
}.

(** Exact rational arithmetic, the instance the examples run on. *)
#[export] Instance Qc_ValueType : ValueType Qc :=
  {| vzero := 0%Qc; vone := 1%Qc; vadd := Qcplus; vsub := Qcminus;
     vdiv := Qcdiv;
     vlt := λ a b, if Qclt_le_dec a b then true else false;
     v_eq_dec := Qc_eq_dec |}.

(** ** States, bit vectors and sparse matrices *)

Abbreviation state_type := nat (only parsing).

(** Modelled from the spec: [storm::storage::BitVector] is not part of the
    sources at hand; a set of states, held as one bit per state. *)
Abbreviation BitVector := (list bool) (only parsing).

Module BV.
(** Modelled from the spec: [BitVector::get], not part of the sources at
    hand; a state beyond the end of the vector is not in the set. *)
Definition get (bv : BitVector) (s : state_type) : bool :=
  default false (bv !! s).

(** Modelled from the spec: [BitVector::empty], not part of the sources at
    hand: no bit is set. *)
Definition empty (bv : BitVector) : bool := forallb negb bv.

(** Modelled from the spec: [*bv.begin()], not part of the sources at
    hand: the index of the first set bit. *)
Fixpoint begin_from (i : nat) (bv : BitVector) : option state_type :=
  match bv with
  | [] => None
  | b :: bv' => if b then Some i else begin_from (S i) bv'
  end.
Definition begin (bv : BitVector) : option state_type := begin_from 0 bv.

(** Modelled from the spec: the iteration over a bit vector, not part of
    the sources at hand: the set bits below [n], in increasing order. *)
Definition indices (n : nat) (bv : BitVector) : list state_type :=
  filter (λ s, get bv s = true) (seq 0 n).

(** Modelled from the spec: [operator~] and [operator|] of bit vectors
    over [n] states, not part of the sources at hand. *)
Definition complement (n : nat) (bv : BitVector) : BitVector :=
  map (λ s, negb (get bv s)) (seq 0 n).

Definition union (n : nat) (a b : BitVector) : BitVector :=
  map (λ s, get a s || get b s) (seq 0 n).
End BV.

(** Modelled from the spec: [storm::storage::SparseMatrix] is not part of
    the sources at hand; row [r] lists its entries as pairs of a column and a
    value. *)
Abbreviation SparseMatrix V := (list (list (nat * V))) (only parsing).

(** ** Logic formulas

    The formula classes of [storm::logic] as one variant type, with the
    queries the configuration code asks of a formula.  Of the formula
    subsystem only the operator formulas are among the sources at hand; the
    queries follow the interface the specification lists for it. *)

Inductive OptimizationDirection := Minimize | Maximize.
Inductive ComparisonType := Less | LessEqual | Greater | GreaterEqual.
Inductive BinaryBooleanOperator := And | Or.

#[export] Instance OptimizationDirection_eq_dec : EqDecision OptimizationDirection.
Proof. solve_decision. Defined.
#[export] Instance ComparisonType_eq_dec : EqDecision ComparisonType.
Proof. solve_decision. Defined.

(** An operator formula carries an optional optimality direction and an
    optional bound; the public constructors of [ProbabilityOperatorFormula]
    and [RewardOperatorFormula] give a comparison type and a threshold
    together or neither.  The threshold, a double in the source, is never
    looked at. *)
Record OperatorInformation := mkOperatorInformation {
  opOptimalityType : option OptimizationDirection;
  opBound : option (ComparisonType * Q)
}.

Inductive Formula :=
| BooleanLiteralFormula (b : bool)
| AtomicLabelFormula (label : string)
| AtomicExpressionFormula (expression : string)
| UnaryBooleanStateFormula (sub : Formula)
| BinaryBooleanStateFormula (op : BinaryBooleanOperator) (left right : Formula)
| ProbabilityOperatorFormula (oi : OperatorInformation) (sub : Formula)
| RewardOperatorFormula (rewardModelName : option string)
    (oi : OperatorInformation) (sub : Formula)
| UntilFormula (left right : Formula)
| BoundedUntilFormula (left right : Formula) (stepBound : nat)
| EventuallyFormula (sub : Formula)
| GloballyFormula (sub : Formula)
| NextFormula (sub : Formula)
| ReachabilityRewardFormula (sub : Formula)
| CumulativeRewardFormula (stepBound : nat)
| InstantaneousRewardFormula (stepCount : nat).

Module F.
(** [OperatorFormula::hasOptimalityType] *)
Definition hasOptimalityType (oi : OperatorInformation) : bool :=
  bool_decide (is_Some (opOptimalityType oi)).

(** Modelled from the spec: [isInFragment(storm::logic::propositional())],
    not part of the sources at hand: the formula is built from literals,
    atomic labels and atomic expressions with boolean connectives. *)
Fixpoint isPropositional (f : Formula) : bool :=
  match f with
  | BooleanLiteralFormula _ | AtomicLabelFormula _
  | AtomicExpressionFormula _ => true
  | UnaryBooleanStateFormula g => isPropositional g
  | BinaryBooleanStateFormula _ l r => isPropositional l && isPropositional r
  | _ => false
  end.

(** Modelled from the spec: [FormulaInformation::containsRewardOperator],
    not part of the sources at hand. *)
Fixpoint containsRewardOperator (f : Formula) : bool :=
  match f with
  | RewardOperatorFormula _ _ _ => true
  | UnaryBooleanStateFormula g | ProbabilityOperatorFormula _ g
  | EventuallyFormula g | GloballyFormula g | NextFormula g
  | ReachabilityRewardFormula g => containsRewardOperator g
  | BinaryBooleanStateFormula _ l r | UntilFormula l r
  | BoundedUntilFormula l r _ =>
      containsRewardOperator l || containsRewardOperator r
  | _ => false
  end.

(** Modelled from the spec:
    [FormulaInformation::containsBoundedUntilFormula], not part of the
    sources at hand. *)
Fixpoint containsBoundedUntilFormula (f : Formula) : bool :=
  match f with
  | BoundedUntilFormula _ _ _ => true
  | UnaryBooleanStateFormula g | ProbabilityOperatorFormula _ g
  | RewardOperatorFormula _ _ g
  | EventuallyFormula g | GloballyFormula g | NextFormula g
  | ReachabilityRewardFormula g => containsBoundedUntilFormula g
  | BinaryBooleanStateFormula _ l r | UntilFormula l r =>
      containsBoundedUntilFormula l || containsBoundedUntilFormula r
  | _ => false
  end.

(** Modelled from the spec: [FormulaInformation::containsNextFormula],
    not part of the sources at hand. *)
Fixpoint containsNextFormula (f : Formula) : bool :=
  match f with
  | NextFormula _ => true
  | UnaryBooleanStateFormula g | ProbabilityOperatorFormula _ g
  | RewardOperatorFormula _ _ g
  | EventuallyFormula g | GloballyFormula g
  | ReachabilityRewardFormula g => containsNextFormula g
  | BinaryBooleanStateFormula _ l r | UntilFormula l r
  | BoundedUntilFormula l r _ =>
      containsNextFormula l || containsNextFormula r
  | _ => false
  end.

(** Modelled from the spec: [Formula::getAtomicLabelFormulas], not part
    of the sources at hand, as the labels the formulas carry. *)
Fixpoint getAtomicLabelFormulas (f : Formula) : list string :=
  match f with
  | AtomicLabelFormula l => [l]
  | UnaryBooleanStateFormula g | ProbabilityOperatorFormula _ g
  | RewardOperatorFormula _ _ g
  | EventuallyFormula g | GloballyFormula g | NextFormula g
  | ReachabilityRewardFormula g => getAtomicLabelFormulas g
  | BinaryBooleanStateFormula _ l r | UntilFormula l r
  | BoundedUntilFormula l r _ =>
      getAtomicLabelFormulas l ++ getAtomicLabelFormulas r
  | _ => []
  end.

(** Modelled from the spec: [Formula::getAtomicExpressionFormulas], not
    part of the sources at hand, as the [toString] of the formulas. *)
Fixpoint getAtomicExpressionFormulas (f : Formula) : list string :=
  match f with
  | AtomicExpressionFormula e => [e]
  | UnaryBooleanStateFormula g | ProbabilityOperatorFormula _ g
  | RewardOperatorFormula _ _ g
  | EventuallyFormula g | GloballyFormula g | NextFormula g
  | ReachabilityRewardFormula g => getAtomicExpressionFormulas g
  | BinaryBooleanStateFormula _ l r | UntilFormula l r
  | BoundedUntilFormula l r _ =>
      getAtomicExpressionFormulas l ++ getAtomicExpressionFormulas r
  | _ => []
  end.
End F.

(** ** Models *)

(** Modelled from the spec: [storm::models::sparse::StandardRewardModel] is
    not part of the sources at hand; each kind of reward is optional. *)
Record StandardRewardModel (V : Type) := mkRewardModel {
  optionalStateRewardVector : option (list V);
  optionalStateActionRewardVector : option (list V);
  optionalTransitionRewardMatrix : option (SparseMatrix V)
}.
Arguments mkRewardModel {V} _ _ _.
Arguments optionalStateRewardVector {V} _.
Arguments optionalStateActionRewardVector {V} _.
Arguments optionalTransitionRewardMatrix {V} _.

(** Modelled from the spec: [storm::models::sparse::Model] is not part of
    the sources at hand; the record holds what the decomposition reads of a
    model: the number of states, the transitions, the labelling and the
    reward models. *)
Record Model (V : Type) := mkModel {
  numberOfStates : nat;
  transitionMatrix : SparseMatrix V;
  stateLabeling : gmap string BitVector;
  rewardModels : list (string * StandardRewardModel V)
}.
Arguments mkModel {V} _ _ _ _.
Arguments numberOfStates {V} _.
Arguments transitionMatrix {V} _.
Arguments stateLabeling {V} _.
Arguments rewardModels {V} _.

Section ModelQueries.
Context {V : Type}.

(** Modelled from the spec: the queries of the reward model and of the
    model, not part of the sources at hand, by what their names say. *)
Definition hasTransitionRewards (rm : StandardRewardModel V) : bool :=
  bool_decide (is_Some (optionalTransitionRewardMatrix rm)).

Definition hasOnlyStateRewards (rm : StandardRewardModel V) : bool :=
  bool_decide (is_Some (optionalStateRewardVector rm))
  && negb (bool_decide (is_Some (optionalStateActionRewardVector rm)))
  && negb (bool_decide (is_Some (optionalTransitionRewardMatrix rm))).

Definition hasRewardModel (m : Model V) : bool :=
  negb (bool_decide (rewardModels m = [])).

Definition hasUniqueRewardModel (m : Model V) : bool :=
  bool_decide (length (rewardModels m) = 1).

Definition getUniqueRewardModel (m : Model V) : option (StandardRewardModel V) :=
  snd <$> head (rewardModels m).

(** Modelled from the spec: [model.getStateLabeling().getLabels()], not
    part of the sources at hand: the labels the model defines. *)
Definition getLabels (m : Model V) : gset string := dom (stateLabeling m).

(** Modelled from the spec: [model.getStates(label)], not part of the
    sources at hand: the states carrying the label; a label the model does
    not define is carried by no state. *)
Definition getStates (m : Model V) (label : string) : BitVector :=
  default [] (stateLabeling m !! label).

(** Modelled from the spec: [model.getBackwardTransitions()], not part of
    the sources at hand: the transposed transition matrix, row [t] listing
    the predecessors of [t] in increasing order. *)
Definition getBackwardTransitions (m : Model V) : SparseMatrix V :=
  map (λ t, mjoin (imap (λ s row,
                           omap (λ e : nat * V,
                                   if bool_decide (e.1 = t) then Some (s, e.2)
                                   else None) row)
                     (transitionMatrix m)))
    (seq 0 (numberOfStates m)).

(** Modelled from the spec: [SparsePropositionalModelChecker] is not part of
    the sources at hand; given a model and a propositional formula it
    returns the exact set of states where the formula holds.  An atomic
    expression is looked up under its printed form, the name under which
    the configuration code respects it. *)
Fixpoint holds (m : Model V) (f : Formula) (s : state_type) : bool :=
  match f with
  | BooleanLiteralFormula b => b
  | AtomicLabelFormula l => BV.get (getStates m l) s
  | AtomicExpressionFormula e => BV.get (getStates m e) s
  | UnaryBooleanStateFormula g => negb (holds m g s)
  | BinaryBooleanStateFormula And l r => holds m l s && holds m r s
  | BinaryBooleanStateFormula Or l r => holds m l s || holds m r s
  | _ => false
  end.

(** Modelled from the spec: [checker.check(formula)] with the truth
    values of the result, one per state. *)
Definition check (m : Model V) (f : Formula) : BitVector :=
  map (holds m f) (seq 0 (numberOfStates m)).
End ModelQueries.

(** ** Options *)

Inductive BisimulationType := Strong | Weak.
#[export] Instance BisimulationType_eq_dec : EqDecision BisimulationType.
Proof. solve_decision. Defined.

Record Options := mkOptions {
  measureDrivenInitialPartition : bool;
  phiStates : option BitVector;
  psiStates : option BitVector;
  respectedAtomicPropositions : option (gset string);
  buildQuotient : bool;
  keepRewards : bool;
  type : BisimulationType;
  bounded : bool;
  optimalityType : option OptimizationDirection
}.

Module Opt.
(** [Options::Options()] *)
Definition default : Options :=
  {| measureDrivenInitialPartition := false; phiStates := None;
     psiStates := None; respectedAtomicPropositions := None;
     buildQuotient := true; keepRewards := false; type := Strong;
     bounded := false; optimalityType := None |}.

Definition setRespected (r : option (gset string)) (o : Options) : Options :=
  mkOptions (measureDrivenInitialPartition o) (phiStates o) (psiStates o) r
    (buildQuotient o) (keepRewards o) (type o) (bounded o) (optimalityType o).
Definition setKeepRewards (b : bool) (o : Options) : Options :=
  mkOptions (measureDrivenInitialPartition o) (phiStates o) (psiStates o)
    (respectedAtomicPropositions o) (buildQuotient o) b (type o) (bounded o)
    (optimalityType o).
Definition setBounded (b : bool) (o : Options) : Options :=
  mkOptions (measureDrivenInitialPartition o) (phiStates o) (psiStates o)
    (respectedAtomicPropositions o) (buildQuotient o) (keepRewards o) (type o)
    b (optimalityType o).
Definition setOptimalityType (d : option OptimizationDirection) (o : Options)
  : Options :=
  mkOptions (measureDrivenInitialPartition o) (phiStates o) (psiStates o)
    (respectedAtomicPropositions o) (buildQuotient o) (keepRewards o) (type o)
    (bounded o) d.
Definition setMeasureDriven (b : bool) (phi psi : option BitVector)
    (o : Options) : Options :=
  mkOptions b phi psi (respectedAtomicPropositions o) (buildQuotient o)
    (keepRewards o) (type o) (bounded o) (optimalityType o).
End Opt.

Section Configuration.
Context {V : Type}.

(** [Options::addToRespectedAtomicPropositions] *)
Definition addToRespectedAtomicPropositions (expressions labels : list string)
    (o : Options) : Options :=
  let labelsToRespect : gset string :=
    list_to_set labels ∪ list_to_set expressions in
  match respectedAtomicPropositions o with
  | None => Opt.setRespected (Some labelsToRespect) o
  | Some r => Opt.setRespected (Some (r ∪ labelsToRespect)) o
  end.

(** [Options::preserveFormula] *)
Definition preserveFormula (m : Model V) (formula : Formula) (o : Options)
    : Options :=
  let o := Opt.setMeasureDriven false None None o in
  let o := Opt.setKeepRewards
             (keepRewards o || F.containsRewardOperator formula) o in
  let o := Opt.setBounded
             (bounded o || (F.containsBoundedUntilFormula formula
                            || F.containsNextFormula formula)) o in
  addToRespectedAtomicPropositions (F.getAtomicExpressionFormulas formula)
    (F.getAtomicLabelFormulas formula) o.

(** The direction an operator formula fixes: its explicit optimality type,
    else the one read off its bound, else the direction stays as it is. *)
Definition operatorOptimality (oi : OperatorInformation)
    (current : option OptimizationDirection) : option OptimizationDirection :=
  if F.hasOptimalityType oi then opOptimalityType oi
  else match opBound oi with
       | Some (comparisonType, _) =>
           if bool_decide (comparisonType = Less)
              || bool_decide (comparisonType = LessEqual)
           then Some Maximize else Some Minimize
       | None => current
       end.

(** [Options::checkAndSetMeasureDrivenInitialPartition].  [rightSubformula]
    is a null pointer unless the unwrapped formula is an until or an
    eventually formula; handing it to the checker is then undefined, which
    is the result [None]. *)
Definition checkAndSetMeasureDrivenInitialPartition (m : Model V)
    (formula : Formula) (o : Options) : option Options :=
  let '(o, newFormula) :=
    match formula with
    | ProbabilityOperatorFormula oi sub =>
        (Opt.setOptimalityType (operatorOptimality oi (optimalityType o)) o, sub)
    | RewardOperatorFormula _ oi sub =>
        (Opt.setOptimalityType (operatorOptimality oi (optimalityType o)) o, sub)
    | _ => (o, formula)
    end in
  let '(leftSubformula, rightSubformula, measureDriven) :=
    match newFormula with
    | UntilFormula l r =>
        (l, Some r,
         if F.isPropositional l && F.isPropositional r then true
         else measureDrivenInitialPartition o)
    | EventuallyFormula r =>
        (BooleanLiteralFormula true, Some r,
         if F.isPropositional r then true
         else measureDrivenInitialPartition o)
    | _ => (BooleanLiteralFormula true, None, measureDrivenInitialPartition o)
    end in
  if measureDriven then
    match rightSubformula with
    | Some r =>
        Some (Opt.setMeasureDriven true (Some (check m leftSubformula))
                (Some (check m r)) o)
    | None => None
    end
  else Some (Opt.setOptimalityType None o).

(** [Options::preserveSingleFormula] *)
Definition preserveSingleFormula (m : Model V) (formula : Formula)
    (o : Options) : option Options :=
  let o := Opt.setKeepRewards (F.containsRewardOperator formula) o in
  let o := Opt.setBounded (F.containsBoundedUntilFormula formula
                           || F.containsNextFormula formula) o in
  let o := addToRespectedAtomicPropositions
             (F.getAtomicExpressionFormulas formula)
             (F.getAtomicLabelFormulas formula) o in
  checkAndSetMeasureDrivenInitialPartition m formula o.

(** [Options::Options(ModelType const&, Formula const&)] *)
Definition Options_formula (m : Model V) (formula : Formula) : option Options :=
  preserveSingleFormula m formula Opt.default.

(** [Options::Options(ModelType const&, std::vector<...> const&)].  The
    test for a single formula is a second [if], not an [else if]: after the
    branch for no formula the loop of the [else] runs over the empty
    vector. *)
Definition Options_formulas (m : Model V) (formulas : list Formula)
    : option Options :=
  let o := Opt.default in
  let o := if bool_decide (formulas = [])
           then Opt.setKeepRewards true (Opt.setRespected (Some (getLabels m)) o)
           else o in
  match formulas with
  | [formula] => preserveSingleFormula m formula o
  | _ => Some (foldl (λ o formula, preserveFormula m formula o) o formulas)
  end.
End Configuration.

(** ** Blocks and partitions *)

(** Modelled from the spec: [DeterministicBlockData] is not part of the
    sources at hand; the data of a block: whether it is enqueued as a
    splitter, the absorbing flag and the representative state. *)
Record BlockData := mkBlockData {
  splitter : bool;
  absorbing : bool;
  representativeState : option state_type
}.

(** Modelled from the spec: [Block] is not part of the sources at hand; a
    block owns its states and its data. *)
Record Block := mkBlock {
  blockStates : list state_type;
  data : BlockData
}.

(** Modelled from the spec: [Partition] is not part of the sources at hand.
    A partition is an arena of blocks addressed by stable integer handles; a
    split retires the block it splits (its slot becomes [None]) and adds the
    sub-blocks as new blocks at the end of the arena. *)
Abbreviation Partition := (list (option Block)) (only parsing).

Module Part.
(** Modelled from the spec: the data of a new block. *)
Definition emptyData : BlockData := mkBlockData false false None.

(** Modelled from the spec: [block.data().setSplitter(flag)]. *)
Definition setSplitterData (flag : bool) (bd : BlockData) : BlockData :=
  mkBlockData flag (absorbing bd) (representativeState bd).
Definition setSplitterBlock (flag : bool) (b : Block) : Block :=
  mkBlock (blockStates b) (setSplitterData flag (data b)).

(** Modelled from the spec: the block a handle points to, if the handle
    is live. *)
Definition getBlock (P : Partition) (h : nat) : option Block :=
  mjoin (P !! h).

(** Modelled from the spec: the handles of the blocks of the partition,
    in arena order. *)
Definition handles (P : Partition) : list nat :=
  filter (λ h, is_Some (getBlock P h)) (seq 0 (length P)).

(** Modelled from the spec: [partition.getBlocks()]. *)
Definition getBlocks (P : Partition) : list Block := omap id P.

(** Modelled from the spec: [block->getNumberOfStates()] through a
    handle. *)
Definition getNumberOfStates (P : Partition) (h : nat) : nat :=
  from_option (λ b, length (blockStates b)) 0 (getBlock P h).

(** Modelled from the spec: [setSplitter(flag)] on the block a handle
    points to. *)
Definition setSplitter (flag : bool) (h : nat) (P : Partition) : Partition :=
  alter (fmap (setSplitterBlock flag)) h P.

(** Modelled from the spec: [Partition(numberOfStates)], one block
    holding every state. *)
Definition trivial (n : nat) : Partition :=
  [Some (mkBlock (seq 0 n) emptyData)].

(** Modelled from the spec: a set of states gives a block unless it is
    empty. *)
Definition blockIfNonEmpty (l : list state_type) (bd : BlockData) : Partition :=
  match l with [] => [] | _ => [Some (mkBlock l bd)] end.

(** Modelled from the spec: [Partition(numberOfStates, prob0States,
    prob1States, representativeProb1State)], a block for the first set, a
    block for the second set, which carries the representative, and a
    block for the remaining states; an empty set gives no block. *)
Definition threeWay (n : nat) (prob0States prob1States : BitVector)
    (representativeProb1State : option state_type) : Partition :=
  let otherStates :=
    BV.complement n (BV.union n prob0States prob1States) in
  blockIfNonEmpty (BV.indices n prob0States) emptyData
  ++ blockIfNonEmpty (BV.indices n prob1States)
       (mkBlockData false
          (bool_decide (is_Some representativeProb1State))
          representativeProb1State)
  ++ blockIfNonEmpty (BV.indices n otherStates) emptyData.

(** Modelled from the spec: splitting every block.  [parts h l] cuts the
    states [l] of the block with handle [h] into sub-blocks.  A block cut
    into more than one part is retired and its parts become new blocks,
    whose data is [f] of the data of the block they come from. *)
Definition retire (parts : nat → list state_type → list (list state_type))
    (h : nat) (ob : option Block) : option Block :=
  match ob with
  | Some b =>
      if bool_decide (1 < length (parts h (blockStates b))) then None
      else Some b
  | None => None
  end.

Definition pieces (parts : nat → list state_type → list (list state_type))
    (f : BlockData → BlockData) (h : nat) (ob : option Block)
    : list (option Block) :=
  match ob with
  | Some b =>
      if bool_decide (1 < length (parts h (blockStates b)))
      then map (λ l, Some (mkBlock l (f (data b)))) (parts h (blockStates b))
      else []
  | None => []
  end.

Definition splitBlocks (parts : nat → list state_type → list (list state_type))
    (f : BlockData → BlockData) (P : Partition) : Partition :=
  imap (retire parts) P ++ mjoin (imap (pieces parts f) P).

(** Modelled from the spec: [Partition::splitStates(states)], every block
    is cut into its states inside and its states outside the given set. *)
Definition insideOutside (bv : BitVector) (l : list state_type)
    : list (list state_type) :=
  filter (λ part, part ≠ [])
    [filter (λ s, BV.get bv s = true) l; filter (λ s, BV.get bv s ≠ true) l].

Definition splitStates (bv : BitVector) (P : Partition) : Partition :=
  splitBlocks (λ _, insideOutside bv) id P.

(** Modelled from the spec: the maximal runs of a list in which no
    element is less than its successor. *)
Fixpoint runs {A} (less : A → A → bool) (l : list A) : list (list A) :=
  match l with
  | [] => []
  | x :: l' =>
      match runs less l' with
      | (y :: _) as r :: rs =>
          if less x y then [x] :: r :: rs else (x :: r) :: rs
      | _ => [[x]]
      end
  end.

(** Modelled from the spec: the order a sort with the comparator [less]
    establishes, no element being less than one before it. *)
Definition notAfter {A} (less : A → A → bool) : relation A :=
  λ a b, less b a = false.
#[global] Instance notAfter_dec {A} (less : A → A → bool) :
  RelDecision (notAfter less).
Proof. intros a b. unfold notAfter. apply _. Defined.

(** Modelled from the spec: [Partition::split(less)], the states of every
    block are sorted with [less] and the block is cut wherever a state is
    less than the next. *)
Definition sortedRuns (less : state_type → state_type → bool)
    (l : list state_type) : list (list state_type) :=
  runs less (merge_sort (notAfter less) l).

Definition split (less : state_type → state_type → bool) (P : Partition)
    : Partition :=
  splitBlocks (λ _, sortedRuns less) id P.

(** Modelled from the spec: [Partition::sortBlock], the states of a block
    in increasing order. *)
Definition sortBlock (b : Block) : Block :=
  mkBlock (merge_sort le (blockStates b)) (data b).

(** Modelled from the spec: grouping the states of a block by identical
    signature, the groups in order of first occurrence. *)
Fixpoint addToGroups {A K} `{EqDecision K} (key : A → K) (x : A)
    (gs : list (list A)) : list (list A) :=
  match gs with
  | [] => [[x]]
  | g :: gs' =>
      match g with
      | y :: _ =>
          if decide (key x = key y) then (x :: g) :: gs'
          else g :: addToGroups key x gs'
      | [] => g :: addToGroups key x gs'
      end
  end.

Definition groups {A K} `{EqDecision K} (key : A → K) (l : list A)
    : list (list A) :=
  foldr (addToGroups key) [] l.
End Part.

(** ** The decomposition object *)

Record BisimulationDecomposition (V : Type) := mkDecomposition {
  model : Model V;
  backwardTransitions : SparseMatrix V;
  options : Options;
  partition : Partition;
  blocks : list (list state_type);
  quotient : option (Model V)
}.
Arguments mkDecomposition {V} _ _ _ _ _ _.
Arguments model {V} _.
Arguments backwardTransitions {V} _.
Arguments options {V} _.
Arguments partition {V} _.
Arguments blocks {V} _.
Arguments quotient {V} _.

Inductive exception :=
| IllegalFunctionCallException (message : string)
| InvalidOptionException (message : string).

(** What a call on the decomposition leads to: it returns, it throws and
    leaves the object as it is at the throw, or the refinement loop is still
    running when the fuel is used up. *)
Inductive Outcome (V : Type) :=
| Returned (d : BisimulationDecomposition V)
| Thrown (e : exception) (d : BisimulationDecomposition V)
| Running.
Arguments Returned {V} _.
Arguments Thrown {V} _ _.
Arguments Running {V}.

(** The pure virtual member functions of [BisimulationDecomposition], which
    the classes for the different kinds of models implement.
    [refinePartitionBasedOnSplitter] is given the object, the splitter and
    the splitter vector, and leaves a partition and a splitter vector.
    Modelled from the spec: [buildQuotient] is not part of the sources at
    hand; it converts the final partition into a model with one state per
    block, which becomes the quotient of the object. *)
Class DecompositionMethods (V : Type) := {
  getStatesWithProbability01 :
    BisimulationDecomposition V → BitVector * BitVector;
  refinePartitionBasedOnSplitter :
    BisimulationDecomposition V → nat → list nat → Partition * list nat;
  buildQuotientModel : BisimulationDecomposition V → Model V
}.

(** ** The class [BisimulationDecomposition] *)

Section Decomposition.
Context {V : Type} `{ValueType V} `{DecompositionMethods V}.

Definition setPartition (P : Partition) (d : BisimulationDecomposition V)
    : BisimulationDecomposition V :=
  mkDecomposition (model d) (backwardTransitions d) (options d) P (blocks d)
    (quotient d).

(** The constructor of the class: three checks, then the respected atomic
    propositions are fixed if they were not given. *)
Definition construct (m : Model V) (bt : SparseMatrix V) (o : Options)
    : exception + BisimulationDecomposition V :=
  if negb (negb (keepRewards o) || negb (hasRewardModel m)
           || hasUniqueRewardModel m)
  then inl (IllegalFunctionCallException
              "Bisimulation currently only supports models with at most one reward model.")
  else if negb (negb (keepRewards o) || negb (hasRewardModel m)
                || from_option hasOnlyStateRewards false
                     (getUniqueRewardModel m))
  then inl (IllegalFunctionCallException
              "Bisimulation is currently supported for models with state rewards only. Consider converting the transition rewards to state rewards (via suitable function calls).")
  else if negb (negb (bool_decide (type o = Weak)) || negb (bounded o))
  then inl (IllegalFunctionCallException
              "Weak bisimulation cannot preserve bounded properties.")
  else
    let o := match respectedAtomicPropositions o with
             | None => Opt.setRespected (Some (getLabels m)) o
             | Some _ => o
             end in
    inr (mkDecomposition m bt o [] [] None).

(** The constructor that takes the backward transitions from the
    model. *)
Definition constructFromModel (m : Model V) (o : Options)
    : exception + BisimulationDecomposition V :=
  construct m (getBackwardTransitions m) o.

(** [model.getUniqueRewardModel()->second.getStateRewardVector()] and its
    entry for a state.  The constructor has checked that the unique reward
    model has state rewards; without them the vector is empty here, and a
    state beyond the end of the vector has the reward zero. *)
Definition stateRewardVector (m : Model V) : list V :=
  default [] (getUniqueRewardModel m ≫= optionalStateRewardVector).
Definition stateReward (m : Model V) (s : state_type) : V :=
  default vzero (stateRewardVector m !! s).

(** [splitInitialPartitionBasedOnStateRewards] *)
Definition splitInitialPartitionBasedOnStateRewards
    (d : BisimulationDecomposition V) : BisimulationDecomposition V :=
  setPartition
    (Part.split (λ a b, vlt (stateReward (model d) a) (stateReward (model d) b))
       (partition d)) d.

(** A [std::set<std::string>] is iterated in increasing order. *)
Definition inOrder (labels : gset string) : list string :=
  merge_sort String.leb (elements labels).

(** [initializeLabelBasedPartition] *)
Definition initializeLabelBasedPartition (d : BisimulationDecomposition V)
    : BisimulationDecomposition V :=
  let P := Part.trivial (numberOfStates (model d)) in
  let P :=
    foldl (λ P label,
             if bool_decide (label = "init"%string) then P
             else Part.splitStates (getStates (model d) label) P)
      P (inOrder (default ∅ (respectedAtomicPropositions (options d)))) in
  let d := setPartition P d in
  if keepRewards (options d) && hasRewardModel (model d)
  then splitInitialPartitionBasedOnStateRewards d
  else d.

(** [initializeMeasureDrivenPartition]; the caller has checked that the phi
    and psi states are present. *)
Definition initializeMeasureDrivenPartition (psi : BitVector)
    (d : BisimulationDecomposition V) : BisimulationDecomposition V :=
  let statesWithProbability01 := getStatesWithProbability01 d in
  let representativePsiState :=
    if negb (BV.empty psi) then BV.begin psi else None in
  let P :=
    Part.threeWay (numberOfStates (model d)) (statesWithProbability01.1)
      (if bounded (options d) || keepRewards (options d)
       then psi else statesWithProbability01.2)
      representativePsiState in
  let d := setPartition P d in
  if keepRewards (options d) && hasRewardModel (model d)
  then splitInitialPartitionBasedOnStateRewards d
  else d.

(** The first part of [computeBisimulationDecomposition]: the initial
    partition. *)
Definition initializePartition (d : BisimulationDecomposition V)
    : Outcome V :=
  if measureDrivenInitialPartition (options d) then
    match phiStates (options d), psiStates (options d) with
    | None, _ =>
        Thrown (InvalidOptionException
                  "Unable to compute measure-driven initial partition without phi states.") d
    | Some _, None =>
        Thrown (InvalidOptionException
                  "Unable to compute measure-driven initial partition without psi states.") d
    | Some _, Some psi => Returned (initializeMeasureDrivenPartition psi d)
    end
  else Returned (initializeLabelBasedPartition d).

(** *** [performPartitionRefinement] *)

(** The order in which [std::sort] leaves the splitter vector under the
    comparator [b1->getNumberOfStates() > b2->getNumberOfStates()]. *)
Definition largerFirst (P : Partition) : relation nat :=
  λ b1 b2, Part.getNumberOfStates P b2 ≤ Part.getNumberOfStates P b1.
#[global] Instance largerFirst_dec P : RelDecision (largerFirst P).
Proof. intros a b. unfold largerFirst. apply _. Defined.

(** One pass through the body of the [while] loop; [None] when the
    splitter vector is empty and the loop is left. *)
Definition refinementStep
    (st : BisimulationDecomposition V * list nat)
    : option (BisimulationDecomposition V * list nat) :=
  let '(d, splitterVector) := st in
  let sorted := merge_sort (largerFirst (partition d)) splitterVector in
  match last sorted with
  | None => None
  | Some splitter =>
      let splitterVector := removelast sorted in
      let d := setPartition (Part.setSplitter false splitter (partition d)) d in
      let '(P, splitterVector) :=
        refinePartitionBasedOnSplitter d splitter splitterVector in
      Some (setPartition P d, splitterVector)
  end.

Fixpoint refinementLoop (fuel : nat)
    (st : BisimulationDecomposition V * list nat)
    : option (BisimulationDecomposition V) :=
  match refinementStep st with
  | None => Some st.1
  | Some st' =>
      match fuel with
      | 0 => None
      | S fuel => refinementLoop fuel st'
      end
  end.

(** The state of the loop after [k] passes (or when it was left before). *)
Fixpoint refinementIterate (k : nat)
    (st : BisimulationDecomposition V * list nat)
    : BisimulationDecomposition V * list nat :=
  match k with
  | 0 => st
  | S k =>
      match refinementStep st with
      | None => st
      | Some st' => refinementIterate k st'
      end
  end.

(** The state in which the loop is entered: every block is marked as a
    splitter and is in the splitter vector. *)
Definition refinementStart (d : BisimulationDecomposition V)
    : BisimulationDecomposition V * list nat :=
  (setPartition (map (fmap (Part.setSplitterBlock true)) (partition d)) d,
   Part.handles (partition d)).

Definition performPartitionRefinement (fuel : nat)
    (d : BisimulationDecomposition V) : option (BisimulationDecomposition V) :=
  refinementLoop fuel (refinementStart d).

(** [extractDecompositionBlocks]: every block is sorted and becomes the
    block of the decomposition under its id, the ids being dense in the
    order of the partition. *)
Definition extractDecompositionBlocks (d : BisimulationDecomposition V)
    : BisimulationDecomposition V :=
  let P := map (fmap Part.sortBlock) (partition d) in
  mkDecomposition (model d) (backwardTransitions d) (options d) P
    (map blockStates (Part.getBlocks P)) (quotient d).

Definition buildQuotientStep (d : BisimulationDecomposition V)
    : BisimulationDecomposition V :=
  if buildQuotient (options d)
  then mkDecomposition (model d) (backwardTransitions d) (options d)
         (partition d) (blocks d) (Some (buildQuotientModel d))
  else d.

(** [computeBisimulationDecomposition]: the initial partition, the
    refinement, the extraction of the blocks and the quotient.
    [initialize] does nothing in this class; the measurement of the times
    and the printing of the statistics are left out. *)
Definition computeBisimulationDecomposition (fuel : nat)
    (d : BisimulationDecomposition V) : Outcome V :=
  match initializePartition d with
  | Returned d =>
      match performPartitionRefinement fuel d with
      | Some d => Returned (buildQuotientStep (extractDecompositionBlocks d))
      | None => Running
      end
  | other => other
  end.

(** [getQuotient] *)
Definition getQuotient (d : BisimulationDecomposition V)
    : exception + Model V :=
  match quotient d with
  | None =>
      inl (IllegalFunctionCallException
             "Unable to retrieve quotient model from bisimulation decomposition, because it was not built.")
  | Some q => inr q
  end.

(** Constructing the decomposition and computing it. *)
Definition decompose (fuel : nat) (m : Model V) (bt : SparseMatrix V)
    (o : Options) : exception + Outcome V :=
  match construct m bt o with
  | inl e => inl e
  | inr d => inr (computeBisimulationDecomposition fuel d)
  end.
End Decomposition.

(** ** The decomposition of deterministic models

    The class that implements the virtual member functions for deterministic
    models is not part of the sources at hand.  Its refinement step, its
    probability-0/1 states and its quotient follow the specification of the
    refinement engine, of the measure-driven partition and of the quotient
    builder. *)

Section Deterministic.
Context {V : Type} `{ValueType V}.

(** Modelled from the spec: the value of a row of a sparse matrix in a
    column, and with it the probability to move from [s] to [t], read off
    row [t] of the backward transitions. *)
Definition rowValue (row : list (nat * V)) (column : nat) : V :=
  foldr (λ e acc, if bool_decide (e.1 = column) then vadd e.2 acc else acc)
    vzero row.

Definition transitionProbability (bt : SparseMatrix V) (s t : state_type) : V :=
  rowValue (default [] (bt !! t)) s.

(** Modelled from the spec: the aggregated probability to move from [s]
    into the set [B] of states. *)
Definition aggregatedProbability (bt : SparseMatrix V) (s : state_type)
    (B : list state_type) : V :=
  foldr (λ t acc,
           if bool_decide (t ∈ B) then vadd (transitionProbability bt s t) acc
           else acc)
    vzero (seq 0 (length bt)).

(** Modelled from the spec: the signature of the state [s] of the block
    [B] with handle [h] with respect to the splitter [S] with handle [sp],
    not part of the sources at hand.  Strong bisimulation: the
    aggregated probability into the splitter.  Weak bisimulation: the moves
    inside the own block are silent, so the splitter tells nothing about
    its own states, and for another block the probability into the
    splitter is taken among the moves that leave the block. *)
Definition signature (bisimulationType : BisimulationType)
    (bt : SparseMatrix V) (sp : nat) (S : list state_type)
    (h : nat) (B : list state_type) (s : state_type) : V :=
  match bisimulationType with
  | Strong => aggregatedProbability bt s S
  | Weak =>
      if bool_decide (h = sp) then vzero
      else
        let silent := aggregatedProbability bt s B in
        if bool_decide (silent = vone) then vzero
        else vdiv (aggregatedProbability bt s S) (vsub vone silent)
  end.

(** Modelled from the spec: [refinePartitionBasedOnSplitter] for
    deterministic models, not part of the sources at hand.  Every block is
    cut into the groups of states of equal signature; the sub-blocks of a
    block that is cut are marked as splitters and enqueued, and the block
    they come from is retired, also from the splitter vector. *)
Definition refineDeterministic (d : BisimulationDecomposition V)
    (splitter : nat) (splitterVector : list nat) : Partition * list nat :=
  let P := partition d in
  let S := from_option blockStates [] (Part.getBlock P splitter) in
  let P' :=
    Part.splitBlocks
      (λ h B, Part.groups
                (signature (type (options d)) (backwardTransitions d)
                   splitter S h B) B)
      (Part.setSplitterData true) P in
  (P',
   filter (λ h, is_Some (Part.getBlock P' h)) splitterVector
   ++ seq (length P) (length P' - length P)).

(** Modelled from the spec: the states from which a psi state is reached
    with positive probability along phi states, by backward reachability,
    an entry of the backward transitions being an edge. *)
Definition hasPredecessor (bt : SparseMatrix V) (t s : state_type) : bool :=
  bool_decide (s ∈ (default [] (bt !! t)).*1).

Definition probGreater0Step (bt : SparseMatrix V) (n : nat)
    (phi : BitVector) (X : BitVector) : BitVector :=
  map (λ s, BV.get X s
            || (BV.get phi s
                && existsb (λ t, BV.get X t && hasPredecessor bt t s) (seq 0 n)))
    (seq 0 n).

Definition performProbGreater0 (bt : SparseMatrix V) (n : nat)
    (phi psi : BitVector) : BitVector :=
  Nat.iter n (probGreater0Step bt n phi) (map (BV.get psi) (seq 0 n)).

(** Modelled from the spec: [getStatesWithProbability01] for
    deterministic models, not part of the sources at hand: the states
    with probability exactly 0 and exactly 1 to satisfy phi until psi. *)
Definition performProb01 (bt : SparseMatrix V) (n : nat) (phi psi : BitVector)
    : BitVector * BitVector :=
  let greater0 := performProbGreater0 bt n phi psi in
  let prob0 := BV.complement n greater0 in
  (prob0,
   BV.complement n (performProbGreater0 bt n (BV.complement n psi) prob0)).

Definition statesWithProbability01Deterministic
    (d : BisimulationDecomposition V) : BitVector * BitVector :=
  performProb01 (backwardTransitions d) (numberOfStates (model d))
    (default [] (phiStates (options d))) (default [] (psiStates (options d))).

(** Modelled from the spec: [buildQuotient] for deterministic models, not
    part of the sources at hand: one state per block of the
    decomposition, the transitions, labels and reward of a block taken
    from its first state. *)
Definition quotientDeterministic (d : BisimulationDecomposition V) : Model V :=
  let representatives := map (λ B, default 0 (head B)) (blocks d) in
  let row (s : state_type) :=
    omap (λ '(j, B), let p := aggregatedProbability (backwardTransitions d) s B in
                     if bool_decide (p = vzero) then None else Some (j, p))
      (imap pair (blocks d)) in
  let labelling (label : string) :=
    (label, map (BV.get (getStates (model d) label)) representatives) in
  mkModel (length (blocks d)) (map row representatives)
    (list_to_map
       (labelling <$> elements (default ∅ (respectedAtomicPropositions (options d)))))
    (if keepRewards (options d) && hasRewardModel (model d)
     then [(""%string,
            mkRewardModel
              (Some (map (stateReward (model d)) representatives))
              None None)]
     else []).

#[global] Instance Deterministic : DecompositionMethods V :=
  {| getStatesWithProbability01 := statesWithProbability01Deterministic;
     refinePartitionBasedOnSplitter := refineDeterministic;
     buildQuotientModel := quotientDeterministic |}.
End Deterministic.

(** ** Notions used to state the properties *)

(** The formula below a leading probability or reward operator, and the
    operator's direction and bound. *)
Definition unwrapOperator (f : Formula) : Formula :=
  match f with
  | ProbabilityOperatorFormula _ sub | RewardOperatorFormula _ _ sub => sub
  | _ => f
  end.

Definition operatorInformation (f : Formula) : option OperatorInformation :=
  match f with
  | ProbabilityOperatorFormula oi _ | RewardOperatorFormula _ oi _ => Some oi
  | _ => None
  end.

(** The operands of a reachability objective the measure-driven analysis
    applies to: an until formula with propositional operands, or an
    eventually formula with a propositional operand, whose left operand is
    the literal true. *)
Definition reachabilityOperands (f : Formula) : option (Formula * Formula) :=
  match f with
  | UntilFormula l r =>
      if F.isPropositional l && F.isPropositional r then Some (l, r) else None
  | EventuallyFormula r =>
      if F.isPropositional r then Some (BooleanLiteralFormula true, r) else None
  | _ => None
  end.

(** The direction read off the comparison operator of a bound. *)
Definition directionOfBound (comparisonType : ComparisonType)
    : OptimizationDirection :=
  match comparisonType with
  | Less | LessEqual => Maximize
  | Greater | GreaterEqual => Minimize
  end.

(** The atomic labels and atomic expressions a formula mentions. *)
Definition atomicPropositions (f : Formula) : gset string :=
  list_to_set (F.getAtomicLabelFormulas f)
  ∪ list_to_set (F.getAtomicExpressionFormulas f).

(** ** Measures and invariants of the refinement *)

(** The work a block can still cause: two for each state but the first. *)
Definition blockWeight (ob : option Block) : nat :=
  match ob with
  | Some b => 2 * (length (blockStates b) - 1)
  | None => 0
  end.

(** The number of passes of the refinement loop is bounded by the number of
    pending splitters plus the weight of the blocks. *)
Definition refinementMeasure {V} (st : BisimulationDecomposition V * list nat)
    : nat :=
  length st.2 + sum_list_with blockWeight (partition st.1).

(** All states of a set have the same aggregated probability into [C]. *)
Definition sameProbabilityInto {V} `{ValueType V} (bt : SparseMatrix V)
    (B C : list state_type) : Prop :=
  ∀ s t, s ∈ B → t ∈ B →
    aggregatedProbability bt s C = aggregatedProbability bt t C.

(** All states of every block of a partition have the same state reward. *)
Definition rewardUniform {V} `{ValueType V} (m : Model V) (P : Partition)
    : Prop :=
  ∀ h b, Part.getBlock P h = Some b →
    ∀ s t, s ∈ blockStates b → t ∈ blockStates b →
      stateReward m s = stateReward m t.

(** All elements of a list have the same key. *)
Definition uniform {A K} (key : A → K) (g : list A) : Prop :=
  ∀ x y, x ∈ g → y ∈ g → key x = key y.

(** The cut the refinement step of the deterministic decomposition makes
    of the block with handle [h] and states [B], for the splitter with
    handle [sp]. *)
Definition cut {V} `{ValueType V} (d : BisimulationDecomposition V) (sp : nat)
    : nat → list nat → list (list nat) :=
  λ h B, Part.groups
           (signature (type (options d)) (backwardTransitions d) sp
              (from_option blockStates [] (Part.getBlock (partition d) sp))
              h B) B.

(** The invariant of the refinement loop for strong bisimulation: into a
    block that is no pending splitter, all states of a block have the same
    aggregated probability. *)
Definition stableInvariant {V} `{ValueType V}
    (st : BisimulationDecomposition V * list nat) : Prop :=
  type (options st.1) = Strong
  ∧ ∀ c C, Part.getBlock (partition st.1) c = Some C → c ∉ st.2 →
      ∀ b B, Part.getBlock (partition st.1) b = Some B →
        sameProbabilityInto (backwardTransitions st.1)
          (blockStates B) (blockStates C).

(** ** Example models *)

Module Examples.
Definition half : Qc := Q2Qc (1 # 2).

(** Three states: state 0 stays with probability 1/2 and moves to state 2
    with probability 1/2, state 1 moves to state 2, state 2 stays; state 2
    carries the label goal. *)
Definition chain : Model Qc :=
  mkModel 3
    [[(0, half); (2, half)]; [(2, 1%Qc)]; [(2, 1%Qc)]]
    {[ "goal"%string := [false; false; true] ]}
    [].

Definition eventuallyGoal : Formula :=
  EventuallyFormula (AtomicLabelFormula "goal").
Definition nextGoal : Formula :=
  NextFormula (AtomicLabelFormula "goal").
Definition lessThanHalf : OperatorInformation :=
  mkOperatorInformation None (Some (Less, 1 # 2)%Q).

Definition respectGoal (bisimulationType : BisimulationType) : Options :=
  mkOptions false None None (Some {[ "goal"%string ]}) true false
    bisimulationType false None.

(** The decomposition object the constructor leaves for the chain. *)
Definition chainDecomposition (bisimulationType : BisimulationType)
    : BisimulationDecomposition Qc :=
  mkDecomposition chain (getBackwardTransitions chain)
    (respectGoal bisimulationType) [] [] None.

(** The chain with a reward model: state 2 has reward 1, the others 0. *)
Definition rewardChain : Model Qc :=
  mkModel 3
    [[(0, half); (2, half)]; [(2, 1%Qc)]; [(2, 1%Qc)]]
    {[ "goal"%string := [false; false; true] ]}
    [(""%string, mkRewardModel (Some [0%Qc; 0%Qc; 1%Qc]) None None)].

Definition keepRewardsOptions : Options :=
  mkOptions false None None (Some ∅) true true Strong false None.

Definition rewardDecomposition : BisimulationDecomposition Qc :=
  mkDecomposition rewardChain (getBackwardTransitions rewardChain)
    keepRewardsOptions [] [] None.

(** Three states: state 0 carries the label a and moves to state 1, which
    carries the label goal and stays; state 2 stays and carries no
    label. *)
Definition branch : Model Qc :=
  mkModel 3
    [[(1, 1%Qc)]; [(1, 1%Qc)]; [(2, 1%Qc)]]
    {[ "a"%string := [true; false; false];
       "goal"%string := [false; true; false] ]}
    [].

Definition aUntilGoal : Formula :=
  UntilFormula (AtomicLabelFormula "a") (AtomicLabelFormula "goal").

(** The options the configuration from a until goal gives on it. *)
Definition untilOptions : Options :=
  mkOptions true (Some [true; false; false]) (Some [false; true; false])
    (Some ({[ "a"%string ]} ∪ {[ "goal"%string ]})) true false Strong false
    None.

Definition branchDecomposition : BisimulationDecomposition Qc :=
  mkDecomposition branch (getBackwardTransitions branch) untilOptions
    [] [] None.

(** The die of Knuth and Yao: from state 0 fair coin flips lead to one of
    the six faces, the states 7 to 12. *)
Definition onlyStates (l : list nat) : BitVector :=
  map (λ s, bool_decide (s ∈ l)) (seq 0 13).

Definition die : Model Qc :=
  mkModel 13
    [[(1, half); (2, half)]; [(3, half); (4, half)]; [(5, half); (6, half)];
     [(1, half); (7, half)]; [(8, half); (9, half)]; [(10, half); (11, half)];
     [(2, half); (12, half)];
     [(7, 1%Qc)]; [(8, 1%Qc)]; [(9, 1%Qc)]; [(10, 1%Qc)]; [(11, 1%Qc)];
     [(12, 1%Qc)]]
    (list_to_map
       [("init"%string, onlyStates [0]); ("one"%string, onlyStates [7]);
        ("two"%string, onlyStates [8]); ("three"%string, onlyStates [9]);
        ("four"%string, onlyStates [10]); ("five"%string, onlyStates [11]);
        ("six"%string, onlyStates [12]);
        ("done"%string, onlyStates [7; 8; 9; 10; 11; 12])])
    [].

(** The numbers of states and of transitions of the quotient. *)
Definition quotientSize (r : exception + Outcome Qc) : option (nat * nat) :=
  match r with
  | inr (Returned d) =>
      (λ q, (numberOfStates q, length (mjoin (transitionMatrix q))))
        <$> quotient d
  | _ => None
  end.

(** The object when the initial partition has been built. *)
Definition initialized (d : BisimulationDecomposition Qc)
    : BisimulationDecomposition Qc :=
  match initializePartition d with
  | Returned d1 => d1
  | _ => d
  end.
End Examples.

(** ** Further notions used to state properties *)

(** Whether the formula below a leading operator is an until or an
    eventually formula, the two kinds for which
    [checkAndSetMeasureDrivenInitialPartition] sets [rightSubformula]. *)
Definition isUntilOrEventually (f : Formula) : bool :=
  match unwrapOperator f with
  | UntilFormula _ _ | EventuallyFormula _ => true
  | _ => false
  end.

(** All states of every block of a partition have the same key. *)
Definition blocksUniform {K} (key : nat → K) (P : Partition) : Prop :=
  ∀ h b, Part.getBlock P h = Some b → uniform key (blockStates b).

(** The states of the blocks of a partition, block after block. *)
Definition liveStates (P : Partition) : list nat :=
  mjoin (blockStates <$> Part.getBlocks P).

(** No block of a partition is empty. *)
Definition blocksNonEmpty (P : Partition) : Prop :=
  ∀ h b, Part.getBlock P h = Some b → blockStates b ≠ [].

(** Every block of [P'] lies within a block of [P]. *)
Definition refines (P' P : Partition) : Prop :=
  ∀ h' b', Part.getBlock P' h' = Some b' →
    ∃ h b, Part.getBlock P h = Some b
           ∧ ∀ s, s ∈ blockStates b' → s ∈ blockStates b.

(** Two decomposition objects agree in what the refinement reads: the
    model, the backward transitions, the partition and the type of
    bisimulation. *)
Definition sameCore {V} (d1 d2 : BisimulationDecomposition V) : Prop :=
  model d1 = model d2 ∧ backwardTransitions d1 = backwardTransitions d2
  ∧ partition d1 = partition d2 ∧ type (options d1) = type (options d2).

(** The blocks a computation returns, if it returns. *)
Definition returnedBlocks {V} (out : Outcome V) : option (list (list nat)) :=
  match out with
  | Returned d => Some (blocks d)
  | _ => None
  end.

(** The object with other atomic propositions to respect. *)
Definition withRespected {V} (r : option (gset string))
    (d : BisimulationDecomposition V) : BisimulationDecomposition V :=
  mkDecomposition (model d) (backwardTransitions d)
    (Opt.setRespected r (options d)) (partition d) (blocks d) (quotient d).

(** ** Further examples *)

Module FurtherExamples.
(** The die with the label init moved from state 0 to state 3. *)
Definition relabelledDie : Model Qc :=
  mkModel (numberOfStates Examples.die) (transitionMatrix Examples.die)
    (<["init"%string := Examples.onlyStates [3]]>
       (stateLabeling Examples.die))
    (rewardModels Examples.die).

(** The object the constructor leaves for a model with the default
    options: every label of the model is respected. *)
Definition respectAll (m : Model Qc) : BisimulationDecomposition Qc :=
  mkDecomposition m (getBackwardTransitions m)
    (Opt.setRespected (Some (getLabels m)) Opt.default) [] [] None.

(** The options the configuration gives for the chain and the formula
    eventually goal. *)
Definition goalOptions : Options :=
  default Opt.default
    (Options_formulas Examples.chain [Examples.eventuallyGoal]).

(** The decomposition computed for the chain. *)
Definition chainComputed : BisimulationDecomposition Qc :=
  match computeBisimulationDecomposition 7 (Examples.chainDecomposition Strong)
  with
  | Returned d => d
  | _ => Examples.chainDecomposition Strong
  end.
End FurtherExamples.

(** * The sparse matrix with a dense diagonal

    The class [mrmc::sparse::StaticSparseMatrix<T>]: the entries off the
    diagonal in compressed rows, the diagonal in an array of its own.  The
    object is a record of its members; an array on the heap is a list behind
    a pointer that may be null.  A member function returns, throws, or has
    undefined behaviour, which is what reading or writing through the null
    pointer or beyond the end of an array is.  The logging and the
    conversions from and to the matrices of Eigen are left out. *)

Module Sparse.

Inductive MatrixStatus := Error | UnInitialized | Initialized | ReadReady.
#[global] Instance MatrixStatus_eq_dec : EqDecision MatrixStatus.
Proof. solve_decision. Defined.

(** The exceptions of [mrmc::exceptions] with their messages, and
    [std::bad_alloc]. *)
Inductive Exception :=
| invalid_state (message : string)
| invalid_argument (message : string)
| out_of_range (message : string)
| bad_alloc.

(** [uint_fast64_t]: the arithmetic is modulo [2 ^ 64]. *)
Definition wrap (x : N) : N := (x mod 2 ^ 64)%N.
Definition maxIndex : N := (2 ^ 64 - 1)%N.
Definition minus (a b : N) : N := wrap (wrap a + 2 ^ 64 - wrap b).

(** An array behind a pointer: [None] is the null pointer.  The result
    [None] of an access is undefined behaviour. *)
Definition readAt {A} (array : option (list A)) (i : N) : option A :=
  array ≫= (λ l, l !! N.to_nat i).

Definition writeAt {A} (array : option (list A)) (i : N) (x : A)
    : option (list A) :=
  array ≫= (λ l, if decide (N.to_nat i < length l)
                  then Some (<[N.to_nat i := x]> l) else None).

(** [for (...; count times; ++i) array[i] = x] *)
Fixpoint fill {A} (array : option (list A)) (i : N) (count : nat) (x : A)
    : option (option (list A)) :=
  match count with
  | 0 => Some array
  | S count => writeAt array i x ≫= (λ l, fill (Some l) (i + 1)%N count x)
  end.

(** [for (...; count times; ++i) target[i] = source[i]] *)
Fixpoint copyElements {A} (target source : option (list A)) (i : N)
    (count : nat) : option (option (list A)) :=
  match count with
  | 0 => Some target
  | S count =>
      readAt source i ≫= (λ x,
      writeAt target i x ≫= (λ l,
      copyElements (Some l) source (i + 1)%N count))
  end.

(** Which of the four [new (std::nothrow)] of [prepareInternalStorage]
    succeed. *)
Record Allocation := mkAllocation {
  valueStorageAllocated : bool;
  columnIndicationsAllocated : bool;
  rowIndicationsAllocated : bool;
  diagonalStorageAllocated : bool
}.

(** [new (std::nothrow) A[n]()]: the null pointer, or [n] elements, each
    value-initialized. *)
Definition allocate {A} (succeeds : bool) (n : N) (x : A)
    : option (list A) :=
  if succeeds then Some (replicate (N.to_nat n) x) else None.

Section Matrix.
Context {T : Type} `{ValueType T}.

Record StaticSparseMatrix := mkMatrix {
  rowCount : N;
  nonZeroEntryCount : N;
  valueStorage : option (list T);
  diagonalStorage : option (list T);
  columnIndications : option (list N);
  rowIndications : option (list N);
  internalStatus : MatrixStatus;
  currentSize : N;
  lastRow : N
}.

Inductive Result (A : Type) :=
| Returns (a : A) (m : StaticSparseMatrix)
| Throws (e : Exception) (m : StaticSparseMatrix)
| Undefined.
Arguments Returns {A} _ _.
Arguments Throws {A} _ _.
Arguments Undefined {A}.

(** [StaticSparseMatrix(uint_fast64_t rows)] *)
Definition create (rows : N) : StaticSparseMatrix :=
  mkMatrix rows 0 None None None None UnInitialized 0 0.

Definition withStatus (s : MatrixStatus) (m : StaticSparseMatrix)
    : StaticSparseMatrix :=
  mkMatrix (rowCount m) (nonZeroEntryCount m) (valueStorage m)
    (diagonalStorage m) (columnIndications m) (rowIndications m) s
    (currentSize m) (lastRow m).

(** [setState] *)
Definition setState (new_state : MatrixStatus) (m : StaticSparseMatrix)
    : StaticSparseMatrix :=
  withStatus (if decide (internalStatus m = Error) then internalStatus m
              else new_state) m.

(** [triggerErrorState] *)
Definition triggerErrorState (m : StaticSparseMatrix) : StaticSparseMatrix :=
  setState Error m.

Definition isReadReady (m : StaticSparseMatrix) : bool :=
  bool_decide (internalStatus m = ReadReady).
Definition isInitialized (m : StaticSparseMatrix) : bool :=
  bool_decide (internalStatus m = Initialized)
  || bool_decide (internalStatus m = ReadReady).
Definition getState (m : StaticSparseMatrix) : MatrixStatus := internalStatus m.
Definition hasError (m : StaticSparseMatrix) : bool :=
  bool_decide (internalStatus m = Error).

(** [prepareInternalStorage] *)
Definition prepareInternalStorage (a : Allocation) (m : StaticSparseMatrix)
    : bool * StaticSparseMatrix :=
  let valueStorage := allocate (valueStorageAllocated a) (nonZeroEntryCount m) vzero in
  let columnIndications :=
    allocate (columnIndicationsAllocated a) (nonZeroEntryCount m) 0%N in
  let rowIndications :=
    allocate (rowIndicationsAllocated a) (wrap (rowCount m + 1)) 0%N in
  let diagonalStorage := allocate (diagonalStorageAllocated a) (rowCount m) vzero in
  (bool_decide (valueStorage ≠ None) && bool_decide (columnIndications ≠ None)
   && bool_decide (rowIndications ≠ None) && bool_decide (diagonalStorage ≠ None),
   mkMatrix (rowCount m) (nonZeroEntryCount m) valueStorage diagonalStorage
     columnIndications rowIndications (internalStatus m) (currentSize m)
     (lastRow m)).

(** The copy constructor.  It throws and leaves no object, it has
    undefined behaviour, or it leaves the copy.  The two [memcpy] copy
    element by element. *)
Definition copy (a : Allocation) (ssm : StaticSparseMatrix)
    : Exception + option StaticSparseMatrix :=
  if negb (hasError ssm) then inl (invalid_argument EmptyString)
  else
    let '(prepared, m) :=
      prepareInternalStorage a
        (mkMatrix (rowCount ssm) (nonZeroEntryCount ssm) None None None None
           (internalStatus ssm) (currentSize ssm) (lastRow ssm)) in
    if negb prepared then inl bad_alloc
    else
      inr (copyElements (valueStorage m) (valueStorage ssm) 0
             (N.to_nat (nonZeroEntryCount m)) ≫= (λ values,
           copyElements (diagonalStorage m) (diagonalStorage ssm) 0
             (N.to_nat (rowCount m + 1)) ≫= (λ diagonal,
           copyElements (columnIndications m) (columnIndications ssm) 0
             (N.to_nat (nonZeroEntryCount m)) ≫= (λ columns,
           copyElements (rowIndications m) (rowIndications ssm) 0
             (N.to_nat (wrap (rowCount m + 1))) ≫= (λ rows,
           Some (mkMatrix (rowCount m) (nonZeroEntryCount m) values diagonal
                   columns rows (internalStatus m) (currentSize m)
                   (lastRow m))))))).

(** [initialize(uint_fast64_t nonZeroEntries)] *)
Definition initialize (a : Allocation) (nonZeroEntries : N)
    (m : StaticSparseMatrix) : Result unit :=
  if decide (internalStatus m ≠ UnInitialized) then
    Throws (invalid_state "StaticSparseMatrix::initialize: Invalid state for status flag != 0 - Already initialized?")
      (triggerErrorState m)
  else if decide (rowCount m = 0%N) then
    Throws (invalid_argument "mrmc::StaticSparseMatrix::initialize: Matrix with 0 rows is not reasonable")
      (triggerErrorState m)
  else if decide (minus (wrap (rowCount m * rowCount m)) (rowCount m)
                  < nonZeroEntries)%N then
    Throws (invalid_argument "mrmc::StaticSparseMatrix::initialize: More non-zero entries than entries in target matrix")
      (triggerErrorState m)
  else
    let '(prepared, m) :=
      prepareInternalStorage a
        (mkMatrix (rowCount m) nonZeroEntries (valueStorage m)
           (diagonalStorage m) (columnIndications m) (rowIndications m)
           (internalStatus m) (currentSize m) 0) in
    if negb prepared then Throws bad_alloc (triggerErrorState m)
    else Returns tt (setState Initialized m).

(** The rows between the last row written to and the row [row] are given
    their start in the storage: [for (i = lastRow + 1; i <= row; ++i)
    rowIndications[i] = currentSize].  For the largest index the condition
    of the loop always holds, and the loop runs beyond the end of the
    array. *)
Definition fillRowIndications (row : N) (m : StaticSparseMatrix)
    : option (option (list N)) :=
  if decide (row = maxIndex) then None
  else fill (rowIndications m) (wrap (lastRow m + 1))
         (N.to_nat (row + 1 - wrap (lastRow m + 1))) (currentSize m).

(** [addNextValue] *)
Definition addNextValue (row col : N) (value : T) (m : StaticSparseMatrix)
    : Result unit :=
  if decide (rowCount m < row ∨ rowCount m < col)%N then
    Throws (out_of_range "StaticSparseMatrix::addNextValue: row or col not in 0 .. rows")
      (triggerErrorState m)
  else if decide (row = col) then
    match writeAt (diagonalStorage m) row value with
    | Some diagonal =>
        Returns tt
          (mkMatrix (rowCount m) (nonZeroEntryCount m) (valueStorage m)
             (Some diagonal) (columnIndications m) (rowIndications m)
             (internalStatus m) (currentSize m) (lastRow m))
    | None => Undefined
    end
  else
    match (if decide (row ≠ lastRow m) then fillRowIndications row m
           else Some (rowIndications m)),
          writeAt (valueStorage m) (currentSize m) value,
          writeAt (columnIndications m) (currentSize m) col with
    | Some rows, Some values, Some columns =>
        Returns tt
          (mkMatrix (rowCount m) (nonZeroEntryCount m) (Some values)
             (diagonalStorage m) (Some columns) rows (internalStatus m)
             (wrap (currentSize m + 1)) row)
    | _, _, _ => Undefined
    end.

(** [finalize] *)
Definition finalize (m : StaticSparseMatrix) : Result unit :=
  if negb (isInitialized m) then
    Throws (invalid_state "StaticSparseMatrix::finalize: Invalid state for internal state not Initialized - Already finalized?")
      (triggerErrorState m)
  else if decide (currentSize m ≠ nonZeroEntryCount m) then
    Throws (invalid_state "StaticSparseMatrix::finalize: Wrong call count for addNextValue")
      (triggerErrorState m)
  else
    match (if decide (lastRow m ≠ rowCount m)
           then fillRowIndications (rowCount m) m
           else Some (rowIndications m))
          ≫= (λ rows, writeAt rows (wrap (rowCount m + 1))
                         (nonZeroEntryCount m)) with
    | Some rows =>
        Returns tt
          (setState ReadReady
             (mkMatrix (rowCount m) (nonZeroEntryCount m) (valueStorage m)
                (diagonalStorage m) (columnIndications m) (Some rows)
                (internalStatus m) (currentSize m) (lastRow m)))
    | None => Undefined
    end.

(** The loop of [getValue] over the entries of a row, [count] of them
    left from [rowStart] on: the value found, or zero when the column is
    not among them or a larger column is met first. *)
Fixpoint find (columns : option (list N)) (values : option (list T))
    (col : N) (count : nat) (rowStart : N) : option (bool * T) :=
  match count with
  | 0 => Some (false, vzero)
  | S count =>
      readAt columns rowStart ≫= (λ c,
        if decide (c = col) then
          readAt values rowStart ≫= (λ v, Some (true, v))
        else if decide (col < c)%N then Some (false, vzero)
        else find columns values col count (rowStart + 1)%N)
  end.

(** [getValue]: what it returns and what it writes to [*target]. *)
Definition getValue (row col : N) (m : StaticSparseMatrix)
    : Result (bool * T) :=
  if decide (rowCount m < row ∨ rowCount m < col)%N then
    Throws (out_of_range "StaticSparseMatrix::getValue: row or col not in 0 .. rows") m
  else if decide (row = col) then
    match readAt (diagonalStorage m) row with
    | Some v => Returns (true, v) m
    | None => Undefined
    end
  else
    match readAt (rowIndications m) row,
          readAt (rowIndications m) (wrap (row + 1)) with
    | Some rowStart, Some rowEnd =>
        match find (columnIndications m) (valueStorage m) col
                (N.to_nat (rowEnd - rowStart)) rowStart with
        | Some found => Returns found m
        | None => Undefined
        end
    | _, _ => Undefined
    end.

(** [makeStateAbsorbing] *)
Definition makeStateAbsorbing (state : N) (m : StaticSparseMatrix)
    : Result bool :=
  if decide (rowCount m < state)%N then
    Throws (out_of_range "StaticSparseMatrix::makeStateFinal: state not in 0 .. rows") m
  else
    match readAt (rowIndications m) state,
          readAt (rowIndications m) (wrap (state + 1)) with
    | Some rowStart, Some rowEnd =>
        match fill (valueStorage m) rowStart (N.to_nat (rowEnd - rowStart))
                vzero,
              writeAt (diagonalStorage m) state vone with
        | Some values, Some diagonal =>
            Returns true
              (mkMatrix (rowCount m) (nonZeroEntryCount m) values
                 (Some diagonal) (columnIndications m) (rowIndications m)
                 (internalStatus m) (currentSize m) (lastRow m))
        | _, _ => Undefined
        end
    | _, _ => Undefined
    end.

(** The calls of the member functions that change the object, and the
    object a call leaves when it returns or throws. *)
Inductive Call :=
| CallInitialize (a : Allocation) (nonZeroEntries : N)
| CallAddNextValue (row col : N) (value : T)
| CallFinalize
| CallGetValue (row col : N)
| CallMakeStateAbsorbing (state : N).

Definition objectLeft {A} (r : Result A) : option StaticSparseMatrix :=
  match r with
  | Returns _ m | Throws _ m => Some m
  | Undefined => None
  end.

(** What the caller sees of a call: the value returned or the exception. *)
Definition outcome {A} (r : Result A) : option (Exception + A) :=
  match r with
  | Returns a _ => Some (inr a)
  | Throws e _ => Some (inl e)
  | Undefined => None
  end.

Definition after (c : Call) (m : StaticSparseMatrix)
    : option StaticSparseMatrix :=
  match c with
  | CallInitialize a nonZeroEntries => objectLeft (initialize a nonZeroEntries m)
  | CallAddNextValue row col value => objectLeft (addNextValue row col value m)
  | CallFinalize => objectLeft (finalize m)
  | CallGetValue row col => objectLeft (getValue row col m)
  | CallMakeStateAbsorbing state => objectLeft (makeStateAbsorbing state m)
  end.

(** The objects a program can have in hand: constructed with a number of
    rows, then after any calls of defined behaviour. *)
Inductive Reachable : StaticSparseMatrix → Prop :=
| reachable_create (rows : N) : Reachable (create rows)
| reachable_after (c : Call) (m m' : StaticSparseMatrix) :
    Reachable m → after c m = Some m' → Reachable m'.

(** What holds of every object a program can have in hand: it is not
    ready for reading, [rowIndications] and [diagonalStorage] have the sizes
    [prepareInternalStorage] gives them, and before [initialize] the object
    is as constructed. *)
Definition consistent (m : StaticSparseMatrix) : Prop :=
  internalStatus m ≠ ReadReady
  ∧ (∀ l, rowIndications m = Some l →
          length l = N.to_nat (wrap (rowCount m + 1)))
  ∧ (∀ l, diagonalStorage m = Some l → length l = N.to_nat (rowCount m))
  ∧ (internalStatus m = UnInitialized → m = create (rowCount m)).
End Matrix.

Arguments StaticSparseMatrix T : clear implicits.
Arguments Result T A : clear implicits.
Arguments Call T : clear implicits.
Arguments mkMatrix {T} _ _ _ _ _ _ _ _ _.
Arguments Returns {T A} _ _.
Arguments Throws {T A} _ _.
Arguments Undefined {T A}.
End Sparse.

(** Examples of sparse matrices over the rationals. *)
Module SparseExamples.
Definition allocated : Sparse.Allocation :=
  Sparse.mkAllocation true true true true.

(** Two rows, as constructed. *)
Definition twoRows : Sparse.StaticSparseMatrix Qc := Sparse.create 2.

(** Two rows, initialized for one entry off the diagonal. *)
Definition twoRowsInitialized : Sparse.StaticSparseMatrix Qc :=
  Sparse.mkMatrix 2 1 (Some [0%Qc]) (Some [0%Qc; 0%Qc]) (Some [0%N])
    (Some [0%N; 0%N; 0%N]) Sparse.Initialized 0 0.

(** The same with a one at the first position of the diagonal. *)
Definition twoRowsDiagonal : Sparse.StaticSparseMatrix Qc :=
  Sparse.mkMatrix 2 1 (Some [0%Qc]) (Some [1%Qc; 0%Qc]) (Some [0%N])
    (Some [0%N; 0%N; 0%N]) Sparse.Initialized 0 0.
End SparseExamples.

(** * Properties *)

#[export] Instance Qc_ValueOrder : ValueOrder Qc.
Proof.
  split; simpl.
  - intros a. destruct (Qclt_le_dec a a) as [Hlt|]; [|done].
    by apply Qclt_not_eq in Hlt.
  - intros a b c Hab Hbc.
    destruct (Qclt_le_dec a b) as [Hab'|]; [|done].
    destruct (Qclt_le_dec b c) as [Hbc'|]; [|done].
    destruct (Qclt_le_dec a c) as [|Hca]; [done|].
    exfalso. apply (Qcle_not_lt _ _ Hca). by eapply Qclt_trans.
  - intros a b Hab Hba.
    destruct (Qclt_le_dec a b) as [|Hba']; [done|].
    destruct (Qclt_le_dec b a) as [|Hab']; [done|].
    by apply Qcle_antisym.
Qed.

(** ** Configuration from formulas *)

Section ConfigurationProperties.
Context {V : Type}.
Implicit Types (m : Model V) (f : Formula) (o : Options).

Lemma addToRespected_fields expressions labels o :
  let o' := addToRespectedAtomicPropositions expressions labels o in
  measureDrivenInitialPartition o' = measureDrivenInitialPartition o
  ∧ phiStates o' = phiStates o ∧ psiStates o' = psiStates o
  ∧ buildQuotient o' = buildQuotient o ∧ keepRewards o' = keepRewards o
  ∧ type o' = type o ∧ bounded o' = bounded o
  ∧ optimalityType o' = optimalityType o
  ∧ respectedAtomicPropositions o'
    = Some (default ∅ (respectedAtomicPropositions o)
            ∪ (list_to_set labels ∪ list_to_set expressions)).
Proof.
  unfold addToRespectedAtomicPropositions.
  destruct (respectedAtomicPropositions o) eqn:Hr; simpl; repeat split; try done.
  by rewrite (left_id_L ∅ (∪)).
Qed.

(** What configuring from one formula yields, in one equation. *)
Lemma Options_formula_eq m f :
  Options_formula m f
  = Some
      match reachabilityOperands (unwrapOperator f) with
      | Some (l, r) =>
          mkOptions true (Some (check m l)) (Some (check m r))
            (Some (atomicPropositions f)) true (F.containsRewardOperator f)
            Strong
            (F.containsBoundedUntilFormula f || F.containsNextFormula f)
            (operatorInformation f ≫= λ oi, operatorOptimality oi None)
      | None =>
          mkOptions false None None
            (Some (atomicPropositions f)) true (F.containsRewardOperator f)
            Strong
            (F.containsBoundedUntilFormula f || F.containsNextFormula f)
            None
      end.
Proof.
  unfold Options_formula, preserveSingleFormula,
    checkAndSetMeasureDrivenInitialPartition, addToRespectedAtomicPropositions,
    atomicPropositions.
  simpl.
  destruct f as [| | | | | oi sub | name oi sub | l r | | r | | | | |]; simpl;
    try reflexivity.
  - destruct sub as [| | | | | | | l r | | r | | | | |]; simpl; try reflexivity.
    + destruct (F.isPropositional l && F.isPropositional r); reflexivity.
    + destruct (F.isPropositional r); reflexivity.
  - destruct sub as [| | | | | | | l r | | r | | | | |]; simpl; try reflexivity.
    + destruct (F.isPropositional l && F.isPropositional r); reflexivity.
    + destruct (F.isPropositional r); reflexivity.
  - destruct (F.isPropositional l && F.isPropositional r); reflexivity.
  - destruct (F.isPropositional r); reflexivity.
Qed.

Lemma preserveFormula_fields m f o :
  let o' := preserveFormula m f o in
  measureDrivenInitialPartition o' = false
  ∧ phiStates o' = None ∧ psiStates o' = None
  ∧ keepRewards o' = keepRewards o || F.containsRewardOperator f
  ∧ bounded o'
    = bounded o || (F.containsBoundedUntilFormula f || F.containsNextFormula f)
  ∧ optimalityType o' = optimalityType o
  ∧ respectedAtomicPropositions o'
    = Some (default ∅ (respectedAtomicPropositions o) ∪ atomicPropositions f).
Proof.
  unfold preserveFormula. cbv zeta.
  match goal with
  | |- context [addToRespectedAtomicPropositions ?e ?l ?x] =>
      pose proof (addToRespected_fields e l x) as Hadd
  end.
  cbv zeta in Hadd. destruct Hadd as (-> & -> & -> & _ & -> & _ & -> & -> & ->).
  done.
Qed.

(** The fields after the loop over the formulas of the [else] branch. *)
Lemma preserveFormula_fold m (formulas : list Formula) o :
  formulas ≠ [] →
  let o' := foldl (λ o f, preserveFormula m f o) o formulas in
  measureDrivenInitialPartition o' = false
  ∧ phiStates o' = None ∧ psiStates o' = None
  ∧ keepRewards o'
    = keepRewards o || existsb F.containsRewardOperator formulas
  ∧ bounded o'
    = bounded o
      || existsb (λ f, F.containsBoundedUntilFormula f || F.containsNextFormula f)
           formulas
  ∧ optimalityType o' = optimalityType o
  ∧ respectedAtomicPropositions o'
    = Some (default ∅ (respectedAtomicPropositions o)
            ∪ ⋃ (map atomicPropositions formulas)).
Proof.
  revert o. induction formulas as [|f fs IH]; [done|]. intros o _.
  destruct (preserveFormula_fields m f o)
    as (Hmd & Hphi & Hpsi & Hkeep & Hbounded & Hopt & Hresp).
  destruct fs as [|g fs].
  - simpl. rewrite Hmd, Hphi, Hpsi, Hkeep, Hbounded, Hopt, Hresp.
    rewrite !orb_false_r, (right_id_L ∅ (∪)). done.
  - specialize (IH (preserveFormula m f o) ltac:(done)).
    destruct IH as (IHmd & IHphi & IHpsi & IHkeep & IHbounded & IHopt & IHresp).
    change (foldl (λ o f, preserveFormula m f o) o (f :: g :: fs))
      with (foldl (λ o f, preserveFormula m f o) (preserveFormula m f o) (g :: fs)).
    cbv zeta. rewrite IHmd, IHphi, IHpsi, IHkeep, IHbounded, IHopt, IHresp.
    rewrite Hkeep, Hbounded, Hopt, Hresp.
    repeat split; try done.
    + by rewrite <- orb_assoc.
    + by rewrite <- orb_assoc.
    + simpl. f_equal. symmetry. apply (assoc_L (∪)).
Qed.

(** C7. Configuring from more than one formula: rewards are kept iff some
    formula contains a reward operator, bounded properties are preserved
    iff some formula contains a bounded until or a next formula, the
    respected atomic propositions are the union of the labels and
    expressions of all formulas, and the measure-driven initial partition
    is off with no phi and no psi states. *)
Theorem Options_formulas_many m (formulas : list Formula) :
  1 < length formulas →
  ∃ o, Options_formulas m formulas = Some o
    ∧ (keepRewards o = true
       ↔ ∃ f, f ∈ formulas ∧ F.containsRewardOperator f = true)
    ∧ (bounded o = true
       ↔ ∃ f, f ∈ formulas
              ∧ (F.containsBoundedUntilFormula f = true
                 ∨ F.containsNextFormula f = true))
    ∧ respectedAtomicPropositions o
      = Some (⋃ (map atomicPropositions formulas))
    ∧ measureDrivenInitialPartition o = false
    ∧ phiStates o = None ∧ psiStates o = None.
Proof.
  intros Hlen.
  destruct formulas as [|f1 [|f2 fs]]; simpl in Hlen; [lia | lia |].
  eexists. split; [reflexivity|].
  destruct (preserveFormula_fold m (f1 :: f2 :: fs) Opt.default ltac:(done))
    as (Hmd & Hphi & Hpsi & Hkeep & Hbounded & _ & Hresp).
  cbv zeta in *. rewrite bool_decide_eq_false_2 by done.
  rewrite Hmd, Hphi, Hpsi, Hkeep, Hbounded, Hresp.
  change (keepRewards Opt.default) with false.
  change (bounded Opt.default) with false.
  change (respectedAtomicPropositions Opt.default) with (@None (gset string)).
  rewrite !orb_false_l.
  repeat split; try done.
  - intros (f & Hf & Hc)%existsb_exists. exists f. by rewrite list_elem_of_In.
  - intros (f & Hf & Hc). apply existsb_exists. exists f.
    by rewrite <- list_elem_of_In.
  - intros (f & Hf & Hc)%existsb_exists. exists f.
    rewrite list_elem_of_In. by apply orb_true_iff in Hc.
  - intros (f & Hf & Hc). apply existsb_exists. exists f.
    rewrite <- list_elem_of_In. by rewrite orb_true_iff.
  - simpl. by rewrite (left_id_L ∅ (∪)).
Qed.

Lemma Options_formulas_single m f :
  Options_formulas m [f] = Options_formula m f.
Proof. reflexivity. Qed.

Lemma Options_formulas_none m :
  Options_formulas m []
  = Some (Opt.setKeepRewards true
            (Opt.setRespected (Some (getLabels m)) Opt.default)).
Proof. reflexivity. Qed.

Lemma operatorOptimality_eq oi current :
  operatorOptimality oi current
  = match opOptimalityType oi with
    | Some direction => Some direction
    | None =>
        match opBound oi with
        | Some (comparisonType, _) => Some (directionOfBound comparisonType)
        | None => current
        end
    end.
Proof.
  unfold operatorOptimality, F.hasOptimalityType.
  destruct (opOptimalityType oi) as [direction|]; simpl; [done|].
  destruct (opBound oi) as [[[] ?]|]; done.
Qed.

(** C4, as the code has it. When the formula below the leading operator is
    an until or eventually formula with propositional operands, the
    measure-driven initial partition is switched on, and the phi and psi
    states are the states that satisfy the left operand (true for an
    eventually formula) and the right operand, as the propositional model
    checker computes them. *)
Theorem measureDriven_from_formula m f (l r : Formula) :
  reachabilityOperands (unwrapOperator f) = Some (l, r) →
  ∃ o, Options_formula m f = Some o
    ∧ measureDrivenInitialPartition o = true
    ∧ phiStates o = Some (check m l)
    ∧ psiStates o = Some (check m r).
Proof.
  intros Hops. rewrite Options_formula_eq, Hops. eauto.
Qed.

(** C6, as the code has it. For a probability or reward operator above a
    reachability objective the measure-driven analysis applies to, the
    optimality type is the explicit direction of the operator if it has
    one, else Maximize for a bound with < or <= and Minimize for a bound
    with > or >=. *)
Theorem optimalityType_of_operator m f (oi : OperatorInformation) :
  operatorInformation f = Some oi →
  is_Some (reachabilityOperands (unwrapOperator f)) →
  ∃ o, Options_formula m f = Some o
    ∧ optimalityType o
      = match opOptimalityType oi with
        | Some direction => Some direction
        | None => directionOfBound ∘ fst <$> opBound oi
        end.
Proof.
  intros Hoi [[l r] Hops]. rewrite Options_formula_eq, Hops, Hoi.
  eexists. split; [reflexivity|]. simpl. rewrite operatorOptimality_eq.
  destruct (opOptimalityType oi); [done|]. by destruct (opBound oi) as [[]|].
Qed.

(** C10. After the configuration from a formula or from a list of
    formulas an optimality type is present only if the measure-driven
    initial partition is on; when the formula below the leading operator
    is no reachability objective the analysis applies to, the optimality
    type is absent, whatever the operator carries. *)
Theorem optimalityType_needs_measureDriven m :
  (∀ f o, Options_formula m f = Some o →
          is_Some (optimalityType o) →
          measureDrivenInitialPartition o = true)
  ∧ (∀ formulas o, Options_formulas m formulas = Some o →
                   is_Some (optimalityType o) →
                   measureDrivenInitialPartition o = true)
  ∧ (∀ f, reachabilityOperands (unwrapOperator f) = None →
          ∃ o, Options_formula m f = Some o
               ∧ Options_formulas m [f] = Some o
               ∧ measureDrivenInitialPartition o = false
               ∧ optimalityType o = None).
Proof.
  assert (Hsingle : ∀ f o, Options_formula m f = Some o →
            is_Some (optimalityType o) →
            measureDrivenInitialPartition o = true).
  { intros f o. rewrite Options_formula_eq. intros [= <-].
    destruct (reachabilityOperands (unwrapOperator f)) as [[l r]|]; simpl;
      [done|]. by intros [? [=]]. }
  split; [exact Hsingle|]. split.
  - intros formulas o Ho Hopt.
    destruct formulas as [|f1 [|f2 fs]].
    + rewrite Options_formulas_none in Ho. injection Ho as <-.
      by destruct Hopt as [? [=]].
    + rewrite Options_formulas_single in Ho. by eapply Hsingle.
    + exfalso.
      destruct (preserveFormula_fold m (f1 :: f2 :: fs) Opt.default
                  ltac:(done)) as (_ & _ & _ & _ & _ & Hnone & _).
      cbv zeta in Hnone.
      assert (o = foldl (λ o f, preserveFormula m f o) Opt.default
                    (f1 :: f2 :: fs)) as -> by (by injection Ho).
      rewrite Hnone in Hopt. by destruct Hopt as [? [=]].
  - intros f Hops. rewrite Options_formulas_single, Options_formula_eq, Hops.
    eauto.
Qed.
End ConfigurationProperties.

(** The configuration examples run on the three-state chain. *)

Lemma measureDriven_from_formula_witness :
  reachabilityOperands (unwrapOperator Examples.eventuallyGoal)
  = Some (BooleanLiteralFormula true, AtomicLabelFormula "goal")
  ∧ ∃ o, Options_formula Examples.chain Examples.eventuallyGoal = Some o
      ∧ measureDrivenInitialPartition o = true
      ∧ phiStates o
        = Some (check Examples.chain (BooleanLiteralFormula true))
      ∧ psiStates o
        = Some (check Examples.chain (AtomicLabelFormula "goal")).
Proof.
  split; [reflexivity|].
  apply (measureDriven_from_formula Examples.chain Examples.eventuallyGoal).
  reflexivity.
Defined.

(** C4 as the specification words it fails on the chain with the formula
    eventually goal: the phi states are all states and the psi states are
    the goal state, whereas no state has probability 0 and every state has
    probability 1 to reach the goal. *)
Lemma phiStates_psiStates_not_probability01 :
  ∃ o, Options_formula Examples.chain Examples.eventuallyGoal = Some o
    ∧ measureDrivenInitialPartition o = true
    ∧ let prob01 :=
        performProb01 (getBackwardTransitions Examples.chain) 3
          (check Examples.chain (BooleanLiteralFormula true))
          (check Examples.chain (AtomicLabelFormula "goal")) in
      phiStates o = Some [true; true; true]
      ∧ prob01.1 = [false; false; false]
      ∧ psiStates o = Some [false; false; true]
      ∧ prob01.2 = [true; true; true]
      ∧ phiStates o ≠ Some prob01.1
      ∧ psiStates o ≠ Some prob01.2.
Proof.
  eexists. split; [reflexivity|]. vm_compute. repeat split; discriminate.
Qed.

Lemma optimalityType_of_operator_witness :
  operatorInformation
    (ProbabilityOperatorFormula Examples.lessThanHalf Examples.eventuallyGoal)
  = Some Examples.lessThanHalf
  ∧ is_Some (reachabilityOperands Examples.eventuallyGoal)
  ∧ ∃ o, Options_formula Examples.chain
           (ProbabilityOperatorFormula Examples.lessThanHalf
              Examples.eventuallyGoal) = Some o
      ∧ optimalityType o = Some Maximize.
Proof.
  split; [reflexivity|]. split; [by eexists|].
  apply (optimalityType_of_operator Examples.chain
           (ProbabilityOperatorFormula Examples.lessThanHalf
              Examples.eventuallyGoal) Examples.lessThanHalf).
  - reflexivity.
  - by eexists.
Defined.

(** C6 as the specification words it fails for a bounded operator above a
    next formula: the operator has the bound < 1/2 and no explicit
    direction, and the optimality type of the configured options is
    absent, not Maximize. *)
Lemma optimalityType_absent_for_next :
  opOptimalityType Examples.lessThanHalf = None
  ∧ (fst <$> opBound Examples.lessThanHalf) = Some Less
  ∧ ∃ o, Options_formula Examples.chain
           (ProbabilityOperatorFormula Examples.lessThanHalf Examples.nextGoal)
         = Some o
      ∧ optimalityType o = None
      ∧ optimalityType o ≠ Some Maximize.
Proof.
  split; [reflexivity|]. split; [reflexivity|].
  eexists. split; [reflexivity|]. split; [reflexivity|]. discriminate.
Qed.

Lemma optimalityType_needs_measureDriven_witness :
  ∃ o, Options_formula Examples.chain
         (ProbabilityOperatorFormula Examples.lessThanHalf Examples.eventuallyGoal)
       = Some o
    ∧ is_Some (optimalityType o)
    ∧ measureDrivenInitialPartition o = true.
Proof.
  eexists. split; [reflexivity|]. split; [by eexists|].
  apply (proj1 (optimalityType_needs_measureDriven Examples.chain)
           (ProbabilityOperatorFormula Examples.lessThanHalf
              Examples.eventuallyGoal)).
  - reflexivity.
  - by eexists.
Defined.

Lemma Options_formulas_many_witness :
  1 < length [Examples.eventuallyGoal; Examples.nextGoal]
  ∧ ∃ o, Options_formulas Examples.chain
           [Examples.eventuallyGoal; Examples.nextGoal] = Some o
      ∧ (keepRewards o = true
         ↔ ∃ f, f ∈ [Examples.eventuallyGoal; Examples.nextGoal]
                ∧ F.containsRewardOperator f = true)
      ∧ (bounded o = true
         ↔ ∃ f, f ∈ [Examples.eventuallyGoal; Examples.nextGoal]
                ∧ (F.containsBoundedUntilFormula f = true
                   ∨ F.containsNextFormula f = true))
      ∧ respectedAtomicPropositions o
        = Some (⋃ (map atomicPropositions
                     [Examples.eventuallyGoal; Examples.nextGoal]))
      ∧ measureDrivenInitialPartition o = false
      ∧ phiStates o = None ∧ psiStates o = None.
Proof.
  split; [simpl; lia|].
  apply (Options_formulas_many Examples.chain
           [Examples.eventuallyGoal; Examples.nextGoal]).
  simpl. lia.
Defined.

(** ** Handles and blocks *)

Lemma getBlock_setSplitter (flag : bool) (h h' : nat) (P : Partition) :
  Part.getBlock (Part.setSplitter flag h P) h'
  = if decide (h = h') then Part.setSplitterBlock flag <$> Part.getBlock P h'
    else Part.getBlock P h'.
Proof.
  unfold Part.getBlock, Part.setSplitter. rewrite list_lookup_alter.
  destruct (decide (h = h')) as [->|]; [|done].
  by destruct (P !! h') as [[b|]|].
Qed.

Lemma getBlock_setSplitter_states (flag : bool) (h h' : nat) (P : Partition) :
  blockStates <$> Part.getBlock (Part.setSplitter flag h P) h'
  = blockStates <$> Part.getBlock P h'.
Proof.
  rewrite getBlock_setSplitter. destruct (decide (h = h')); [|done].
  by destruct (Part.getBlock P h').
Qed.

(** ** Construction, failures and the quotient *)

Section DecompositionProperties.
Context {V : Type} `{ValueType V} `{DecompositionMethods V}.
Implicit Types (m : Model V) (d : BisimulationDecomposition V) (o : Options).

Lemma construct_fields m bt o d :
  construct m bt o = inr d →
  model d = m ∧ backwardTransitions d = bt ∧ partition d = []
  ∧ blocks d = [] ∧ quotient d = None
  ∧ measureDrivenInitialPartition (options d) = measureDrivenInitialPartition o
  ∧ phiStates (options d) = phiStates o ∧ psiStates (options d) = psiStates o
  ∧ buildQuotient (options d) = buildQuotient o
  ∧ keepRewards (options d) = keepRewards o
  ∧ type (options d) = type o ∧ bounded (options d) = bounded o
  ∧ is_Some (respectedAtomicPropositions (options d)).
Proof.
  unfold construct.
  destruct (negb _); [done|]. destruct (negb _); [done|].
  destruct (negb _); [done|]. intros [= <-]. simpl.
  destruct (respectedAtomicPropositions o) eqn:Hr; simpl; rewrite ?Hr;
    repeat split; eauto.
Qed.

Lemma refinementStep_fields st st' :
  refinementStep st = Some st' →
  model st'.1 = model st.1
  ∧ backwardTransitions st'.1 = backwardTransitions st.1
  ∧ options st'.1 = options st.1 ∧ blocks st'.1 = blocks st.1
  ∧ quotient st'.1 = quotient st.1.
Proof.
  destruct st as [d v]. unfold refinementStep.
  destruct (last _); [|done].
  destruct (refinePartitionBasedOnSplitter _ _ _). by intros [= <-].
Qed.

Lemma refinementLoop_fields fuel st d' :
  refinementLoop fuel st = Some d' →
  model d' = model st.1
  ∧ backwardTransitions d' = backwardTransitions st.1
  ∧ options d' = options st.1 ∧ blocks d' = blocks st.1
  ∧ quotient d' = quotient st.1.
Proof.
  revert st. induction fuel as [|fuel IH]; intros st; simpl;
    destruct (refinementStep st) as [st'|] eqn:Hstep;
    try (by intros [= <-]); try done.
  intros Hloop. destruct (IH _ Hloop) as (-> & -> & -> & -> & ->).
  by apply refinementStep_fields.
Qed.

Lemma initializePartition_fields d d' :
  initializePartition d = Returned d' →
  model d' = model d ∧ backwardTransitions d' = backwardTransitions d
  ∧ options d' = options d ∧ blocks d' = blocks d ∧ quotient d' = quotient d.
Proof.
  unfold initializePartition, initializeMeasureDrivenPartition,
    initializeLabelBasedPartition, splitInitialPartitionBasedOnStateRewards.
  repeat case_match; try done; by intros [= <-].
Qed.

(** What a computation that returns leaves in the quotient. *)
Lemma compute_quotient fuel d d' :
  computeBisimulationDecomposition fuel d = Returned d' →
  quotient d = None →
  if buildQuotient (options d) then is_Some (quotient d')
  else quotient d' = None.
Proof.
  unfold computeBisimulationDecomposition.
  destruct (initializePartition d) as [d1| |] eqn:Hinit; [|done..].
  destruct (initializePartition_fields _ _ Hinit) as (_ & _ & Ho1 & _ & Hq1).
  destruct (performPartitionRefinement fuel d1) as [d2|] eqn:Hloop; [|done].
  apply refinementLoop_fields in Hloop.
  destruct Hloop as (_ & _ & Ho2 & _ & Hq2). simpl in Ho2, Hq2.
  intros [= <-] Hq. unfold buildQuotientStep. simpl.
  rewrite Ho2, Ho1. destruct (buildQuotient (options d)); simpl; [done|].
  by rewrite Hq2, Hq1.
Qed.

(** C2. Each of the four incompatible combinations of options makes the
    decomposition fail, whatever the fuel, so before any pass of the
    refinement loop: the constructor throws and no object exists, or the
    computation throws on the object as the constructor left it, without
    partition, blocks or quotient. *)
Theorem incompatible_options_fail (fuel : nat) m bt o :
  (type o = Weak ∧ bounded o = true)
  ∨ (keepRewards o = true ∧ 1 < length (rewardModels m))
  ∨ (keepRewards o = true
     ∧ ∃ name rm, rewardModels m = [(name, rm)]
                  ∧ hasTransitionRewards rm = true)
  ∨ (measureDrivenInitialPartition o = true
     ∧ (phiStates o = None ∨ psiStates o = None)) →
  (∃ message,
     decompose fuel m bt o = inl (IllegalFunctionCallException message))
  ∨ (∃ message d,
       decompose fuel m bt o = inr (Thrown (InvalidOptionException message) d)
       ∧ construct m bt o = inr d
       ∧ partition d = [] ∧ blocks d = [] ∧ quotient d = None).
Proof.
  intros Hbad. unfold decompose.
  destruct (construct m bt o) as [e|d] eqn:Hc.
  { left. revert Hc. unfold construct. repeat case_match; try done;
      intros [= <-]; eauto. }
  destruct Hbad as [[Hw Hb]|[[Hk Hlen]|[(Hk & name & rm & Hrm & Htr)|[Hmd Hnone]]]].
  - exfalso. revert Hc. unfold construct. rewrite Hw, Hb.
    rewrite bool_decide_eq_true_2 by done. simpl. by repeat case_match.
  - exfalso. revert Hc. unfold construct, hasRewardModel, hasUniqueRewardModel.
    rewrite Hk. destruct (rewardModels m) as [|x [|y rms]]; simpl in *;
      try lia. done.
  - exfalso. revert Hc.
    unfold construct, hasRewardModel, hasUniqueRewardModel,
      getUniqueRewardModel, hasOnlyStateRewards.
    unfold hasTransitionRewards in Htr. rewrite Hk, Hrm. simpl.
    rewrite Htr. simpl. by rewrite andb_false_r.
  - right. destruct (construct_fields _ _ _ _ Hc)
      as (_ & _ & HP & Hb & Hq & Hmd' & Hphi & Hpsi & _).
    unfold computeBisimulationDecomposition, initializePartition.
    rewrite Hmd', Hmd, Hphi, Hpsi.
    destruct Hnone as [-> | ->]; [eauto 10|].
    destruct (phiStates o); eauto 10.
Qed.

(** C3. While no quotient has been built, [getQuotient] throws: on the
    object the constructor leaves, and after a computation whose options
    do not ask for the quotient.  Once the quotient has been built,
    [getQuotient] returns it. *)
Theorem getQuotient_built_or_fails :
  (∀ d, quotient d = None →
        ∃ message, getQuotient d = inl (IllegalFunctionCallException message))
  ∧ (∀ d q, quotient d = Some q → getQuotient d = inr q)
  ∧ (∀ m bt o d, construct m bt o = inr d →
       quotient d = None
       ∧ ∀ fuel d', computeBisimulationDecomposition fuel d = Returned d' →
           if buildQuotient o
           then ∃ q, quotient d' = Some q ∧ getQuotient d' = inr q
           else quotient d' = None
                ∧ ∃ message,
                    getQuotient d' = inl (IllegalFunctionCallException message)).
Proof.
  assert (Hnone : ∀ d, quotient d = None →
            ∃ message, getQuotient d = inl (IllegalFunctionCallException message)).
  { intros d Hq. unfold getQuotient. rewrite Hq. eauto. }
  assert (Hsome : ∀ d q, quotient d = Some q → getQuotient d = inr q).
  { intros d q Hq. unfold getQuotient. by rewrite Hq. }
  split; [done|]. split; [done|]. intros m bt o d Hconstruct.
  destruct (construct_fields _ _ _ _ Hconstruct)
    as (_ & _ & _ & _ & Hq & _ & _ & _ & Hbuild & _).
  split; [done|].
  - intros fuel d' Hcompute.
    pose proof (compute_quotient _ _ _ Hcompute Hq) as Hq'.
    rewrite Hbuild in Hq'. destruct (buildQuotient o).
    + destruct Hq' as [q Hq']. eauto.
    + eauto.
Qed.

(** *** The refinement loop *)

#[local] Instance largerFirst_total P : Total (largerFirst P).
Proof. intros a b. unfold largerFirst. lia. Qed.
#[local] Instance largerFirst_trans P : Transitive (largerFirst P).
Proof. intros a b c. unfold largerFirst. lia. Qed.

(** The splitter the loop takes and the splitters it leaves. *)
Lemma sorted_last (P : Partition) (v sorted : list nat) sp :
  sorted = merge_sort (largerFirst P) v →
  last sorted = Some sp →
  v ≡ₚ removelast sorted ++ [sp]
  ∧ ∀ h, h ∈ v → Part.getNumberOfStates P sp ≤ Part.getNumberOfStates P h.
Proof.
  intros Hsorted Hlast. apply last_Some in Hlast as [rest Hrest].
  rewrite Hrest, removelast_last.
  assert (Hperm : v ≡ₚ rest ++ [sp]).
  { rewrite <- Hrest, Hsorted. symmetry. apply merge_sort_Permutation. }
  split; [done|]. intros h Hh. rewrite Hperm in Hh.
  assert (Hss : StronglySorted (largerFirst P) (rest ++ [sp])).
  { rewrite <- Hrest, Hsorted. apply StronglySorted_merge_sort; apply _. }
  apply elem_of_app in Hh as [Hh|Hh].
  - eapply (StronglySorted_app_1_elem_of (largerFirst P)) in Hss;
      [exact Hss | exact Hh | apply list_elem_of_singleton; reflexivity].
  - apply list_elem_of_singleton in Hh as ->. done.
Qed.

Lemma refinementStep_None st : refinementStep st = None ↔ st.2 = [].
Proof.
  destruct st as [d v]. unfold refinementStep. simpl.
  destruct (last _) as [sp|] eqn:Hlast.
  - destruct (refinePartitionBasedOnSplitter _ _ _). split; [done|].
    intros ->. by vm_compute in Hlast.
  - split; [|done]. intros _. apply last_None in Hlast.
    apply Permutation_nil_r. rewrite <- Hlast.
    symmetry. apply merge_sort_Permutation.
Qed.

Lemma refinementLoop_iterate fuel st d' :
  refinementLoop fuel st = Some d' →
  ∃ k, k ≤ fuel ∧ refinementIterate k st = (d', []).
Proof.
  revert st. induction fuel as [|fuel IH]; intros st; simpl;
    destruct (refinementStep st) as [st'|] eqn:Hstep; try done.
  - intros [= <-]. exists 0. split; [done|]. simpl.
    apply refinementStep_None in Hstep. destruct st; simpl in *; by subst.
  - intros Hloop. destruct (IH _ Hloop) as (k & Hk & Hiter).
    exists (S k). split; [lia|]. simpl. by rewrite Hstep.
  - intros [= <-]. exists 0. split; [lia|]. simpl.
    apply refinementStep_None in Hstep. destruct st; simpl in *; by subst.
Qed.

(** A pass of the loop on a splitter vector that is not empty. *)
Lemma refinementStep_Some d (splitterVector : list nat) :
  splitterVector ≠ [] →
  ∃ sp rest,
    splitterVector ≡ₚ rest ++ [sp]
    ∧ (∀ h, h ∈ splitterVector →
            Part.getNumberOfStates (partition d) sp
            ≤ Part.getNumberOfStates (partition d) h)
    ∧ let d1 := setPartition (Part.setSplitter false sp (partition d)) d in
      refinementStep (d, splitterVector)
      = Some (setPartition (refinePartitionBasedOnSplitter d1 sp rest).1 d1,
              (refinePartitionBasedOnSplitter d1 sp rest).2).
Proof.
  intros Hne.
  destruct (last (merge_sort (largerFirst (partition d)) splitterVector))
    as [sp|] eqn:Hlast.
  2:{ exfalso. apply Hne. apply last_None in Hlast.
      apply Permutation_nil_r. rewrite <- Hlast. symmetry.
      apply merge_sort_Permutation. }
  exists sp, (removelast (merge_sort (largerFirst (partition d)) splitterVector)).
  destruct (sorted_last (partition d) splitterVector _ sp eq_refl Hlast)
    as [Hperm Hmin].
  split; [done|]. split; [done|]. cbv zeta.
  unfold refinementStep. rewrite Hlast.
  by destruct (refinePartitionBasedOnSplitter _ _ _).
Qed.

(** An invariant of the passes holds when the loop is left. *)
Lemma refinementLoop_invariant
    (Inv : BisimulationDecomposition V * list nat → Prop) fuel st d' :
  (∀ st st', Inv st → refinementStep st = Some st' → Inv st') →
  Inv st →
  refinementLoop fuel st = Some d' →
  Inv (d', []).
Proof.
  intros Hstep Hst Hloop.
  destruct (refinementLoop_iterate _ _ _ Hloop) as (k & _ & Hk).
  rewrite <- Hk. clear Hk Hloop. revert st Hst.
  induction k as [|k IH]; intros st Hst; simpl; [done|].
  destruct (refinementStep st) as [st'|] eqn:Hs; [|done].
  apply IH. by eapply Hstep.
Qed.

Lemma refinementIterate_invariant
    (Inv : BisimulationDecomposition V * list nat → Prop) k st :
  (∀ st st', Inv st → refinementStep st = Some st' → Inv st') →
  Inv st →
  Inv (refinementIterate k st).
Proof.
  intros Hstep. revert st.
  induction k as [|k IH]; intros st Hst; simpl; [done|].
  destruct (refinementStep st) as [st'|] eqn:Hs; [|done].
  apply IH. by eapply Hstep.
Qed.

(** The loop is left within as many passes as a measure that every pass
    decreases allows. *)
Lemma refinementLoop_terminates
    (measure : BisimulationDecomposition V * list nat → nat) fuel st :
  (∀ st st', refinementStep st = Some st' → measure st' < measure st) →
  measure st ≤ fuel →
  is_Some (refinementLoop fuel st).
Proof.
  intros Hdec. revert st.
  induction fuel as [|fuel IH]; intros st Hfuel; simpl;
    destruct (refinementStep st) as [st'|] eqn:Hs; try done.
  - apply Hdec in Hs. lia.
  - apply IH. apply Hdec in Hs. lia.
Qed.

Lemma refinementLoop_0 (st : BisimulationDecomposition V * list nat) :
  refinementLoop 0 st
  = match refinementStep st with
    | None => Some st.1
    | Some _ => None
    end.
Proof. reflexivity. Qed.

Lemma refinementLoop_S (fuel : nat)
    (st : BisimulationDecomposition V * list nat) :
  refinementLoop (S fuel) st
  = match refinementStep st with
    | None => Some st.1
    | Some st' => refinementLoop fuel st'
    end.
Proof. reflexivity. Qed.

(** The loop returns as soon as the passes have emptied the splitter
    vector. *)
Lemma refinementIterate_loop fuel k st d' :
  k ≤ fuel →
  refinementIterate k st = (d', []) →
  refinementLoop fuel st = Some d'.
Proof.
  revert fuel st. induction k as [|k IH]; intros fuel st Hk Hiter.
  - simpl in Hiter. subst st.
    pose proof (proj2 (refinementStep_None (d', [])) eq_refl) as Hstep.
    destruct fuel; [rewrite refinementLoop_0|rewrite refinementLoop_S];
      by rewrite Hstep.
  - simpl in Hiter. destruct (refinementStep st) as [st'|] eqn:Hstep.
    + destruct fuel as [|fuel]; [lia|].
      rewrite refinementLoop_S, Hstep. apply IH; [lia|done].
    + subst st.
      destruct fuel; [rewrite refinementLoop_0|rewrite refinementLoop_S];
        by rewrite Hstep.
Qed.

(** C8. A pass of the loop takes from the splitter vector a splitter
    with the least number of states among the pending ones, clears its
    splitter flag, and only then refines the partition with it.  The loop
    is left exactly on the empty splitter vector: on the empty vector it
    returns at once, on any other vector it makes a pass, it returns an
    object exactly when the passes reach the empty vector within the fuel,
    and they do so whenever some measure decreases with every pass. *)
Theorem refinementStep_smallest_splitter d (splitterVector : list nat) :
  (splitterVector = [] → refinementStep (d, splitterVector) = None)
  ∧ (splitterVector ≠ [] →
     ∃ sp rest,
       splitterVector ≡ₚ rest ++ [sp]
       ∧ (∀ h, h ∈ splitterVector →
               Part.getNumberOfStates (partition d) sp
               ≤ Part.getNumberOfStates (partition d) h)
       ∧ let d1 :=
           setPartition (Part.setSplitter false sp (partition d)) d in
         (∀ b, Part.getBlock (partition d1) sp = Some b →
               splitter (data b) = false)
         ∧ refinementStep (d, splitterVector)
           = Some (setPartition
                     (refinePartitionBasedOnSplitter d1 sp rest).1 d1,
                   (refinePartitionBasedOnSplitter d1 sp rest).2))
  ∧ (∀ fuel, refinementLoop fuel (d, []) = Some d)
  ∧ (splitterVector ≠ [] →
     refinementLoop 0 (d, splitterVector) = None
     ∧ ∀ fuel, refinementLoop (S fuel) (d, splitterVector)
               = refinementStep (d, splitterVector) ≫= refinementLoop fuel)
  ∧ (∀ fuel d',
       refinementLoop fuel (d, splitterVector) = Some d'
       ↔ ∃ k, k ≤ fuel ∧ refinementIterate k (d, splitterVector) = (d', []))
  ∧ (∀ measure : BisimulationDecomposition V * list nat → nat,
       (∀ st st', refinementStep st = Some st' → measure st' < measure st) →
       ∀ fuel, measure (d, splitterVector) ≤ fuel →
         ∃ d' k, refinementLoop fuel (d, splitterVector) = Some d'
                 ∧ k ≤ fuel
                 ∧ refinementIterate k (d, splitterVector) = (d', [])).
Proof.
  split; [|split; [|split; [|split; [|split]]]].
  - intros ->. by apply refinementStep_None.
  - intros Hne.
    destruct (refinementStep_Some d splitterVector Hne)
      as (sp & rest & Hperm & Hmin & Hstep).
    exists sp, rest. split; [done|]. split; [done|]. cbv zeta.
    split; [|done].
    intros b. change (partition (setPartition ?P _)) with P.
    rewrite getBlock_setSplitter, decide_True by done.
    destruct (Part.getBlock (partition d) sp) as [b0|]; simpl; [|done].
    by intros [= <-].
  - intros fuel. by apply (refinementIterate_loop fuel 0); [lia|].
  - intros Hne.
    destruct (refinementStep_Some d splitterVector Hne)
      as (sp & rest & _ & _ & Hstep).
    cbv zeta in Hstep. split.
    + by rewrite refinementLoop_0, Hstep.
    + intros fuel. by rewrite refinementLoop_S, Hstep.
  - intros fuel d'. split.
    + apply refinementLoop_iterate.
    + intros (k & Hk & Hiter). by apply (refinementIterate_loop fuel k).
  - intros measure Hdecreases fuel Hfuel.
    destruct (refinementLoop_terminates measure fuel (d, splitterVector)
                Hdecreases Hfuel) as [d' Hloop].
    destruct (refinementLoop_iterate _ _ _ Hloop) as (k & Hk & Hiter).
    by exists d', k.
Qed.
End DecompositionProperties.

(** ** Groups, runs and splits *)

Section Groups.
Context {A K : Type} `{EqDecision K} (key : A → K).

#[local] Abbreviation uniform := (uniform key).

Lemma uniform_cons x y g : key x = key y → uniform (y :: g) → uniform (x :: y :: g).
Proof.
  intros Hxy Hu a b Ha Hb.
  assert (Hhead : ∀ c, c ∈ x :: y :: g → key c = key y).
  { intros c [->|Hc]%elem_of_cons; [done|].
    apply Hu; [done|]. apply elem_of_cons; by left. }
  by rewrite (Hhead a), (Hhead b).
Qed.

Lemma uniform_singleton x : uniform [x].
Proof. by intros a b ->%list_elem_of_singleton ->%list_elem_of_singleton. Qed.

Lemma addToGroups_Permutation x gs :
  mjoin (Part.addToGroups key x gs) ≡ₚ x :: mjoin gs.
Proof.
  induction gs as [|g gs IH]; simpl; [done|].
  destruct g as [|y g]; simpl.
  - by rewrite IH.
  - destruct (decide (key x = key y)); simpl; [done|].
    rewrite IH, <- Permutation_middle. apply perm_swap.
Qed.

Lemma addToGroups_good x gs :
  Forall (λ g, g ≠ [] ∧ uniform g) gs →
  Forall (λ g, g ≠ [] ∧ uniform g) (Part.addToGroups key x gs).
Proof.
  induction 1 as [|g gs [Hne Hu] Hgs IH]; simpl.
  - constructor; [|done]. split; [done|]. apply uniform_singleton.
  - destruct g as [|y g]; [done|].
    destruct (decide (key x = key y)) as [Hxy|].
    + constructor; [|done]. split; [done|]. by apply uniform_cons.
    + by constructor.
Qed.

Lemma groups_Permutation l : mjoin (Part.groups key l) ≡ₚ l.
Proof.
  induction l as [|x l IH]; simpl; [done|].
  unfold Part.groups in *. simpl. by rewrite addToGroups_Permutation, IH.
Qed.

Lemma groups_good l : Forall (λ g, g ≠ [] ∧ uniform g) (Part.groups key l).
Proof.
  induction l as [|x l IH]; [constructor|]. by apply addToGroups_good.
Qed.

Lemma groups_subset l g x : g ∈ Part.groups key l → x ∈ g → x ∈ l.
Proof.
  intros Hg Hx. rewrite <- (groups_Permutation l).
  apply list_elem_of_join. eauto.
Qed.

Lemma groups_uniform l g : g ∈ Part.groups key l → uniform g.
Proof.
  intros Hg. pose proof (groups_good l) as Hgood.
  rewrite Forall_forall in Hgood. by apply Hgood.
Qed.

(** A list that gives at most one group is uniform. *)
Lemma groups_single l : length (Part.groups key l) ≤ 1 → uniform l.
Proof.
  intros Hlen x y Hx Hy.
  rewrite <- (groups_Permutation l) in Hx, Hy.
  apply list_elem_of_join in Hx as (gx & Hgx & Hgsx).
  apply list_elem_of_join in Hy as (gy & Hgy & Hgsy).
  destruct (Part.groups key l) as [|g [|g' gs]] eqn:Hgroups; simpl in Hlen;
    [by apply elem_of_nil in Hgsx | | lia].
  apply list_elem_of_singleton in Hgsx as ->.
  apply list_elem_of_singleton in Hgsy as ->.
  assert (Hg : g ∈ Part.groups key l) by (rewrite Hgroups; left).
  by apply (groups_uniform l g Hg).
Qed.
End Groups.

Section Runs.
Context {A K : Type} (key : A → K) (less : A → A → bool).
Hypothesis less_connex :
  ∀ a b, less a b = false → less b a = false → key a = key b.

Lemma runs_cons x l : ∃ r rs, Part.runs less (x :: l) = (x :: r) :: rs.
Proof.
  simpl. destruct (Part.runs less l) as [|[|y r] rs]; eauto.
  destruct (less x y); eauto.
Qed.

Lemma runs_join l : mjoin (Part.runs less l) = l.
Proof.
  induction l as [|x l IH]; [done|].
  destruct l as [|y l]; [done|].
  destruct (runs_cons y l) as (r & rs & Hruns).
  change (Part.runs less (x :: y :: l))
    with (match Part.runs less (y :: l) with
          | (y :: _) as r :: rs =>
              if less x y then [x] :: r :: rs else (x :: r) :: rs
          | _ => [[x]]
          end).
  rewrite Hruns in *. destruct (less x y); simpl in *; by rewrite IH.
Qed.

(** In a sorted list every run is uniform. *)
Lemma runs_good l :
  Sorted (Part.notAfter less) l →
  Forall (λ r, r ≠ [] ∧ uniform key r) (Part.runs less l).
Proof.
  induction l as [|x l IH]; [constructor|]. intros Hsorted.
  apply Sorted_inv in Hsorted as [Hsorted Hhd].
  specialize (IH Hsorted).
  destruct l as [|y l].
  { constructor; [|done]. split; [done|]. apply uniform_singleton. }
  destruct (runs_cons y l) as (r & rs & Hruns).
  change (Part.runs less (x :: y :: l))
    with (match Part.runs less (y :: l) with
          | (y :: _) as r :: rs =>
              if less x y then [x] :: r :: rs else (x :: r) :: rs
          | _ => [[x]]
          end).
  rewrite Hruns in *. apply Forall_cons in IH as [[_ Hu] Hrs].
  destruct (less x y) eqn:Hxy.
  - constructor; [|by constructor]. split; [done|]. apply uniform_singleton.
  - constructor; [|done]. split; [done|]. apply uniform_cons; [|done].
    apply less_connex; [done|]. by apply HdRel_inv in Hhd.
Qed.
End Runs.

Section SortedRuns.
Context {K : Type} (key : nat → K) (less : nat → nat → bool).
Hypothesis less_connex :
  ∀ a b, less a b = false → less b a = false → key a = key b.
Hypothesis less_asym : ∀ a b, less a b = true → less b a = false.

#[local] Instance notAfter_total : Total (Part.notAfter less).
Proof.
  intros a b. unfold Part.notAfter.
  destruct (less b a) eqn:Hba; [right; by apply less_asym | by left].
Qed.

Lemma sortedRuns_join l : mjoin (Part.sortedRuns less l) ≡ₚ l.
Proof.
  unfold Part.sortedRuns. rewrite runs_join. apply merge_sort_Permutation.
Qed.

Lemma sortedRuns_good l :
  Forall (λ r, r ≠ [] ∧ uniform key r) (Part.sortedRuns less l).
Proof.
  apply runs_good; [done|]. apply Sorted_merge_sort. apply _.
Qed.

Lemma sortedRuns_uniform l r : r ∈ Part.sortedRuns less l → uniform key r.
Proof.
  intros Hr. pose proof (sortedRuns_good l) as Hgood.
  rewrite Forall_forall in Hgood. by apply Hgood.
Qed.

Lemma sortedRuns_subset l r x : r ∈ Part.sortedRuns less l → x ∈ r → x ∈ l.
Proof.
  intros Hr Hx. rewrite <- (sortedRuns_join l).
  apply list_elem_of_join. eauto.
Qed.

Lemma sortedRuns_single l :
  length (Part.sortedRuns less l) ≤ 1 → uniform key l.
Proof.
  intros Hlen x y Hx Hy.
  rewrite <- (sortedRuns_join l) in Hx, Hy.
  apply list_elem_of_join in Hx as (rx & Hrx & Hrsx).
  apply list_elem_of_join in Hy as (ry & Hry & Hrsy).
  destruct (Part.sortedRuns less l) as [|r [|r' rs]] eqn:Hruns;
    simpl in Hlen; [by apply elem_of_nil in Hrsx | | lia].
  apply list_elem_of_singleton in Hrsx as ->.
  apply list_elem_of_singleton in Hrsy as ->.
  assert (Hr : r ∈ Part.sortedRuns less l) by (rewrite Hruns; left).
  by apply (sortedRuns_uniform l r Hr).
Qed.
End SortedRuns.

Section SplitBlocks.
Context (parts : nat → list nat → list (list nat)) (f : BlockData → BlockData).

Lemma splitBlocks_length P :
  length (Part.splitBlocks parts f P)
  = length P + length (mjoin (imap (Part.pieces parts f) P)).
Proof. unfold Part.splitBlocks. by rewrite length_app, length_imap. Qed.

(** Where a block of the partition after a split comes from: it is a
    block that was not cut, under its handle, or a part of a block that
    was cut, under a new handle. *)
Lemma splitBlocks_origin P h b' :
  Part.getBlock (Part.splitBlocks parts f P) h = Some b' →
  (Part.getBlock P h = Some b'
   ∧ length (parts h (blockStates b')) ≤ 1)
  ∨ (length P ≤ h
     ∧ ∃ h0 b, Part.getBlock P h0 = Some b
               ∧ 1 < length (parts h0 (blockStates b))
               ∧ blockStates b' ∈ parts h0 (blockStates b)
               ∧ data b' = f (data b)).
Proof.
  unfold Part.getBlock, Part.splitBlocks. intros Hget.
  destruct (decide (h < length P)) as [Hlt|Hge].
  - left. rewrite lookup_app_l in Hget by (by rewrite length_imap).
    rewrite list_lookup_imap in Hget.
    destruct (P !! h) as [[b|]|]; simpl in *; try done.
    case_bool_decide; [done|]. injection Hget as <-. split; [done|lia].
  - right. split; [lia|].
    rewrite lookup_app_r in Hget by (rewrite length_imap; lia).
    destruct (mjoin _ !! _) as [ob|] eqn:Hlookup; [|done].
    simpl in Hget. subst ob.
    apply list_elem_of_lookup_2 in Hlookup.
    apply list_elem_of_join in Hlookup as (ps & Hb' & Hps).
    apply elem_of_lookup_imap in Hps as (h0 & ob & -> & Hob).
    exists h0. destruct ob as [b|]; simpl in Hb'; [|by apply elem_of_nil in Hb'].
    exists b. rewrite Hob. simpl. case_bool_decide; [|by apply elem_of_nil in Hb'].
    apply list_elem_of_fmap in Hb' as (l & [= ->] & Hl). done.
Qed.

Lemma pieces_weight (ps : list (list nat)) (bd : BlockData) :
  Forall (λ g, g ≠ []) ps →
  sum_list_with blockWeight (map (λ l, Some (mkBlock l bd)) ps)
  + 2 * length ps
  = 2 * length (mjoin ps).
Proof.
  induction 1 as [|g ps Hg Hps IH]; simpl; [done|].
  rewrite length_app. destruct g; [done|]. simpl in *. lia.
Qed.

Hypothesis parts_nonempty : ∀ h l, Forall (λ g, g ≠ []) (parts h l).
Hypothesis parts_length : ∀ h l, length (mjoin (parts h l)) = length l.

Lemma split_block_weight h ob :
  blockWeight (Part.retire parts h ob)
  + sum_list_with blockWeight (Part.pieces parts f h ob)
  + length (Part.pieces parts f h ob)
  ≤ blockWeight ob.
Proof.
  destruct ob as [b|]; simpl; [|lia].
  case_bool_decide as Hcut; simpl; [|lia].
  pose proof (pieces_weight (parts h (blockStates b)) (f (data b))
                (parts_nonempty _ _)) as Hw.
  rewrite parts_length in Hw. rewrite length_map. lia.
Qed.
End SplitBlocks.

Lemma splitBlocks_weight (parts : nat → list nat → list (list nat))
    (f : BlockData → BlockData) (P : Partition) :
  (∀ h l, Forall (λ g, g ≠ []) (parts h l)) →
  (∀ h l, length (mjoin (parts h l)) = length l) →
  sum_list_with blockWeight (Part.splitBlocks parts f P)
  + (length (Part.splitBlocks parts f P) - length P)
  ≤ sum_list_with blockWeight P.
Proof.
  intros Hne Hlen. rewrite splitBlocks_length. unfold Part.splitBlocks.
  rewrite sum_list_with_app.
  assert (Hparts :
    sum_list_with blockWeight (imap (Part.retire parts) P)
    + sum_list_with blockWeight (mjoin (imap (Part.pieces parts f) P))
    + length (mjoin (imap (Part.pieces parts f) P))
    ≤ sum_list_with blockWeight P); [|lia].
  clear -Hne Hlen. revert parts Hne Hlen.
  induction P as [|ob P IH]; intros parts Hne Hlen; [simpl; lia|].
  rewrite !imap_cons. simpl. rewrite sum_list_with_app, length_app.
  pose proof (split_block_weight parts f Hne Hlen 0 ob) as Hob.
  specialize (IH (parts ∘ S) (λ h l, Hne (S h) l) (λ h l, Hlen (S h) l)).
  assert (Hr : imap (Part.retire parts ∘ S) P = imap (Part.retire (parts ∘ S)) P)
    by (by apply imap_ext).
  assert (Hp : imap (Part.pieces parts f ∘ S) P
               = imap (Part.pieces (parts ∘ S) f) P) by (by apply imap_ext).
  rewrite Hr, Hp. lia.
Qed.

(** ** The refinement of deterministic models *)

Lemma getBlock_fmap (g : Block → Block) (P : Partition) (h : nat) :
  Part.getBlock (map (fmap g) P) h = g <$> Part.getBlock P h.
Proof.
  unfold Part.getBlock. change (map (fmap g) P) with (fmap (M:=list) (fmap (M:=option) g) P).
  rewrite list_lookup_fmap. by destruct (P !! h) as [[b|]|].
Qed.

Lemma getBlock_lt (P : Partition) (h : nat) (b : Block) :
  Part.getBlock P h = Some b → h < length P.
Proof.
  unfold Part.getBlock. intros Hget. apply lookup_lt_is_Some.
  destruct (P !! h); [by eexists | done].
Qed.

Lemma elem_of_handles (P : Partition) (h : nat) :
  h ∈ Part.handles P ↔ is_Some (Part.getBlock P h).
Proof.
  unfold Part.handles. rewrite list_elem_of_filter, elem_of_seq.
  split; [by intros [? _]|]. intros Hsome. split; [done|].
  destruct Hsome as [b Hb]. apply getBlock_lt in Hb. lia.
Qed.

Lemma elem_of_getBlocks (P : Partition) (b : Block) :
  b ∈ Part.getBlocks P ↔ ∃ h, Part.getBlock P h = Some b.
Proof.
  unfold Part.getBlocks, Part.getBlock. rewrite list_elem_of_omap. split.
  - intros (ob & Hob & Hid). simpl in Hid. subst ob.
    apply list_elem_of_lookup in Hob as [h Hh].
    exists h. by rewrite Hh.
  - intros [h Hh]. destruct (P !! h) as [ob|] eqn:Hlookup; [|done].
    exists ob. split; [|done]. by eapply list_elem_of_lookup_2.
Qed.

Lemma setSplitter_weight (flag : bool) (h : nat) (P : Partition) :
  sum_list_with blockWeight (Part.setSplitter flag h P)
  = sum_list_with blockWeight P.
Proof.
  unfold Part.setSplitter. revert h.
  induction P as [|ob P IH]; intros [|h]; simpl; try done.
  - by destruct ob.
  - f_equal. apply IH.
Qed.

Section DeterministicRefinement.
Context {V : Type} `{ValueType V}.
Implicit Types (d : BisimulationDecomposition V) (P : Partition).

Lemma aggregatedProbability_ext (bt : SparseMatrix V) s (B B' : list nat) :
  (∀ t, t ∈ B ↔ t ∈ B') →
  aggregatedProbability bt s B = aggregatedProbability bt s B'.
Proof.
  intros Hext. unfold aggregatedProbability.
  induction (seq 0 (length bt)) as [|t ts IH]; simpl; [done|].
  rewrite IH. by rewrite (bool_decide_ext _ _ (Hext t)).
Qed.

Lemma sameProbabilityInto_ext (bt : SparseMatrix V) (B B' C C' : list nat) :
  (∀ s, s ∈ B' → s ∈ B) → (∀ t, t ∈ C ↔ t ∈ C') →
  sameProbabilityInto bt B C → sameProbabilityInto bt B' C'.
Proof.
  intros HB HC Hsame s t Hs Ht.
  rewrite <- !(aggregatedProbability_ext bt _ C C' HC). apply Hsame; auto.
Qed.

Lemma cut_nonempty d sp h l : Forall (λ g, g ≠ []) (cut d sp h l).
Proof.
  unfold cut. eapply Forall_impl; [apply groups_good|]. by intros g [? _].
Qed.

Lemma cut_length d sp h l : length (mjoin (cut d sp h l)) = length l.
Proof. unfold cut. by rewrite groups_Permutation. Qed.

Lemma cut_subset d sp h l g x : g ∈ cut d sp h l → x ∈ g → x ∈ l.
Proof. unfold cut. apply groups_subset. Qed.

Lemma refineDeterministic_eq d sp rest :
  refineDeterministic d sp rest
  = let P' := Part.splitBlocks (cut d sp) (Part.setSplitterData true)
                (partition d) in
    (P', filter (λ h, is_Some (Part.getBlock P' h)) rest
         ++ seq (length (partition d)) (length P' - length (partition d))).
Proof. reflexivity. Qed.

(** A pass of the loop of the deterministic decomposition. *)
Lemma deterministicStep d v d' v' :
  refinementStep (d, v) = Some (d', v') →
  ∃ sp rest P1 P',
    v ≡ₚ rest ++ [sp]
    ∧ P1 = Part.setSplitter false sp (partition d)
    ∧ P' = Part.splitBlocks (cut (setPartition P1 d) sp)
             (Part.setSplitterData true) P1
    ∧ d' = setPartition P' (setPartition P1 d)
    ∧ v' = filter (λ h, is_Some (Part.getBlock P' h)) rest
           ++ seq (length P1) (length P' - length P1).
Proof.
  intros Hstep.
  assert (Hne : v ≠ []).
  { intros ->. by rewrite (proj2 (refinementStep_None (d, []))) in Hstep. }
  destruct (refinementStep_Some d v Hne) as (sp & rest & Hperm & _ & Heq).
  cbv zeta in Heq. rewrite Heq in Hstep. injection Hstep as <- <-.
  exists sp, rest. eexists _, _. split; [done|]. split; [done|].
  split; [done|]. split; reflexivity.
Qed.

Lemma deterministicStep_measure (st st' : BisimulationDecomposition V * list nat) :
  refinementStep st = Some st' →
  refinementMeasure st' < refinementMeasure st.
Proof.
  destruct st as [d v], st' as [d' v']. intros Hstep.
  destruct (deterministicStep _ _ _ _ Hstep)
    as (sp & rest & P1 & P' & Hperm & HP1 & HP' & -> & ->).
  unfold refinementMeasure. simpl.
  pose proof (splitBlocks_weight (cut (setPartition P1 d) sp)
                (Part.setSplitterData true) P1
                (cut_nonempty _ _) (cut_length _ _)) as Hw.
  rewrite <- HP' in Hw.
  assert (HwP1 : sum_list_with blockWeight P1
                 = sum_list_with blockWeight (partition d))
    by (rewrite HP1; apply setSplitter_weight).
  rewrite length_app, length_seq.
  pose proof (length_filter (λ h, is_Some (Part.getBlock P' h)) rest).
  apply Permutation_length in Hperm. rewrite length_app in Hperm.
  simpl in Hperm. lia.
Qed.

(** The blocks after a pass: what they are made from. *)
Lemma deterministicStep_origin d v d' v' h' b' :
  refinementStep (d, v) = Some (d', v') →
  Part.getBlock (partition d') h' = Some b' →
  ∃ h b, Part.getBlock (partition d) h = Some b
         ∧ ∀ s, s ∈ blockStates b' → s ∈ blockStates b.
Proof.
  intros Hstep Hget.
  destruct (deterministicStep _ _ _ _ Hstep)
    as (sp & rest & P1 & P' & Hperm & HP1 & HP' & -> & ->).
  simpl in Hget. rewrite HP' in Hget.
  assert (Hold : ∀ h b1, Part.getBlock P1 h = Some b1 →
            ∃ b, Part.getBlock (partition d) h = Some b
                 ∧ blockStates b = blockStates b1).
  { intros h b1 Hb1. pose proof (getBlock_setSplitter_states false sp h (partition d)) as Hs.
    rewrite <- HP1, Hb1 in Hs.
    destruct (Part.getBlock (partition d) h) as [b|]; [|done].
    exists b. split; [done|]. by injection Hs. }
  apply splitBlocks_origin in Hget
    as [[Hget _]|(_ & h0 & b0 & Hget & _ & Hin & _)].
  - destruct (Hold _ _ Hget) as (b & Hb & Hstates). exists h', b.
    split; [done|]. by rewrite Hstates.
  - destruct (Hold _ _ Hget) as (b & Hb & Hstates). exists h0, b.
    split; [done|]. intros s Hs. rewrite Hstates.
    by eapply cut_subset.
Qed.
End DeterministicRefinement.

Lemma getBlock_setSplitter_inv (flag : bool) (sp h : nat) (P : Partition)
    (b1 : Block) :
  Part.getBlock (Part.setSplitter flag sp P) h = Some b1 →
  ∃ b, Part.getBlock P h = Some b ∧ blockStates b = blockStates b1.
Proof.
  intros Hb1. pose proof (getBlock_setSplitter_states flag sp h P) as Hs.
  rewrite Hb1 in Hs. destruct (Part.getBlock P h) as [b|]; [|done].
  exists b. split; [done|]. by injection Hs.
Qed.

Section Stability.
Context {V : Type} `{ValueType V}.
Implicit Types (d : BisimulationDecomposition V) (P : Partition).

Lemma stableInvariant_start d :
  type (options d) = Strong → stableInvariant (refinementStart d).
Proof.
  intros Hstrong. split; [done|]. simpl. intros c C HC Hc. exfalso.
  apply Hc. apply elem_of_handles. rewrite getBlock_fmap in HC.
  destruct (Part.getBlock (partition d) c); [by eexists | done].
Qed.

Lemma stableInvariant_step (st st' : BisimulationDecomposition V * list nat) :
  stableInvariant st → refinementStep st = Some st' → stableInvariant st'.
Proof.
  destruct st as [d v], st' as [d' v']. intros [Hstrong Hinv] Hstep.
  simpl in Hstrong, Hinv.
  pose proof (λ h' b', deterministicStep_origin _ _ _ _ h' b' Hstep)
    as Horigin.
  destruct (deterministicStep _ _ _ _ Hstep)
    as (sp & rest & P1 & P' & Hperm & HP1 & HP' & -> & ->).
  split; [done|]. simpl in *. intros c C HC Hc b B HB.
  pose proof (getBlock_lt _ _ _ HC) as Hlt.
  pose proof HC as HC'. rewrite HP' in HC'.
  apply splitBlocks_origin in HC' as [[HC1 _]|[Hge _]].
  2:{ exfalso. apply Hc. apply elem_of_app. right. apply elem_of_seq. lia. }
  assert (Hrest : c ∉ rest).
  { intros Hin. apply Hc. apply elem_of_app. left.
    apply list_elem_of_filter. split; [by eexists | done]. }
  destruct (decide (c = sp)) as [->|Hne].
  - assert (Hcut : ∀ h l,
              cut (setPartition P1 d) sp h l
              = Part.groups
                  (λ s, aggregatedProbability (backwardTransitions d) s
                          (blockStates C)) l).
    { intros h l. unfold cut. simpl. by rewrite Hstrong, HC1. }
    rewrite HP' in HB.
    apply splitBlocks_origin in HB
      as [[_ Hsingle]|(_ & h0 & b0 & _ & _ & Hin & _)].
    + rewrite Hcut in Hsingle. apply groups_single in Hsingle.
      intros s t Hs Ht. by apply Hsingle.
    + rewrite Hcut in Hin. apply groups_uniform in Hin.
      intros s t Hs Ht. by apply Hin.
  - assert (Hcv : c ∉ v).
    { rewrite Hperm. intros [Hin|Hin]%elem_of_app; [done|].
      by apply list_elem_of_singleton in Hin. }
    rewrite HP1 in HC1.
    destruct (getBlock_setSplitter_inv _ _ _ _ _ HC1) as (C0 & HC0 & HCs).
    destruct (Horigin _ _ HB) as (h0 & b0 & Hb0 & Hsub).
    eapply sameProbabilityInto_ext;
      [exact Hsub | | exact (Hinv c C0 HC0 Hcv h0 b0 Hb0)].
    intros t. by rewrite HCs.
Qed.

(** The refinement of the deterministic decomposition returns, and it
    leaves the model, the backward transitions and the options as they
    are. *)
Lemma deterministic_refinement_returns fuel d :
  refinementMeasure (refinementStart d) ≤ fuel →
  ∃ d', performPartitionRefinement fuel d = Some d'
        ∧ model d' = model d
        ∧ backwardTransitions d' = backwardTransitions d
        ∧ options d' = options d.
Proof.
  intros Hfuel. unfold performPartitionRefinement.
  destruct (refinementLoop_terminates refinementMeasure fuel
              (refinementStart d) deterministicStep_measure Hfuel)
    as [d' Hd'].
  exists d'. split; [done|].
  by destruct (refinementLoop_fields _ _ _ Hd') as (-> & -> & -> & _).
Qed.

(** The blocks of the decomposition are the blocks of the partition the
    refinement leaves, each with its states in increasing order. *)
Lemma extracted_blocks d (B : list nat) :
  B ∈ blocks (buildQuotientStep (extractDecompositionBlocks d)) →
  ∃ h b, Part.getBlock (partition d) h = Some b
         ∧ ∀ s, s ∈ B ↔ s ∈ blockStates b.
Proof.
  unfold buildQuotientStep.
  assert (Hblocks :
    blocks (if buildQuotient (options (extractDecompositionBlocks d))
            then mkDecomposition (model (extractDecompositionBlocks d))
                   (backwardTransitions (extractDecompositionBlocks d))
                   (options (extractDecompositionBlocks d))
                   (partition (extractDecompositionBlocks d))
                   (blocks (extractDecompositionBlocks d))
                   (Some (buildQuotientModel (extractDecompositionBlocks d)))
            else extractDecompositionBlocks d)
    = blocks (extractDecompositionBlocks d)) by (by case_match).
  rewrite Hblocks. simpl.
  change (map blockStates ?l) with (blockStates <$> l).
  intros (b & -> & Hb)%list_elem_of_fmap.
  apply elem_of_getBlocks in Hb as [h Hh]. rewrite getBlock_fmap in Hh.
  destruct (Part.getBlock (partition d) h) as [b0|] eqn:Hb0; [|done].
  injection Hh as <-. exists h, b0. split; [done|]. intros s. simpl.
  by rewrite merge_sort_Permutation.
Qed.

(** C1, as it holds. For strong bisimulation the computation of the
    decomposition returns within the fuel the measure of the initial
    partition gives, and in the decomposition it returns any two states
    of a block have the same aggregated probability into every block. *)
Theorem strong_decomposition_stable d d1 (fuel : nat) :
  type (options d) = Strong →
  initializePartition d = Returned d1 →
  refinementMeasure (refinementStart d1) ≤ fuel →
  ∃ d', computeBisimulationDecomposition fuel d = Returned d'
    ∧ ∀ B C, B ∈ blocks d' → C ∈ blocks d' →
        ∀ s t, s ∈ B → t ∈ B →
          aggregatedProbability (backwardTransitions d) s C
          = aggregatedProbability (backwardTransitions d) t C.
Proof.
  intros Hstrong Hinit Hfuel. unfold computeBisimulationDecomposition.
  rewrite Hinit.
  destruct (initializePartition_fields _ _ Hinit) as (_ & Hbt1 & Ho1 & _).
  destruct (deterministic_refinement_returns fuel d1 Hfuel)
    as (d2 & Hloop & _ & Hbt2 & Ho2).
  rewrite Hloop. eexists. split; [reflexivity|].
  assert (Hstable : stableInvariant (d2, [])).
  { apply (refinementLoop_invariant stableInvariant fuel (refinementStart d1));
      [apply stableInvariant_step | | done].
    apply stableInvariant_start. by rewrite Ho1. }
  destruct Hstable as [_ Hstable]. simpl in Hstable.
  intros B C HB HC.
  apply extracted_blocks in HB as (hb & b & Hb & HBs).
  apply extracted_blocks in HC as (hc & c & Hc & HCs).
  rewrite Hbt2, Hbt1 in Hstable.
  assert (Hsame : sameProbabilityInto (backwardTransitions d) B C).
  { eapply sameProbabilityInto_ext;
      [ | | exact (Hstable hc c Hc ltac:(apply not_elem_of_nil) hb b Hb)].
    - intros s. by rewrite HBs.
    - intros t. by rewrite HCs. }
  exact Hsame.
Qed.
End Stability.

(** ** Rewards *)

Section RewardPreservation.
Context {V : Type} `{ValueType V} `{!ValueOrder V}.
Implicit Types (d : BisimulationDecomposition V) (P : Partition).

Lemma vlt_asym (a b : V) : vlt a b = true → vlt b a = false.
Proof.
  intros Hab. destruct (vlt b a) eqn:Hba; [|done].
  by rewrite <- (vlt_irrefl a), (vlt_trans a b a Hab Hba).
Qed.

(** The split by state rewards leaves blocks of one state reward. *)
Lemma split_rewardUniform (m : Model V) P :
  rewardUniform m
    (Part.split (λ a b, vlt (stateReward m a) (stateReward m b)) P).
Proof.
  intros h b Hb.
  assert (Hconnex : ∀ a b : nat,
            vlt (stateReward m a) (stateReward m b) = false →
            vlt (stateReward m b) (stateReward m a) = false →
            stateReward m a = stateReward m b)
    by (intros ??; apply vlt_connex).
  assert (Hasym : ∀ a b : nat,
            vlt (stateReward m a) (stateReward m b) = true →
            vlt (stateReward m b) (stateReward m a) = false)
    by (intros ??; apply vlt_asym).
  apply splitBlocks_origin in Hb
    as [[_ Hsingle]|(_ & h0 & b0 & _ & _ & Hin & _)].
  - exact (sortedRuns_single (stateReward m) _ Hconnex Hasym _ Hsingle).
  - exact (sortedRuns_uniform (stateReward m) _ Hconnex Hasym _ _ Hin).
Qed.

Lemma initializePartition_rewardUniform `{DecompositionMethods V} d d1 :
  keepRewards (options d) = true →
  hasRewardModel (model d) = true →
  initializePartition d = Returned d1 →
  rewardUniform (model d) (partition d1).
Proof.
  intros Hkeep Hhas.
  unfold initializePartition, initializeMeasureDrivenPartition,
    initializeLabelBasedPartition, splitInitialPartitionBasedOnStateRewards.
  simpl. rewrite Hkeep, Hhas. simpl.
  repeat case_match; try done; intros [= <-]; apply split_rewardUniform.
Qed.

Lemma rewardUniform_step (m : Model V)
    (st st' : BisimulationDecomposition V * list nat) :
  rewardUniform m (partition st.1) →
  refinementStep st = Some st' →
  rewardUniform m (partition st'.1).
Proof.
  destruct st as [d v], st' as [d' v']. simpl. intros Hu Hstep h' b' Hb' s t Hs Ht.
  destruct (deterministicStep_origin _ _ _ _ _ _ Hstep Hb')
    as (h & b & Hb & Hsub).
  apply (Hu h b Hb); by apply Hsub.
Qed.

Lemma rewardUniform_start (m : Model V) d :
  rewardUniform m (partition d) →
  rewardUniform m (partition (refinementStart d).1).
Proof.
  intros Hu h b. simpl. rewrite getBlock_fmap.
  destruct (Part.getBlock (partition d) h) as [b0|] eqn:Hb0; [|done].
  intros [= <-]. exact (Hu h b0 Hb0).
Qed.

(** C9. When rewards are kept and the model has a reward model, the
    states of a block have one state reward: in the initial partition,
    after every pass of the refinement loop, and in the blocks of the
    decomposition, which the computation returns. *)
Theorem blocks_reward_uniform d d1 :
  keepRewards (options d) = true →
  hasRewardModel (model d) = true →
  initializePartition d = Returned d1 →
  rewardUniform (model d) (partition d1)
  ∧ (∀ k, rewardUniform (model d)
            (partition (refinementIterate k (refinementStart d1)).1))
  ∧ ∀ fuel, refinementMeasure (refinementStart d1) ≤ fuel →
      ∃ d', computeBisimulationDecomposition fuel d = Returned d'
        ∧ ∀ B, B ∈ blocks d' →
            ∀ s t, s ∈ B → t ∈ B →
              stateReward (model d) s = stateReward (model d) t.
Proof.
  intros Hkeep Hhas Hinit.
  pose proof (initializePartition_rewardUniform d d1 Hkeep Hhas Hinit) as Hu.
  split; [done|]. split.
  - intros k.
    apply (refinementIterate_invariant
             (λ st, rewardUniform (model d) (partition st.1)));
      [apply rewardUniform_step | by apply rewardUniform_start].
  - intros fuel Hfuel. unfold computeBisimulationDecomposition.
    rewrite Hinit.
    destruct (deterministic_refinement_returns fuel d1 Hfuel)
      as (d2 & Hloop & _). rewrite Hloop.
    eexists. split; [reflexivity|].
    assert (Hu2 : rewardUniform (model d) (partition d2)).
    { apply (refinementLoop_invariant
               (λ st, rewardUniform (model d) (partition st.1))
               fuel (refinementStart d1));
        [apply rewardUniform_step | by apply rewardUniform_start | done]. }
    intros B HB s t Hs Ht.
    apply extracted_blocks in HB as (h & b & Hb & HBs).
    apply (Hu2 h b Hb); by apply HBs.
Qed.
End RewardPreservation.

(** ** The measure-driven initial partition *)

Lemma BV_lookup_tabulate (g : nat → bool) (n s : nat) :
  s < n → BV.get (map g (seq 0 n)) s = g s.
Proof.
  intros Hs. unfold BV.get.
  change (map g (seq 0 n)) with (g <$> seq 0 n).
  by rewrite list_lookup_fmap, lookup_seq_lt.
Qed.

Lemma elem_of_indices (n : nat) (bv : BitVector) (s : nat) :
  s ∈ BV.indices n bv ↔ s < n ∧ BV.get bv s = true.
Proof.
  unfold BV.indices. rewrite list_elem_of_filter, elem_of_seq.
  split; [intros [? ?]; split; [lia | done] | intros [? ?]; split; [done | lia]].
Qed.

Lemma elem_of_indices_others (n : nat) (a b : BitVector) (s : nat) :
  s ∈ BV.indices n (BV.complement n (BV.union n a b))
  ↔ s < n ∧ BV.get a s = false ∧ BV.get b s = false.
Proof.
  rewrite elem_of_indices. unfold BV.complement, BV.union. split.
  - intros [Hs Hget]. rewrite !BV_lookup_tabulate in Hget by done.
    apply negb_true_iff, orb_false_iff in Hget. done.
  - intros (Hs & Ha & Hb). split; [done|].
    rewrite !BV_lookup_tabulate by done. by rewrite Ha, Hb.
Qed.

Lemma BV_begin_from_spec (bv : BitVector) (i s : nat) :
  BV.begin_from i bv = Some s →
  i ≤ s ∧ BV.get bv (s - i) = true
  ∧ ∀ s', s' < s - i → BV.get bv s' = false.
Proof.
  revert i. induction bv as [|b bv IH]; intros i; simpl; [done|].
  destruct b.
  - intros [= <-]. rewrite Nat.sub_diag. split; [done|]. split; [done|]. lia.
  - intros Hb. destruct (IH _ Hb) as (Hle & Hget & Hbefore).
    split; [lia|]. replace (s - i) with (S (s - S i)) by lia.
    split; [done|]. intros [|s'] Hs'; [done|]. apply Hbefore. lia.
Qed.

(** The representative is the first psi state. *)
Lemma BV_begin_first (bv : BitVector) (s : nat) :
  BV.begin bv = Some s →
  BV.get bv s = true ∧ ∀ s', s' < s → BV.get bv s' = false.
Proof.
  intros Hb. apply BV_begin_from_spec in Hb as (_ & Hget & Hbefore).
  rewrite Nat.sub_0_r in Hget, Hbefore. done.
Qed.

Lemma BV_begin_nonempty (bv : BitVector) :
  BV.empty bv = false → is_Some (BV.begin bv).
Proof.
  unfold BV.begin. generalize 0.
  induction bv as [|b bv IH]; intros i; simpl; [done|].
  destruct b; simpl; [by eexists | apply IH].
Qed.

Lemma getBlocks_app (P Q : Partition) :
  Part.getBlocks (P ++ Q) = Part.getBlocks P ++ Part.getBlocks Q.
Proof. unfold Part.getBlocks. apply omap_app. Qed.

Lemma getBlocks_blockIfNonEmpty (l : list nat) (bd : BlockData) :
  Part.getBlocks (Part.blockIfNonEmpty l bd)
  = if decide (l = []) then [] else [mkBlock l bd].
Proof. by destruct l. Qed.

(** The blocks of the three-way partition: one for each of the three sets
    of states that is not empty, the block of the second set carrying the
    representative. *)
Lemma threeWay_blocks (n : nat) (first second : BitVector)
    (representative : option nat) :
  Part.getBlocks (Part.threeWay n first second representative)
  = filter (λ b, blockStates b ≠ [])
      [mkBlock (BV.indices n first) Part.emptyData;
       mkBlock (BV.indices n second)
         (mkBlockData false (bool_decide (is_Some representative))
            representative);
       mkBlock (BV.indices n (BV.complement n (BV.union n first second)))
         Part.emptyData].
Proof.
  unfold Part.threeWay. rewrite !getBlocks_app, !getBlocks_blockIfNonEmpty.
  rewrite !filter_cons, filter_nil. simpl.
  repeat (destruct (decide (_ = [])); destruct (decide (_ ≠ [])); try done).
Qed.

Section MeasureDriven.
Context {V : Type} `{ValueType V} `{DecompositionMethods V}.

(** C5, as the code has it. The measure-driven initial partition is the
    three-way partition seeded from the probability-0 states, from the
    psi states if bounded properties or rewards are preserved and from
    the probability-1 states otherwise, and from the remaining states;
    the representative is the first psi state if there is one; the split
    by state rewards follows if rewards are kept and the model has a
    reward model. *)
Theorem measureDriven_initial_partition (d : BisimulationDecomposition V)
    (phi psi : BitVector) :
  measureDrivenInitialPartition (options d) = true →
  phiStates (options d) = Some phi →
  psiStates (options d) = Some psi →
  let n := numberOfStates (model d) in
  let first := (getStatesWithProbability01 d).1 in
  let second :=
    if bounded (options d) || keepRewards (options d) then psi
    else (getStatesWithProbability01 d).2 in
  let representative := if BV.empty psi then None else BV.begin psi in
  let seeded := Part.threeWay n first second representative in
  (∃ d1, initializePartition d = Returned d1
         ∧ partition d1
           = if keepRewards (options d) && hasRewardModel (model d)
             then Part.split
                    (λ a b, vlt (stateReward (model d) a)
                              (stateReward (model d) b)) seeded
             else seeded)
  ∧ Part.getBlocks seeded
    = filter (λ b, blockStates b ≠ [])
        [mkBlock (BV.indices n first) Part.emptyData;
         mkBlock (BV.indices n second)
           (mkBlockData false (bool_decide (is_Some representative))
              representative);
         mkBlock (BV.indices n (BV.complement n (BV.union n first second)))
           Part.emptyData]
  ∧ (∀ s, (s ∈ BV.indices n first ↔ s < n ∧ BV.get first s = true)
          ∧ (s ∈ BV.indices n second ↔ s < n ∧ BV.get second s = true)
          ∧ (s ∈ BV.indices n (BV.complement n (BV.union n first second))
             ↔ s < n ∧ BV.get first s = false ∧ BV.get second s = false))
  ∧ (BV.empty psi = false →
     ∃ s, representative = Some s ∧ BV.get psi s = true
          ∧ ∀ s', s' < s → BV.get psi s' = false).
Proof.
  intros Hmd Hphi Hpsi n first second representative seeded.
  split; [|split; [|split]].
  - unfold initializePartition. rewrite Hmd, Hphi, Hpsi.
    eexists. split; [reflexivity|].
    unfold initializeMeasureDrivenPartition,
      splitInitialPartitionBasedOnStateRewards. simpl.
    subst seeded representative second first n.
    destruct (BV.empty psi); simpl;
      by destruct (keepRewards (options d) && hasRewardModel (model d)).
  - apply threeWay_blocks.
  - intros s. split; [apply elem_of_indices|].
    split; [apply elem_of_indices | apply elem_of_indices_others].
  - intros Hne. subst representative. rewrite Hne.
    destruct (BV_begin_nonempty psi Hne) as [s Hs]. exists s.
    split; [done|]. by apply BV_begin_first.
Qed.
End MeasureDriven.

(** ** Backward transitions *)

Section Transposition.
Context {V : Type} `{ValueType V}.

Lemma rowValue_app_other (l1 l2 : list (nat * V)) (c : nat) :
(∀ e, e ∈ l1 → e.1 ≠ c) →
rowValue (l1 ++ l2) c = rowValue l2 c.
Proof.
unfold rowValue. induction l1 as [|e l1 IH]; intros Hne; simpl; [done|].
rewrite bool_decide_eq_false_2 by (apply Hne; left).
apply IH. intros e' He'. apply Hne. by right.
Qed.

Lemma rowValue_other (l : list (nat * V)) (c : nat) :
(∀ e, e ∈ l → e.1 ≠ c) → rowValue l c = vzero.
Proof.
intros Hne. rewrite <- (app_nil_r l). by rewrite rowValue_app_other.
Qed.

(** The entries of row [s] that lead to [t], moved to row [t] under the
  column [s], add up to what they add up to in row [s]. *)
Lemma rowValue_moved (row rest : list (nat * V)) (s t : nat) :
rowValue rest s = vzero →
rowValue
  (omap (λ e : nat * V, if bool_decide (e.1 = t) then Some (s, e.2) else None)
     row ++ rest) s
= rowValue row t.
Proof.
intros Hrest. induction row as [|e row IH]; [done|].
change (rowValue (e :: row) t)
  with (if bool_decide (e.1 = t) then vadd e.2 (rowValue row t)
        else rowValue row t).
simpl. destruct (bool_decide (e.1 = t)); [|done].
change (rowValue (((s, e.2) :: ?l) ++ rest) s)
  with (if bool_decide (s = s) then vadd e.2 (rowValue (l ++ rest) s)
        else rowValue (l ++ rest) s).
rewrite bool_decide_eq_true_2 by done. f_equal. exact IH.
Qed.

Lemma transposed_row (M : SparseMatrix V) (t k s : nat) :
rowValue
  (mjoin (imap (λ i row,
                  omap (λ e : nat * V,
                          if bool_decide (e.1 = t) then Some (k + i, e.2)
                          else None) row) M)) s
= if decide (k ≤ s) then rowValue (default [] (M !! (s - k))) t else vzero.
Proof.
revert k. induction M as [|row M IH]; intros k.
{ simpl. by destruct (decide (k ≤ s)). }
rewrite imap_cons. simpl.
assert (Hshift :
  imap ((λ i row0, omap (λ e : nat * V,
                           if bool_decide (e.1 = t) then Some (k + i, e.2)
                           else None) row0) ∘ S) M
  = imap (λ i row0, omap (λ e : nat * V,
                            if bool_decide (e.1 = t) then Some (S k + i, e.2)
                            else None) row0) M).
{ apply imap_ext. intros i row0 _. simpl.
  by replace (k + S i) with (S (k + i)) by lia. }
rewrite Hshift, Nat.add_0_r. specialize (IH (S k)).
destruct (decide (k = s)) as [->|Hne].
- rewrite rowValue_moved.
  + rewrite decide_True by lia. by rewrite Nat.sub_diag.
  + rewrite IH. by rewrite decide_False by lia.
- rewrite rowValue_app_other.
  + rewrite IH. destruct (decide (k ≤ s)).
    * rewrite decide_True by lia.
      by replace (s - k) with (S (s - S k)) by lia.
    * by rewrite decide_False by lia.
  + intros e (e0 & _ & He0)%list_elem_of_omap.
    destruct (bool_decide (e0.1 = t)); [|done]. by injection He0 as <-.
Qed.

(** The probability the decomposition reads off the backward transitions
  of a model is the one its transition matrix gives. *)
Lemma transitionProbability_backward (m : Model V) (s t : nat) :
t < numberOfStates m →
transitionProbability (getBackwardTransitions m) s t
= rowValue (default [] (transitionMatrix m !! s)) t.
Proof.
intros Ht. unfold transitionProbability, getBackwardTransitions.
change (map ?f (seq 0 ?n)) with (f <$> seq 0 n).
rewrite list_lookup_fmap, lookup_seq_lt by done. simpl.
pose proof (transposed_row (transitionMatrix m) t 0 s) as Hrow.
rewrite decide_True, Nat.sub_0_r in Hrow by lia. exact Hrow.
Qed.

(** Hence the aggregated probability from [s] into [B] is the sum, over the
  states [t] of [B], of the entries of row [s] of the transition matrix
  that lead to [t]. *)
Lemma aggregatedProbability_backward (m : Model V) (s : nat) (B : list nat) :
aggregatedProbability (getBackwardTransitions m) s B
= foldr (λ t acc,
           if bool_decide (t ∈ B)
           then vadd (rowValue (default [] (transitionMatrix m !! s)) t) acc
           else acc)
    vzero (seq 0 (numberOfStates m)).
Proof.
unfold aggregatedProbability.
assert (Hlen : length (getBackwardTransitions m) = numberOfStates m)
  by (unfold getBackwardTransitions; by rewrite length_map, length_seq).
rewrite Hlen.
assert (Hall : ∀ t, t ∈ seq 0 (numberOfStates m) → t < numberOfStates m)
  by (intros t Ht%elem_of_seq; lia).
induction (seq 0 (numberOfStates m)) as [|t ts IH]; simpl; [done|].
rewrite IH by (intros t' Ht'; apply Hall; by right).
by rewrite transitionProbability_backward by (apply Hall; left).
Qed.
End Transposition.

(** ** The examples *)

Lemma Qc_neq (a b : Qc) : this a ≠ this b → a ≠ b.
Proof. intros Hne ->. by apply Hne. Qed.

(** C1 as the specification words it fails for weak bisimulation: on the
    chain, with the label goal respected, states 0 and 1 end in one block,
    and state 0 moves into the block of state 2 with probability 1/2, state
    1 with probability 1. *)
Lemma weak_decomposition_not_stable :
  ∃ d', decompose 10 Examples.chain (getBackwardTransitions Examples.chain)
          (Examples.respectGoal Weak) = inr (Returned d')
    ∧ blocks d' = [[2]; [0; 1]]
    ∧ aggregatedProbability (getBackwardTransitions Examples.chain) 0 [2]
      ≠ aggregatedProbability (getBackwardTransitions Examples.chain) 1 [2].
Proof.
  eexists. split; [vm_compute; reflexivity|]. split; [reflexivity|].
  apply Qc_neq. vm_compute. discriminate.
Qed.

Lemma strong_decomposition_stable_witness :
  type (options (Examples.chainDecomposition Strong)) = Strong
  ∧ initializePartition (Examples.chainDecomposition Strong)
    = Returned (Examples.initialized (Examples.chainDecomposition Strong))
  ∧ refinementMeasure
      (refinementStart
         (Examples.initialized (Examples.chainDecomposition Strong))) ≤ 10
  ∧ ∃ d', computeBisimulationDecomposition 10
            (Examples.chainDecomposition Strong) = Returned d'
      ∧ ∀ B C, B ∈ blocks d' → C ∈ blocks d' →
          ∀ s t, s ∈ B → t ∈ B →
            aggregatedProbability
              (backwardTransitions (Examples.chainDecomposition Strong)) s C
            = aggregatedProbability
                (backwardTransitions (Examples.chainDecomposition Strong)) t C.
Proof.
  assert (Hinit : initializePartition (Examples.chainDecomposition Strong)
                  = Returned (Examples.initialized
                                (Examples.chainDecomposition Strong)))
    by (vm_compute; reflexivity).
  assert (Hfuel : refinementMeasure
                    (refinementStart
                       (Examples.initialized
                          (Examples.chainDecomposition Strong))) ≤ 10)
    by (vm_compute; lia).
  split; [reflexivity|]. split; [exact Hinit|]. split; [exact Hfuel|].
  exact (strong_decomposition_stable (Examples.chainDecomposition Strong) _ 10
           eq_refl Hinit Hfuel).
Defined.

Lemma incompatible_options_fail_witness :
  ((type (mkOptions false None None None true false Weak true None) = Weak
    ∧ bounded (mkOptions false None None None true false Weak true None) = true)
   ∨ (keepRewards (mkOptions false None None None true false Weak true None)
      = true ∧ 1 < length (rewardModels Examples.chain))
   ∨ (keepRewards (mkOptions false None None None true false Weak true None)
      = true
      ∧ ∃ name rm, rewardModels Examples.chain = [(name, rm)]
                   ∧ hasTransitionRewards rm = true)
   ∨ (measureDrivenInitialPartition
        (mkOptions false None None None true false Weak true None) = true
      ∧ (phiStates (mkOptions false None None None true false Weak true None)
         = None
         ∨ psiStates (mkOptions false None None None true false Weak true None)
           = None)))
  ∧ ((∃ message,
        decompose 0 Examples.chain (getBackwardTransitions Examples.chain)
          (mkOptions false None None None true false Weak true None)
        = inl (IllegalFunctionCallException message))
     ∨ (∃ message d,
          decompose 0 Examples.chain (getBackwardTransitions Examples.chain)
            (mkOptions false None None None true false Weak true None)
          = inr (Thrown (InvalidOptionException message) d)
          ∧ construct Examples.chain (getBackwardTransitions Examples.chain)
              (mkOptions false None None None true false Weak true None)
            = inr d
          ∧ partition d = [] ∧ blocks d = [] ∧ quotient d = None)).
Proof.
  assert (Hbad : type (mkOptions false None None None true false Weak true None)
                 = Weak
                 ∧ bounded (mkOptions false None None None true false Weak true
                              None) = true) by (split; reflexivity).
  split; [by left|].
  apply (incompatible_options_fail 0 Examples.chain
           (getBackwardTransitions Examples.chain)
           (mkOptions false None None None true false Weak true None)).
  by left.
Defined.

Lemma getQuotient_built_or_fails_witness :
  quotient (Examples.chainDecomposition Strong) = None
  ∧ ∃ message,
      getQuotient (Examples.chainDecomposition Strong)
      = inl (IllegalFunctionCallException message).
Proof.
  split; [reflexivity|].
  apply (proj1 (@getQuotient_built_or_fails Qc _ Deterministic)
           (Examples.chainDecomposition Strong)).
  reflexivity.
Defined.

Lemma refinementStep_smallest_splitter_witness :
  [1; 2] ≠ []
  ∧ ∃ sp rest,
      [1; 2] ≡ₚ rest ++ [sp]
      ∧ (∀ h, h ∈ [1; 2] →
              Part.getNumberOfStates
                (partition (Examples.initialized
                              (Examples.chainDecomposition Strong))) sp
              ≤ Part.getNumberOfStates
                  (partition (Examples.initialized
                                (Examples.chainDecomposition Strong))) h)
      ∧ let d1 :=
          setPartition
            (Part.setSplitter false sp
               (partition (Examples.initialized
                             (Examples.chainDecomposition Strong))))
            (Examples.initialized (Examples.chainDecomposition Strong)) in
        (∀ b, Part.getBlock (partition d1) sp = Some b →
              splitter (data b) = false)
        ∧ refinementStep
            (Examples.initialized (Examples.chainDecomposition Strong), [1; 2])
          = Some (setPartition
                    (refinePartitionBasedOnSplitter d1 sp rest).1 d1,
                  (refinePartitionBasedOnSplitter d1 sp rest).2).
Proof.
  split; [done|].
  apply (proj1 (proj2 (refinementStep_smallest_splitter
                         (Examples.initialized
                            (Examples.chainDecomposition Strong)) [1; 2]))).
  done.
Defined.

Lemma measureDriven_initial_partition_witness :
  measureDrivenInitialPartition (options Examples.branchDecomposition) = true
  ∧ phiStates (options Examples.branchDecomposition)
    = Some [true; false; false]
  ∧ psiStates (options Examples.branchDecomposition)
    = Some [false; true; false]
  ∧ ∃ d1, initializePartition Examples.branchDecomposition = Returned d1
      ∧ partition d1
        = Part.threeWay 3
            (getStatesWithProbability01 Examples.branchDecomposition).1
            (getStatesWithProbability01 Examples.branchDecomposition).2
            (Some 1).
Proof.
  split; [reflexivity|]. split; [reflexivity|]. split; [reflexivity|].
  exact (proj1 (measureDriven_initial_partition Examples.branchDecomposition
                  [true; false; false] [false; true; false]
                  eq_refl eq_refl eq_refl)).
Defined.

(** C5 as the specification words it fails on the branch model with the
    formula a until goal: the phi states are state 0 and the psi states
    are state 1, and seeding the three-way partition from them separates
    the three states, whereas the initial partition has the block of state
    2, which has probability 0, and the block of the states 0 and 1, which
    have probability 1. *)
Lemma initial_partition_not_seeded_from_phi :
  Options_formula Examples.branch Examples.aUntilGoal
  = Some Examples.untilOptions
  ∧ construct Examples.branch (getBackwardTransitions Examples.branch)
      Examples.untilOptions
    = inr Examples.branchDecomposition
  ∧ ∃ d1, initializePartition Examples.branchDecomposition = Returned d1
      ∧ (blockStates <$> Part.getBlocks (partition d1)) = [[2]; [0; 1]]
      ∧ (blockStates
           <$> Part.getBlocks
                 (Part.threeWay 3 [true; false; false] [false; true; false]
                    (Some 1)))
        = [[0]; [1]; [2]]
      ∧ partition d1
        ≠ Part.threeWay 3 [true; false; false] [false; true; false] (Some 1).
Proof.
  split; [reflexivity|]. split; [vm_compute; reflexivity|].
  eexists. split; [vm_compute; reflexivity|].
  split; [reflexivity|]. split; [reflexivity|]. discriminate.
Qed.

Lemma blocks_reward_uniform_witness :
  keepRewards (options Examples.rewardDecomposition) = true
  ∧ hasRewardModel (model Examples.rewardDecomposition) = true
  ∧ initializePartition Examples.rewardDecomposition
    = Returned (Examples.initialized Examples.rewardDecomposition)
  ∧ rewardUniform (model Examples.rewardDecomposition)
      (partition (Examples.initialized Examples.rewardDecomposition))
  ∧ (∀ k, rewardUniform (model Examples.rewardDecomposition)
            (partition
               (refinementIterate k
                  (refinementStart
                     (Examples.initialized Examples.rewardDecomposition))).1))
  ∧ ∀ fuel,
      refinementMeasure
        (refinementStart (Examples.initialized Examples.rewardDecomposition))
      ≤ fuel →
      ∃ d', computeBisimulationDecomposition fuel Examples.rewardDecomposition
            = Returned d'
        ∧ ∀ B, B ∈ blocks d' →
            ∀ s t, s ∈ B → t ∈ B →
              stateReward (model Examples.rewardDecomposition) s
              = stateReward (model Examples.rewardDecomposition) t.
Proof.
  assert (Hinit : initializePartition Examples.rewardDecomposition
                  = Returned (Examples.initialized Examples.rewardDecomposition))
    by (vm_compute; reflexivity).
  split; [reflexivity|]. split; [reflexivity|]. split; [exact Hinit|].
  exact (blocks_reward_uniform Examples.rewardDecomposition _
           eq_refl eq_refl Hinit).
Defined.

(** ** The die model

    The scenarios of the functional test on the die model: thirteen states
    and twenty transitions; the quotient keeps all of them when every label
    is respected and has five states and eight transitions when only the
    label one is respected, for strong and for weak bisimulation and for
    the options configured from the formula eventually one. *)

Lemma die_all_labels :
  Examples.quotientSize
    (decompose 100 Examples.die (getBackwardTransitions Examples.die)
       (mkOptions false None None None true false Strong false None))
  = Some (13, 20).
Proof. vm_compute. reflexivity. Qed.

Lemma die_label_one (bisimulationType : BisimulationType) :
  Examples.quotientSize
    (decompose 100 Examples.die (getBackwardTransitions Examples.die)
       (mkOptions false None None (Some {[ "one"%string ]}) true false
          bisimulationType false None))
  = Some (5, 8).
Proof. destruct bisimulationType; vm_compute; reflexivity. Qed.

Lemma die_eventually_one :
  ∃ o, Options_formula Examples.die
         (EventuallyFormula (AtomicLabelFormula "one")) = Some o
    ∧ Examples.quotientSize
        (decompose 100 Examples.die (getBackwardTransitions Examples.die) o)
      = Some (5, 8).
Proof. eexists. split; [reflexivity|]. vm_compute. reflexivity. Qed.

(** * Further properties of the configuration *)

Section ConfigurationExtras.
Context {V : Type}.
Implicit Types (m : Model V) (f : Formula) (o : Options).

Lemma preserveFormula_eq m f o :
  preserveFormula m f o
  = mkOptions false None None
      (Some (default ∅ (respectedAtomicPropositions o) ∪ atomicPropositions f))
      (buildQuotient o) (keepRewards o || F.containsRewardOperator f) (type o)
      (bounded o
       || (F.containsBoundedUntilFormula f || F.containsNextFormula f))
      (optimalityType o).
Proof.
  unfold preserveFormula, addToRespectedAtomicPropositions, atomicPropositions.
  simpl. destruct (respectedAtomicPropositions o); simpl; [done|].
  by rewrite (left_id_L ∅ (∪)).
Qed.

(** X1. The formula constructors of [Options] always complete: on the fresh
    options they start from, the null [rightSubformula] is never handed to
    the checker.  [checkAndSetMeasureDrivenInitialPartition] does hand it
    to the checker exactly on options on which the measure-driven initial
    partition is already on, with a formula that is neither an until nor
    an eventually formula below its leading operator. *)
Theorem Options_constructors_complete m :
  (∀ f, is_Some (Options_formula m f))
  ∧ (∀ formulas, is_Some (Options_formulas m formulas))
  ∧ (∀ f o, checkAndSetMeasureDrivenInitialPartition m f o = None
            ↔ measureDrivenInitialPartition o = true
              ∧ isUntilOrEventually f = false).
Proof.
  split; [|split].
  - intros f. rewrite Options_formula_eq. by eexists.
  - intros [|f [|g fs]]; [by eexists | | by eexists].
    rewrite Options_formulas_single, Options_formula_eq. by eexists.
  - intros f o.
    unfold checkAndSetMeasureDrivenInitialPartition, isUntilOrEventually.
    destruct f as [| | | | | oi sub | name oi sub | l r | | r | | | | |];
      simpl.
    6,7: destruct sub as [| | | | | | | l r | | r | | | | |]; simpl.
    all: repeat match goal with
           | |- context [F.isPropositional ?x && F.isPropositional ?y] =>
               destruct (F.isPropositional x && F.isPropositional y)
           | |- context [if F.isPropositional ?x then _ else _] =>
               destruct (F.isPropositional x)
           end.
    all: destruct (measureDrivenInitialPartition o); simpl;
      split; try tauto; try discriminate; intros [? ?]; discriminate.
Qed.

(** X2. What the configuration from one formula gives: rewards are kept iff
    the formula contains a reward operator, bounded properties are
    preserved iff it contains a bounded until or a next formula, the
    respected atomic propositions are exactly the labels and expressions
    of the formula, the quotient is built, the bisimulation is strong, and
    the measure-driven initial partition is on iff the formula below the
    leading operator is an until or eventually formula with propositional
    operands. *)
Theorem Options_formula_fields m f :
  ∃ o, Options_formula m f = Some o
    ∧ keepRewards o = F.containsRewardOperator f
    ∧ bounded o
      = (F.containsBoundedUntilFormula f || F.containsNextFormula f)
    ∧ respectedAtomicPropositions o = Some (atomicPropositions f)
    ∧ buildQuotient o = true
    ∧ type o = Strong
    ∧ (measureDrivenInitialPartition o = true
       ↔ is_Some (reachabilityOperands (unwrapOperator f)))
    ∧ (measureDrivenInitialPartition o = false
       → phiStates o = None ∧ psiStates o = None).
Proof.
  rewrite Options_formula_eq. eexists. split; [reflexivity|].
  destruct (reachabilityOperands (unwrapOperator f)) as [[l r]|]; simpl;
    repeat split; try reflexivity; try discriminate; try (by eexists);
    intros [? ?]; discriminate.
Qed.

(** X3. Preserving a formula accumulates: rewards that are kept stay kept,
    bounded properties that are preserved stay preserved, the respected
    atomic propositions only grow; the measure-driven initial partition is
    switched off, and the optimality type, the bisimulation type and the
    choice to build the quotient are left as they are. *)
Theorem preserveFormula_accumulates m f o :
  let o' := preserveFormula m f o in
  (keepRewards o = true → keepRewards o' = true)
  ∧ (bounded o = true → bounded o' = true)
  ∧ (∃ r', respectedAtomicPropositions o' = Some r'
           ∧ default ∅ (respectedAtomicPropositions o) ⊆ r'
           ∧ atomicPropositions f ⊆ r')
  ∧ measureDrivenInitialPartition o' = false
  ∧ phiStates o' = None ∧ psiStates o' = None
  ∧ optimalityType o' = optimalityType o
  ∧ type o' = type o
  ∧ buildQuotient o' = buildQuotient o.
Proof.
  cbv zeta. rewrite preserveFormula_eq. simpl.
  repeat split; try reflexivity.
  - intros ->. reflexivity.
  - intros ->. reflexivity.
  - eexists. split; [reflexivity|].
    split; [apply union_subseteq_l | apply union_subseteq_r].
Qed.

Lemma preserveFormula_comm m f g o :
  preserveFormula m f (preserveFormula m g o)
  = preserveFormula m g (preserveFormula m f o).
Proof.
  rewrite !preserveFormula_eq. simpl. f_equal.
  - f_equal. rewrite <- !(assoc_L (∪)). f_equal. apply (comm_L (∪)).
  - by destruct (keepRewards o), (F.containsRewardOperator f),
      (F.containsRewardOperator g).
  - by destruct (bounded o), (F.containsBoundedUntilFormula f),
      (F.containsNextFormula f), (F.containsBoundedUntilFormula g),
      (F.containsNextFormula g).
Qed.

Lemma preserveFormula_idemp m f o :
  preserveFormula m f (preserveFormula m f o) = preserveFormula m f o.
Proof.
  rewrite !preserveFormula_eq. simpl. f_equal.
  - f_equal. rewrite <- (assoc_L (∪)). f_equal. apply (idemp_L (∪)).
  - by destruct (keepRewards o), (F.containsRewardOperator f).
  - by destruct (bounded o), (F.containsBoundedUntilFormula f),
      (F.containsNextFormula f).
Qed.

Lemma preserveFormula_foldl_Permutation m (fs fs' : list Formula) o :
  fs ≡ₚ fs' →
  foldl (λ o f, preserveFormula m f o) o fs
  = foldl (λ o f, preserveFormula m f o) o fs'.
Proof.
  intros Hperm. revert o.
  induction Hperm as [|f fs fs' _ IH|f g fs|fs1 fs2 fs3 _ IH1 _ IH2];
    intros o; simpl.
  - done.
  - apply IH.
  - by rewrite preserveFormula_comm.
  - by rewrite IH1.
Qed.

(** X4. The options configured from a list of formulas do not depend on the
    order of the formulas. *)
Theorem Options_formulas_Permutation m (formulas formulas' : list Formula) :
  formulas ≡ₚ formulas' →
  Options_formulas m formulas = Options_formulas m formulas'.
Proof.
  intros Hperm.
  destruct formulas as [|f [|g fs]].
  - by apply Permutation_nil_l in Hperm as ->.
  - by apply Permutation_singleton_l in Hperm as ->.
  - pose proof (Permutation_length Hperm) as Hlen.
    destruct formulas' as [|f' [|g' fs']]; simpl in Hlen; try lia.
    unfold Options_formulas. f_equal.
    change (bool_decide (f :: g :: fs = [])) with false.
    change (bool_decide (f' :: g' :: fs' = [])) with false.
    by apply preserveFormula_foldl_Permutation.
Qed.

(** X5. Naming a formula twice in the list changes nothing: the options
    configured from a list of at least two formulas are those configured
    from the list with one of its formulas repeated in front. *)
Theorem Options_formulas_repeated m f g (formulas : list Formula) :
  Options_formulas m (f :: f :: g :: formulas)
  = Options_formulas m (f :: g :: formulas).
Proof.
  unfold Options_formulas. f_equal.
  change (bool_decide (f :: f :: g :: formulas = [])) with false.
  change (bool_decide (f :: g :: formulas = [])) with false.
  simpl. by rewrite preserveFormula_idemp.
Qed.
End ConfigurationExtras.

Lemma Options_formulas_Permutation_witness :
  [Examples.eventuallyGoal; Examples.nextGoal]
  ≡ₚ [Examples.nextGoal; Examples.eventuallyGoal]
  ∧ Options_formulas Examples.chain
      [Examples.eventuallyGoal; Examples.nextGoal]
    = Options_formulas Examples.chain
        [Examples.nextGoal; Examples.eventuallyGoal].
Proof.
  assert (Hperm : [Examples.eventuallyGoal; Examples.nextGoal]
                  ≡ₚ [Examples.nextGoal; Examples.eventuallyGoal])
    by apply perm_swap.
  split; [exact Hperm|].
  exact (Options_formulas_Permutation Examples.chain _ _ Hperm).
Defined.

(** * Further properties of the partition *)

Lemma liveStates_cons (ob : option Block) (P : Partition) :
  liveStates (ob :: P) = from_option blockStates [] ob ++ liveStates P.
Proof. unfold liveStates, Part.getBlocks. by destruct ob. Qed.

Lemma liveStates_app (P Q : Partition) :
  liveStates (P ++ Q) = liveStates P ++ liveStates Q.
Proof.
  unfold liveStates, Part.getBlocks. by rewrite omap_app, fmap_app, join_app.
Qed.

Lemma liveStates_pieces (ps : list (list nat)) (bd : BlockData) :
  liveStates (map (λ l, Some (mkBlock l bd)) ps) = mjoin ps.
Proof.
  induction ps as [|l ps IH]; [done|].
  simpl. rewrite liveStates_cons. simpl. by rewrite IH.
Qed.

Lemma liveStates_fmap (g : Block → Block) (P : Partition) :
  (∀ b, blockStates (g b) = blockStates b) →
  liveStates (map (fmap g) P) = liveStates P.
Proof.
  intros Hg. induction P as [|ob P IH]; [done|].
  simpl. rewrite !liveStates_cons, IH. by destruct ob; simpl; [rewrite Hg|].
Qed.

Lemma liveStates_setSplitter (flag : bool) (h : nat) (P : Partition) :
  liveStates (Part.setSplitter flag h P) = liveStates P.
Proof.
  unfold Part.setSplitter. revert h.
  induction P as [|ob P IH]; intros [|h]; simpl; try done.
  - rewrite !liveStates_cons. by destruct ob.
  - rewrite !liveStates_cons. f_equal. apply IH.
Qed.

Lemma elem_of_liveStates (P : Partition) (s : nat) :
  s ∈ liveStates P ↔ ∃ h b, Part.getBlock P h = Some b ∧ s ∈ blockStates b.
Proof.
  unfold liveStates. rewrite list_elem_of_join. split.
  - intros (l & Hs & Hl). apply list_elem_of_fmap in Hl as (b & -> & Hb).
    apply elem_of_getBlocks in Hb as [h Hh]. by exists h, b.
  - intros (h & b & Hh & Hs). exists (blockStates b). split; [done|].
    apply list_elem_of_fmap. exists b. split; [done|].
    apply elem_of_getBlocks. by exists h.
Qed.

Lemma splitBlocks_liveStates (parts : nat → list nat → list (list nat))
    (f : BlockData → BlockData) (P : Partition) :
  (∀ h l, mjoin (parts h l) ≡ₚ l) →
  liveStates (Part.splitBlocks parts f P) ≡ₚ liveStates P.
Proof.
  intros Hperm. unfold Part.splitBlocks. rewrite liveStates_app.
  revert parts Hperm.
  induction P as [|ob P IH]; intros parts Hperm; [done|].
  rewrite !imap_cons. simpl. rewrite !liveStates_cons, liveStates_app.
  specialize (IH (parts ∘ S) (λ h l, Hperm (S h) l)).
  assert (Hr : imap (Part.retire parts ∘ S) P = imap (Part.retire (parts ∘ S)) P)
    by (by apply imap_ext).
  assert (Hp : imap (Part.pieces parts f ∘ S) P
               = imap (Part.pieces (parts ∘ S) f) P) by (by apply imap_ext).
  rewrite Hr, Hp.
  assert (Hob : from_option blockStates [] (Part.retire parts 0 ob)
                ++ liveStates (Part.pieces parts f 0 ob)
                ≡ₚ from_option blockStates [] ob).
  { destruct ob as [b|]; simpl; [|done]. case_bool_decide; simpl.
    - rewrite liveStates_pieces. apply Hperm.
    - by rewrite app_nil_r. }
  rewrite <- Hob, <- IH.
  rewrite <- !(assoc_L (++)). apply Permutation_app_head.
  rewrite !(assoc_L (++)). apply Permutation_app_tail, Permutation_app_comm.
Qed.

Lemma splitBlocks_refines (parts : nat → list nat → list (list nat))
    (f : BlockData → BlockData) (P : Partition) :
  (∀ h l g x, g ∈ parts h l → x ∈ g → x ∈ l) →
  refines (Part.splitBlocks parts f P) P.
Proof.
  intros Hsub h' b' Hget.
  apply splitBlocks_origin in Hget
    as [[Hget _]|(_ & h0 & b & Hget & _ & Hin & _)].
  - by exists h', b'.
  - exists h0, b. split; [done|]. intros s Hs. by eapply Hsub.
Qed.

Lemma splitBlocks_nonEmpty (parts : nat → list nat → list (list nat))
    (f : BlockData → BlockData) (P : Partition) :
  (∀ h l, Forall (λ g, g ≠ []) (parts h l)) →
  blocksNonEmpty P → blocksNonEmpty (Part.splitBlocks parts f P).
Proof.
  intros Hne HP h' b' Hget.
  apply splitBlocks_origin in Hget
    as [[Hget _]|(_ & h0 & b & Hget & _ & Hin & _)].
  - by eapply HP.
  - specialize (Hne h0 (blockStates b)). rewrite Forall_forall in Hne.
    by apply Hne.
Qed.

Lemma splitBlocks_blocksUniform {K} (key : nat → K)
    (parts : nat → list nat → list (list nat)) (f : BlockData → BlockData)
    (P : Partition) :
  (∀ h l g, g ∈ parts h l → uniform key g) →
  (∀ h l, length (parts h l) ≤ 1 → uniform key l) →
  blocksUniform key (Part.splitBlocks parts f P).
Proof.
  intros Hnew Hkept h' b' Hget.
  apply splitBlocks_origin in Hget
    as [[Hget Hlen]|(_ & h0 & b & Hget & _ & Hin & _)].
  - by eapply Hkept.
  - by eapply Hnew.
Qed.

Lemma refines_refl (P : Partition) : refines P P.
Proof. intros h b Hb. by exists h, b. Qed.

Lemma refines_trans (P1 P2 P3 : Partition) :
  refines P1 P2 → refines P2 P3 → refines P1 P3.
Proof.
  intros H12 H23 h1 b1 Hb1.
  destruct (H12 _ _ Hb1) as (h2 & b2 & Hb2 & Hsub2).
  destruct (H23 _ _ Hb2) as (h3 & b3 & Hb3 & Hsub3).
  exists h3, b3. split; [done|]. intros s Hs. by apply Hsub3, Hsub2.
Qed.

Lemma refines_blocksUniform {K} (key : nat → K) (P' P : Partition) :
  refines P' P → blocksUniform key P → blocksUniform key P'.
Proof.
  intros Href HP h' b' Hb' x y Hx Hy.
  destruct (Href _ _ Hb') as (h & b & Hb & Hsub).
  apply (HP _ _ Hb); by apply Hsub.
Qed.

Lemma refines_fmap (g : Block → Block) (P : Partition) :
  (∀ b, blockStates (g b) = blockStates b) →
  refines (map (fmap g) P) P.
Proof.
  intros Hg h b' Hget. rewrite getBlock_fmap in Hget.
  destruct (Part.getBlock P h) as [b|] eqn:Hb; [|done].
  simpl in Hget. injection Hget as <-. exists h, b. split; [done|].
  intros s. by rewrite Hg.
Qed.

Lemma refines_setSplitter (flag : bool) (sp : nat) (P : Partition) :
  refines (Part.setSplitter flag sp P) P.
Proof.
  intros h b1 Hget.
  apply getBlock_setSplitter_inv in Hget as (b & Hb & Hstates).
  exists h, b. split; [done|]. intros s. by rewrite Hstates.
Qed.

Lemma blocksNonEmpty_fmap (g : Block → Block) (P : Partition) :
  (∀ b, blockStates (g b) = blockStates b) →
  blocksNonEmpty P → blocksNonEmpty (map (fmap g) P).
Proof.
  intros Hg HP h b' Hget. rewrite getBlock_fmap in Hget.
  destruct (Part.getBlock P h) as [b|] eqn:Hb; [|done].
  simpl in Hget. injection Hget as <-. rewrite Hg. by eapply HP.
Qed.

Lemma blocksNonEmpty_setSplitter (flag : bool) (sp : nat) (P : Partition) :
  blocksNonEmpty P → blocksNonEmpty (Part.setSplitter flag sp P).
Proof.
  intros HP h b1 Hget.
  apply getBlock_setSplitter_inv in Hget as (b & Hb & Hstates).
  rewrite <- Hstates. by eapply HP.
Qed.

Lemma filter_ext_elem {A} (P1 P2 : A → Prop)
    `{!∀ x, Decision (P1 x), !∀ x, Decision (P2 x)} (l : list A) :
  (∀ x, x ∈ l → P1 x ↔ P2 x) → filter P1 l = filter P2 l.
Proof.
  induction l as [|a l IH]; intros Hiff; [done|].
  rewrite !filter_cons.
  rewrite IH by (intros x Hx; apply Hiff; by right).
  pose proof (Hiff a (list_elem_of_here a l)) as Ha.
  destruct (decide (P1 a)), (decide (P2 a)); tauto.
Qed.

Lemma handles_getBlocks (P : Partition) :
  length (Part.handles P) = length (Part.getBlocks P).
Proof.
  unfold Part.handles, Part.getBlocks, Part.getBlock.
  induction P as [|ob P IH] using rev_ind; [done|].
  rewrite length_app. cbn [length]. rewrite seq_app, filter_app.
  rewrite omap_app, !length_app. f_equal.
  - rewrite <- IH. f_equal. apply filter_ext_elem.
    intros h Hh. apply elem_of_seq in Hh.
    by rewrite lookup_app_l by lia.
  - change (seq (0 + length P) 1) with [length P].
    rewrite filter_cons, filter_nil.
    rewrite lookup_app_r by lia. rewrite Nat.sub_diag. simpl.
    by destruct ob as [b|].
Qed.

Lemma measure_bound (P : Partition) :
  blocksNonEmpty P →
  length (Part.handles P) + sum_list_with blockWeight P
  ≤ 2 * length (liveStates P).
Proof.
  rewrite handles_getBlocks. intros HP.
  assert (HP' : Forall (λ ob, ∀ b, ob = Some b → blockStates b ≠ []) P).
  { apply Forall_forall. intros ob Hob b ->.
    apply list_elem_of_lookup in Hob as [h Hh].
    apply (HP h b). unfold Part.getBlock. by rewrite Hh. }
  clear HP. induction HP' as [|ob P Hob _ IH]; [done|].
  rewrite liveStates_cons, length_app. unfold Part.getBlocks in *.
  destruct ob as [b|]; cbn [omap list_omap id from_option length sum_list_with
    blockWeight app]; [|lia].
  specialize (Hob b eq_refl). destruct (blockStates b); [done|].
  cbn [length]. lia.
Qed.

(** ** The cuts of the initial partition *)

Lemma join_filter_nonempty (ls : list (list nat)) :
  mjoin (filter (λ p, p ≠ []) ls) = mjoin ls.
Proof.
  induction ls as [|l ls IH]; [done|].
  rewrite filter_cons. destruct (decide (l ≠ [])) as [|Hl]; simpl.
  - by rewrite IH.
  - apply dec_stable in Hl. by rewrite Hl, IH.
Qed.

Lemma insideOutside_Permutation (bv : BitVector) (l : list nat) :
  mjoin (Part.insideOutside bv l) ≡ₚ l.
Proof.
  unfold Part.insideOutside. rewrite join_filter_nonempty. simpl.
  rewrite app_nil_r. apply filter_app_complement.
Qed.

Lemma insideOutside_nonempty (bv : BitVector) (l : list nat) :
  Forall (λ g, g ≠ []) (Part.insideOutside bv l).
Proof.
  apply Forall_forall. intros g Hg.
  by apply list_elem_of_filter in Hg as [Hg _].
Qed.

Lemma elem_of_insideOutside (bv : BitVector) (l g : list nat) :
  g ∈ Part.insideOutside bv l →
  g = filter (λ s, BV.get bv s = true) l
  ∨ g = filter (λ s, BV.get bv s ≠ true) l.
Proof.
  intros [_ Hg]%list_elem_of_filter.
  apply elem_of_cons in Hg as [->|Hg]; [by left|].
  apply list_elem_of_singleton in Hg as ->. by right.
Qed.

Lemma insideOutside_subset (bv : BitVector) (l g : list nat) (x : nat) :
  g ∈ Part.insideOutside bv l → x ∈ g → x ∈ l.
Proof.
  intros [->| ->]%elem_of_insideOutside Hx;
    by apply list_elem_of_filter in Hx as [_ Hx].
Qed.

Lemma insideOutside_uniform (bv : BitVector) (l g : list nat) :
  g ∈ Part.insideOutside bv l → uniform (BV.get bv) g.
Proof.
  intros [->| ->]%elem_of_insideOutside x y
    [Hx _]%list_elem_of_filter [Hy _]%list_elem_of_filter.
  - by rewrite Hx, Hy.
  - apply not_true_is_false in Hx, Hy. by rewrite Hx, Hy.
Qed.

Lemma insideOutside_single (bv : BitVector) (l : list nat) :
  length (Part.insideOutside bv l) ≤ 1 → uniform (BV.get bv) l.
Proof.
  intros Hlen x y Hx Hy.
  destruct (BV.get bv x) eqn:Ex, (BV.get bv y) eqn:Ey; try done; exfalso.
  - assert (Hin : x ∈ filter (λ s, BV.get bv s = true) l)
      by (by apply list_elem_of_filter).
    assert (Hout : y ∈ filter (λ s, BV.get bv s ≠ true) l)
      by (apply list_elem_of_filter; split; [congruence | done]).
    unfold Part.insideOutside in Hlen.
    rewrite !filter_cons, filter_nil in Hlen.
    destruct (filter (λ s, BV.get bv s = true) l) as [|? ?];
      [by apply elem_of_nil in Hin|].
    destruct (filter (λ s, BV.get bv s ≠ true) l) as [|? ?];
      [by apply elem_of_nil in Hout|].
    simpl in Hlen. lia.
  - assert (Hin : y ∈ filter (λ s, BV.get bv s = true) l)
      by (by apply list_elem_of_filter).
    assert (Hout : x ∈ filter (λ s, BV.get bv s ≠ true) l)
      by (apply list_elem_of_filter; split; [congruence | done]).
    unfold Part.insideOutside in Hlen.
    rewrite !filter_cons, filter_nil in Hlen.
    destruct (filter (λ s, BV.get bv s = true) l) as [|? ?];
      [by apply elem_of_nil in Hin|].
    destruct (filter (λ s, BV.get bv s ≠ true) l) as [|? ?];
      [by apply elem_of_nil in Hout|].
    simpl in Hlen. lia.
Qed.

Lemma runs_nonempty {A} (less : A → A → bool) (l : list A) :
  Forall (λ r, r ≠ []) (Part.runs less l).
Proof.
  destruct l as [|x l]; [by constructor|].
  induction l as [|y l IH] in x |- *; [by repeat constructor|].
  destruct (runs_cons less y l) as (r & rs & Hruns).
  specialize (IH y). rewrite Hruns in IH.
  change (Part.runs less (x :: y :: l))
    with (match Part.runs less (y :: l) with
          | (z :: _) as r :: rs =>
              if less x z then [x] :: r :: rs else (x :: r) :: rs
          | _ => [[x]]
          end).
  rewrite Hruns. destruct (less x y).
  - by constructor.
  - apply Forall_cons in IH as [_ IH]. by constructor.
Qed.

Lemma sortedRuns_nonempty (less : nat → nat → bool) (l : list nat) :
  Forall (λ r, r ≠ []) (Part.sortedRuns less l).
Proof. apply runs_nonempty. Qed.

Lemma liveStates_trivial (n : nat) : liveStates (Part.trivial n) = seq 0 n.
Proof. unfold liveStates. simpl. apply app_nil_r. Qed.

Lemma blocksNonEmpty_trivial (n : nat) :
  0 < n → blocksNonEmpty (Part.trivial n).
Proof.
  intros Hn [|h] b; [|by destruct h]. intros [= <-]. simpl.
  destruct n; [lia | done].
Qed.

Lemma liveStates_blockIfNonEmpty (l : list nat) (bd : BlockData) :
  liveStates (Part.blockIfNonEmpty l bd) = l.
Proof.
  destruct l; [done|]. unfold liveStates. simpl. by rewrite app_nil_r.
Qed.

Lemma liveStates_threeWay (n : nat) (first second : BitVector)
    (representative : option nat) :
  (∀ s, s < n → BV.get first s = true → BV.get second s = false) →
  liveStates (Part.threeWay n first second representative) ≡ₚ seq 0 n.
Proof.
  intros Hdisjoint. unfold Part.threeWay.
  rewrite !liveStates_app, !liveStates_blockIfNonEmpty.
  apply NoDup_Permutation.
  - apply NoDup_app. split; [apply NoDup_filter, NoDup_seq|]. split.
    + intros s Hs Hs'. apply elem_of_indices in Hs as [Hn Hs].
      apply elem_of_app in Hs' as [Hs'|Hs'].
      * apply elem_of_indices in Hs' as [_ Hs'].
        rewrite (Hdisjoint s Hn Hs) in Hs'. done.
      * apply elem_of_indices_others in Hs' as (_ & Hs' & _). congruence.
    + apply NoDup_app. split; [apply NoDup_filter, NoDup_seq|]. split.
      * intros s Hs Hs'. apply elem_of_indices in Hs as [Hn Hs].
        apply elem_of_indices_others in Hs' as (_ & _ & Hs'). congruence.
      * apply NoDup_filter, NoDup_seq.
  - apply NoDup_seq.
  - intros s. rewrite !elem_of_app, elem_of_indices_others, !elem_of_indices,
      elem_of_seq.
    destruct (BV.get first s) eqn:Hf, (BV.get second s) eqn:Hs;
      (split; [intros [[? _]|[[? _]|[? _]]]; lia | intros Hcase]).
    + left. split; [lia|done].
    + left. split; [lia|done].
    + right. left. split; [lia|done].
    + right. right. split; [lia|done].
Qed.

Lemma blocksNonEmpty_threeWay (n : nat) (first second : BitVector)
    (representative : option nat) :
  blocksNonEmpty (Part.threeWay n first second representative).
Proof.
  intros h b Hb.
  assert (Hin : b ∈ Part.getBlocks
                      (Part.threeWay n first second representative))
    by (apply elem_of_getBlocks; by exists h).
  rewrite threeWay_blocks in Hin.
  by apply list_elem_of_filter in Hin as [Hne _].
Qed.

Lemma splitStates_invariants (bv : BitVector) (P : Partition) :
  liveStates (Part.splitStates bv P) ≡ₚ liveStates P
  ∧ (blocksNonEmpty P → blocksNonEmpty (Part.splitStates bv P))
  ∧ refines (Part.splitStates bv P) P
  ∧ blocksUniform (BV.get bv) (Part.splitStates bv P).
Proof.
  unfold Part.splitStates. split; [|split; [|split]].
  - apply splitBlocks_liveStates. intros _ l. apply insideOutside_Permutation.
  - apply splitBlocks_nonEmpty. intros _ l. apply insideOutside_nonempty.
  - apply splitBlocks_refines. intros _ l g x. apply insideOutside_subset.
  - apply splitBlocks_blocksUniform.
    + intros _ l g. apply insideOutside_uniform.
    + intros _ l. apply insideOutside_single.
Qed.

Lemma split_invariants (less : nat → nat → bool) (P : Partition) :
  liveStates (Part.split less P) ≡ₚ liveStates P
  ∧ (blocksNonEmpty P → blocksNonEmpty (Part.split less P))
  ∧ refines (Part.split less P) P.
Proof.
  unfold Part.split. split; [|split].
  - apply splitBlocks_liveStates. intros _ l. apply sortedRuns_join.
  - apply splitBlocks_nonEmpty. intros _ l. apply sortedRuns_nonempty.
  - apply splitBlocks_refines. intros _ l g x. apply sortedRuns_subset.
Qed.

Lemma liveStates_fmap_Permutation (g : Block → Block) (P : Partition) :
  (∀ b, blockStates (g b) ≡ₚ blockStates b) →
  liveStates (map (fmap g) P) ≡ₚ liveStates P.
Proof.
  intros Hg. induction P as [|ob P IH]; [done|].
  simpl. rewrite !liveStates_cons, IH. by destruct ob; simpl; [rewrite Hg|].
Qed.

(** ** The blocks of the decomposition of a deterministic model *)

Section DecompositionBlocks.
Context {V : Type} `{ValueType V}.
Implicit Types (d : BisimulationDecomposition V) (P : Partition) (m : Model V).

Lemma performProbGreater0_grows (bt : SparseMatrix V) (n : nat)
    (phi psi : BitVector) (s : nat) :
  s < n → BV.get psi s = true →
  BV.get (performProbGreater0 bt n phi psi) s = true.
Proof.
  intros Hs Hpsi. unfold performProbGreater0.
  assert (Hk : ∀ k, BV.get (Nat.iter k (probGreater0Step bt n phi)
                              (map (BV.get psi) (seq 0 n))) s = true);
    [|apply Hk].
  induction k as [|k IH]; simpl.
  - by rewrite BV_lookup_tabulate.
  - unfold probGreater0Step at 1. rewrite BV_lookup_tabulate by done.
    by rewrite IH.
Qed.

Lemma performProb01_disjoint (bt : SparseMatrix V) (n : nat)
    (phi psi : BitVector) (s : nat) :
  s < n → BV.get (performProb01 bt n phi psi).1 s = true →
  BV.get psi s = false ∧ BV.get (performProb01 bt n phi psi).2 s = false.
Proof.
  intros Hs. unfold performProb01. simpl. intros H0. split.
  - unfold BV.complement in H0.
    rewrite (BV_lookup_tabulate (λ s, negb (BV.get _ s))) in H0 by done.
    destruct (BV.get psi s) eqn:Hpsi; [|done].
    by rewrite performProbGreater0_grows in H0.
  - unfold BV.complement at 1.
    rewrite (BV_lookup_tabulate (λ s, negb (BV.get _ s))) by done.
    by rewrite performProbGreater0_grows.
Qed.

Lemma labelSplits_invariants m (labels : list string) P :
  let P' :=
    foldl (λ P label,
             if bool_decide (label = "init"%string) then P
             else Part.splitStates (getStates m label) P) P labels in
  liveStates P' ≡ₚ liveStates P
  ∧ (blocksNonEmpty P → blocksNonEmpty P')
  ∧ refines P' P
  ∧ ∀ label, label ∈ labels → label ≠ "init"%string →
      blocksUniform (BV.get (getStates m label)) P'.
Proof.
  cbv zeta. revert P. induction labels as [|label labels IH]; intros P.
  - simpl. split; [done|]. split; [done|]. split; [apply refines_refl|].
    intros label Hin. by apply elem_of_nil in Hin.
  - simpl. set (P1 := if bool_decide (label = "init"%string) then P
                      else Part.splitStates (getStates m label) P).
    destruct (IH P1) as (Hlive & Hne & Href & Hunif).
    destruct (splitStates_invariants (getStates m label) P)
      as (Hlive1 & Hne1 & Href1 & Hunif1).
    assert (HP1 : liveStates P1 ≡ₚ liveStates P
                  ∧ (blocksNonEmpty P → blocksNonEmpty P1)
                  ∧ refines P1 P
                  ∧ (label ≠ "init"%string →
                     blocksUniform (BV.get (getStates m label)) P1)).
    { unfold P1. case_bool_decide.
      - split; [done|]. split; [done|]. split; [apply refines_refl|done].
      - done. }
    destruct HP1 as (Hlive2 & Hne2 & Href2 & Hunif2).
    split; [by rewrite Hlive|]. split; [by intros ?; apply Hne, Hne2|].
    split; [by eapply refines_trans|].
    intros label' Hin Hinit. apply elem_of_cons in Hin as [->|Hin].
    + eapply refines_blocksUniform; [exact Href | by apply Hunif2].
    + by apply Hunif.
Qed.

Lemma labelSplits_empty m (labels : list string) :
  foldl (λ P label,
           if bool_decide (label = "init"%string) then P
           else Part.splitStates (getStates m label) P)
    (Part.trivial 0) labels
  = Part.trivial 0.
Proof.
  induction labels as [|label labels IH]; [done|].
  simpl. by case_bool_decide.
Qed.

Lemma rewardSplit_invariants d :
  let d' := if keepRewards (options d) && hasRewardModel (model d)
            then splitInitialPartitionBasedOnStateRewards d else d in
  liveStates (partition d') ≡ₚ liveStates (partition d)
  ∧ (blocksNonEmpty (partition d) → blocksNonEmpty (partition d'))
  ∧ refines (partition d') (partition d)
  ∧ (partition d = Part.trivial 0 → partition d' = Part.trivial 0).
Proof.
  cbv zeta. destruct (keepRewards (options d) && hasRewardModel (model d)).
  - unfold splitInitialPartitionBasedOnStateRewards. simpl.
    destruct (split_invariants
                (λ a b, vlt (stateReward (model d) a) (stateReward (model d) b))
                (partition d)) as (Hlive & Hne & Href).
    split; [done|]. split; [done|]. split; [done|]. by intros ->.
  - split; [done|]. split; [done|]. split; [apply refines_refl|done].
Qed.

(** The initial partition holds every state once, and apart from the one
    block of a model without states no block is empty. *)
Lemma initialPartition_states d d1 :
  initializePartition d = Returned d1 →
  liveStates (partition d1) ≡ₚ seq 0 (numberOfStates (model d))
  ∧ (blocksNonEmpty (partition d1)
     ∨ numberOfStates (model d) = 0 ∧ partition d1 = Part.trivial 0).
Proof.
  unfold initializePartition.
  destruct (measureDrivenInitialPartition (options d)).
  - destruct (phiStates (options d)) as [phi|] eqn:Hphi; [|done].
    destruct (psiStates (options d)) as [psi|] eqn:Hpsi; [|done].
    intros [= <-]. unfold initializeMeasureDrivenPartition.
    match goal with
    | |- context [if ?c then splitInitialPartitionBasedOnStateRewards ?x
                  else _] =>
        destruct (rewardSplit_invariants x) as (Hlive & Hne & _)
    end.
    cbv zeta in Hlive, Hne. simpl in Hlive, Hne. cbv zeta. simpl.
    split.
    + rewrite Hlive. apply liveStates_threeWay. intros s Hs H0.
      unfold statesWithProbability01Deterministic in *.
      rewrite Hpsi in *. simpl in *.
      destruct (performProb01_disjoint _ _ _ _ _ Hs H0) as [Hpsi' H1].
      by destruct (bounded (options d) || keepRewards (options d)).
    + left. apply Hne, blocksNonEmpty_threeWay.
  - intros [= <-]. unfold initializeLabelBasedPartition.
    match goal with
    | |- context [if ?c then splitInitialPartitionBasedOnStateRewards ?x
                  else _] =>
        destruct (rewardSplit_invariants x) as (Hlive & Hne & _ & Hempty)
    end.
    cbv zeta in Hlive, Hne, Hempty. simpl in Hlive, Hne, Hempty.
    cbv zeta. simpl.
    destruct (labelSplits_invariants (model d)
                (inOrder (default ∅ (respectedAtomicPropositions (options d))))
                (Part.trivial (numberOfStates (model d))))
      as (Hlive' & Hne' & _).
    cbv zeta in Hlive', Hne'.
    split.
    + by rewrite Hlive, Hlive', liveStates_trivial.
    + destruct (numberOfStates (model d)) as [|n] eqn:Hn.
      * right. split; [done|]. apply Hempty, labelSplits_empty.
      * left. apply Hne, Hne', blocksNonEmpty_trivial. lia.
Qed.

Lemma cut_Permutation d sp h l : mjoin (cut d sp h l) ≡ₚ l.
Proof. apply groups_Permutation. Qed.

Lemma deterministicStep_partition d v d' v' :
  refinementStep (d, v) = Some (d', v') →
  liveStates (partition d') ≡ₚ liveStates (partition d)
  ∧ (blocksNonEmpty (partition d) → blocksNonEmpty (partition d'))
  ∧ refines (partition d') (partition d).
Proof.
  intros Hstep. split; [|split].
  - destruct (deterministicStep _ _ _ _ Hstep)
      as (sp & rest & P1 & P' & _ & HP1 & HP' & -> & _).
    simpl. rewrite HP', splitBlocks_liveStates by apply cut_Permutation.
    rewrite HP1. by rewrite liveStates_setSplitter.
  - destruct (deterministicStep _ _ _ _ Hstep)
      as (sp & rest & P1 & P' & _ & HP1 & HP' & -> & _).
    simpl. intros Hne. rewrite HP'.
    apply splitBlocks_nonEmpty; [apply cut_nonempty|].
    rewrite HP1. by apply blocksNonEmpty_setSplitter.
  - intros h' b'. by apply deterministicStep_origin with v v'.
Qed.

Lemma refinement_partition fuel d d' :
  performPartitionRefinement fuel d = Some d' →
  liveStates (partition d') ≡ₚ liveStates (partition d)
  ∧ (blocksNonEmpty (partition d) → blocksNonEmpty (partition d'))
  ∧ refines (partition d') (partition d).
Proof.
  unfold performPartitionRefinement. intros Hloop.
  apply (refinementLoop_invariant
           (λ st, liveStates (partition st.1) ≡ₚ liveStates (partition d)
                  ∧ (blocksNonEmpty (partition d) →
                     blocksNonEmpty (partition st.1))
                  ∧ refines (partition st.1) (partition d))
           fuel (refinementStart d) d'); [| |done].
  - intros [d0 v0] [d1 v1] (Hlive & Hne & Href) Hstep. simpl in *.
    destruct (deterministicStep_partition _ _ _ _ Hstep)
      as (Hlive1 & Hne1 & Href1).
    split; [by rewrite Hlive1|]. split; [by intros ?; apply Hne1, Hne|].
    by eapply refines_trans.
  - simpl. split; [by rewrite liveStates_fmap|].
    split; [by apply blocksNonEmpty_fmap|]. by apply refines_fmap.
Qed.

Lemma weight_fmap (g : Block → Block) P :
  (∀ b, blockStates (g b) = blockStates b) →
  sum_list_with blockWeight (map (fmap g) P) = sum_list_with blockWeight P.
Proof.
  intros Hg. induction P as [|ob P IH]; [done|].
  simpl. rewrite IH. by destruct ob; simpl; [rewrite Hg|].
Qed.

Lemma refinementStart_measure d d1 :
  initializePartition d = Returned d1 →
  refinementMeasure (refinementStart d1) ≤ 2 * numberOfStates (model d) + 1.
Proof.
  intros Hinit.
  destruct (initialPartition_states _ _ Hinit) as [Hlive [Hne|[Hn Hempty]]].
  - unfold refinementMeasure, refinementStart. simpl.
    rewrite weight_fmap by done.
    pose proof (measure_bound _ Hne) as Hbound.
    apply Permutation_length in Hlive. rewrite length_seq in Hlive. lia.
  - unfold refinementMeasure, refinementStart. simpl.
    rewrite Hempty, Hn. simpl. lia.
Qed.

(** The computation of the decomposition returns within [2 * n + 1] passes
    of the refinement loop, [n] being the number of states. *)
Lemma deterministic_decomposition d (fuel : nat) :
  (measureDrivenInitialPartition (options d) = true →
   is_Some (phiStates (options d)) ∧ is_Some (psiStates (options d))) →
  2 * numberOfStates (model d) + 1 ≤ fuel →
  ∃ d1 d2,
    initializePartition d = Returned d1
    ∧ performPartitionRefinement fuel d1 = Some d2
    ∧ computeBisimulationDecomposition fuel d
      = Returned (buildQuotientStep (extractDecompositionBlocks d2)).
Proof.
  intros Hmd Hfuel.
  assert (Hinit : ∃ d1, initializePartition d = Returned d1).
  { unfold initializePartition.
    destruct (measureDrivenInitialPartition (options d)); [|by eexists].
    destruct (Hmd eq_refl) as [[phi ->] [psi ->]]. by eexists. }
  destruct Hinit as [d1 Hinit].
  pose proof (refinementStart_measure _ _ Hinit) as Hmeasure.
  destruct (deterministic_refinement_returns fuel d1 ltac:(lia))
    as (d2 & Hloop & _).
  exists d1, d2. split; [done|]. split; [done|].
  unfold computeBisimulationDecomposition. by rewrite Hinit, Hloop.
Qed.

Lemma blocks_buildQuotientStep d :
  blocks (buildQuotientStep d) = blocks d.
Proof. unfold buildQuotientStep. by case_match. Qed.

Lemma extracted_join d :
  mjoin (blocks (buildQuotientStep (extractDecompositionBlocks d)))
  ≡ₚ liveStates (partition d).
Proof.
  rewrite blocks_buildQuotientStep. simpl.
  change (mjoin (map blockStates (Part.getBlocks ?P))) with (liveStates P).
  apply liveStates_fmap_Permutation. intros b. simpl.
  apply merge_sort_Permutation.
Qed.

Lemma extracted_sorted d :
  Forall (Sorted le) (blocks (buildQuotientStep (extractDecompositionBlocks d))).
Proof.
  rewrite blocks_buildQuotientStep. simpl. apply Forall_forall. intros B.
  change (map blockStates ?l) with (blockStates <$> l).
  intros (b & -> & Hb)%list_elem_of_fmap.
  apply elem_of_getBlocks in Hb as [h Hh]. rewrite getBlock_fmap in Hh.
  destruct (Part.getBlock (partition d) h) as [b0|]; [|done].
  injection Hh as <-. simpl. apply (Sorted_merge_sort le).
Qed.

Lemma join_length_nonempty (ls : list (list nat)) :
  Forall (λ B, B ≠ []) ls → length ls ≤ length (mjoin ls).
Proof.
  induction 1 as [|B ls HB _ IH]; [done|].
  simpl. rewrite length_app. destruct B; [done|]. simpl. lia.
Qed.

(** X7. The blocks of the decomposition partition the states: with any
    options under which the initial partition can be built, the
    computation returns within [2 * n + 1] passes of the refinement loop
    for a model of [n] states; every state is in exactly one block, every
    block lists its states in increasing order, and for a model that has
    a state no block is empty, so that there are at most [n] blocks. *)
Theorem decomposition_partitions_states d (fuel : nat) :
  (measureDrivenInitialPartition (options d) = true →
   is_Some (phiStates (options d)) ∧ is_Some (psiStates (options d))) →
  2 * numberOfStates (model d) + 1 ≤ fuel →
  ∃ d', computeBisimulationDecomposition fuel d = Returned d'
    ∧ mjoin (blocks d') ≡ₚ seq 0 (numberOfStates (model d))
    ∧ Forall (Sorted le) (blocks d')
    ∧ (0 < numberOfStates (model d) →
       Forall (λ B, B ≠ []) (blocks d')
       ∧ length (blocks d') ≤ numberOfStates (model d)).
Proof.
  intros Hmd Hfuel.
  destruct (deterministic_decomposition d fuel Hmd Hfuel)
    as (d1 & d2 & Hinit & Hloop & Hcompute).
  eexists. split; [exact Hcompute|].
  destruct (initialPartition_states _ _ Hinit) as [Hlive1 Hne1].
  destruct (refinement_partition _ _ _ Hloop) as (Hlive2 & Hne2 & _).
  assert (Hjoin : mjoin (blocks (buildQuotientStep
                                   (extractDecompositionBlocks d2)))
                  ≡ₚ seq 0 (numberOfStates (model d)))
    by (by rewrite extracted_join, Hlive2).
  split; [done|]. split; [apply extracted_sorted|].
  intros Hn.
  assert (Hne : Forall (λ B, B ≠ [])
                  (blocks (buildQuotientStep (extractDecompositionBlocks d2)))).
  { destruct Hne1 as [Hne1|[Hn0 _]]; [|lia].
    apply Forall_forall. intros B HB.
    apply extracted_blocks in HB as (h & b & Hb & HB).
    specialize (Hne2 Hne1 h b Hb).
    destruct (blockStates b) as [|s l] eqn:Hstates; [done|].
    intros ->. specialize (HB s). rewrite elem_of_nil in HB.
    apply HB. by left. }
  split; [done|].
  apply join_length_nonempty in Hne.
  apply Permutation_length in Hjoin. rewrite length_seq in Hjoin. lia.
Qed.
End DecompositionBlocks.

Lemma decomposition_partitions_states_witness :
  (measureDrivenInitialPartition (options Examples.branchDecomposition) = true →
   is_Some (phiStates (options Examples.branchDecomposition))
   ∧ is_Some (psiStates (options Examples.branchDecomposition)))
  ∧ 2 * numberOfStates (model Examples.branchDecomposition) + 1 ≤ 7
  ∧ ∃ d', computeBisimulationDecomposition 7 Examples.branchDecomposition
          = Returned d'
      ∧ mjoin (blocks d')
        ≡ₚ seq 0 (numberOfStates (model Examples.branchDecomposition))
      ∧ Forall (Sorted le) (blocks d')
      ∧ (0 < numberOfStates (model Examples.branchDecomposition) →
         Forall (λ B, B ≠ []) (blocks d')
         ∧ length (blocks d')
           ≤ numberOfStates (model Examples.branchDecomposition)).
Proof.
  assert (Hmd : measureDrivenInitialPartition
                  (options Examples.branchDecomposition) = true →
                is_Some (phiStates (options Examples.branchDecomposition))
                ∧ is_Some (psiStates (options Examples.branchDecomposition)))
    by (intros _; split; by eexists).
  assert (Hfuel : 2 * numberOfStates (model Examples.branchDecomposition) + 1
                  ≤ 7) by (simpl; lia).
  split; [exact Hmd|]. split; [exact Hfuel|].
  exact (decomposition_partitions_states Examples.branchDecomposition 7
           Hmd Hfuel).
Defined.

(** ** The constructor of the decomposition *)

Section ConstructorProperties.
Context {V : Type} `{ValueType V} `{DecompositionMethods V}.
Implicit Types (m : Model V) (d : BisimulationDecomposition V) (o : Options).

(** X6. The constructor completes exactly for the options it can serve: if
    rewards are to be kept and the model has a reward model, that reward
    model is the only one and has state rewards only, and weak
    bisimulation is not asked to preserve bounded properties.  The object
    it leaves holds the model, the backward transitions and the options as
    given, with the labels of the model as the atomic propositions to
    respect when none were given; it has no partition, no blocks and no
    quotient yet. *)
Theorem construct_completes_iff m bt o :
  ((∃ d, construct m bt o = inr d)
   ↔ (keepRewards o = true → rewardModels m ≠ [] →
        ∃ name rm, rewardModels m = [(name, rm)]
                   ∧ hasOnlyStateRewards rm = true)
     ∧ (type o = Weak → bounded o = false))
  ∧ (∀ d, construct m bt o = inr d →
       d = mkDecomposition m bt
             (Opt.setRespected
                (Some (default (getLabels m) (respectedAtomicPropositions o)))
                o)
             [] [] None).
Proof.
  unfold construct, hasRewardModel, hasUniqueRewardModel, getUniqueRewardModel.
  split.
  - destruct (keepRewards o) eqn:Hkeep; simpl.
    + destruct (rewardModels m) as [|[name rm] [|second rest]] eqn:Hrm; simpl.
      * destruct (bool_decide (type o = Weak)) eqn:Hweak; simpl.
        -- destruct (bounded o) eqn:Hbounded; simpl.
           ++ split; [by intros [d ?]|]. intros [_ Hwb].
              apply bool_decide_eq_true in Hweak. by specialize (Hwb Hweak).
           ++ split; [|by eexists]. intros _. split; [done|done].
        -- split; [|by eexists]. intros _. split; [done|].
           intros Hw. by apply bool_decide_eq_false in Hweak.
      * destruct (hasOnlyStateRewards rm) eqn:Honly; simpl.
        -- destruct (bool_decide (type o = Weak)) eqn:Hweak; simpl.
           ++ destruct (bounded o) eqn:Hbounded; simpl.
              ** split; [by intros [d ?]|]. intros [_ Hwb].
                 apply bool_decide_eq_true in Hweak.
                 by specialize (Hwb Hweak).
              ** split; [|by eexists]. intros _.
                 split; [by intros _ _; exists name, rm|done].
           ++ split; [|by eexists]. intros _.
              split; [by intros _ _; exists name, rm|].
              intros Hw. by apply bool_decide_eq_false in Hweak.
        -- split; [by intros [d ?]|]. intros [Hrew _].
           destruct (Hrew eq_refl ltac:(done)) as (name' & rm' & [= <- <-] & Hs).
           congruence.
      * split; [by intros [d ?]|]. intros [Hrew _].
        by destruct (Hrew eq_refl ltac:(done)) as (name' & rm' & ? & _).
    + destruct (bool_decide (type o = Weak)) eqn:Hweak; simpl.
      * destruct (bounded o) eqn:Hbounded; simpl.
        -- split; [by intros [d ?]|]. intros [_ Hwb].
           apply bool_decide_eq_true in Hweak. by specialize (Hwb Hweak).
        -- split; [|by eexists]. intros _. split; [done|done].
      * split; [|by eexists]. intros _. split; [done|].
        intros Hw. by apply bool_decide_eq_false in Hweak.
  - intros d.
    repeat match goal with
           | |- context [if ?c then inl _ else _] => destruct c; [done|]
           end.
    intros [= <-]. f_equal.
    destruct o as [? ? ? [r|] ? ? ? ? ?]; reflexivity.
Qed.
End ConstructorProperties.

(** ** What the blocks respect *)

Section DecompositionLabels.
Context {V : Type} `{ValueType V}.
Implicit Types (d : BisimulationDecomposition V) (P : Partition) (m : Model V).

Lemma elem_of_inOrder (labels : gset string) (label : string) :
  label ∈ inOrder labels ↔ label ∈ labels.
Proof.
  unfold inOrder. by rewrite merge_sort_Permutation, elem_of_elements.
Qed.

Lemma initialPartition_labels d d1 :
  measureDrivenInitialPartition (options d) = false →
  initializePartition d = Returned d1 →
  ∀ label, label ∈ default ∅ (respectedAtomicPropositions (options d)) →
    label ≠ "init"%string →
    blocksUniform (BV.get (getStates (model d) label)) (partition d1).
Proof.
  unfold initializePartition. intros -> [= <-] label Hlabel Hinit.
  unfold initializeLabelBasedPartition.
  match goal with
  | |- context [if ?c then splitInitialPartitionBasedOnStateRewards ?x
                else _] =>
      destruct (rewardSplit_invariants x) as (_ & _ & Href & _)
  end.
  cbv zeta in Href. simpl in Href. cbv zeta. simpl.
  eapply refines_blocksUniform; [exact Href|].
  destruct (labelSplits_invariants (model d)
              (inOrder (default ∅ (respectedAtomicPropositions (options d))))
              (Part.trivial (numberOfStates (model d))))
    as (_ & _ & _ & Hunif).
  apply Hunif; [by apply elem_of_inOrder | done].
Qed.

(** X8. The blocks respect the atomic propositions: with the label-based
    initial partition, the computation returns within [2 * n + 1] passes
    of the refinement loop, and two states of a block of the decomposition
    carry the same respected labels, the label init apart, which the
    initial partition skips. *)
Theorem respected_labels_preserved d (fuel : nat) :
  measureDrivenInitialPartition (options d) = false →
  2 * numberOfStates (model d) + 1 ≤ fuel →
  ∃ d', computeBisimulationDecomposition fuel d = Returned d'
    ∧ ∀ label,
        label ∈ default ∅ (respectedAtomicPropositions (options d)) →
        label ≠ "init"%string →
        ∀ B, B ∈ blocks d' → ∀ s t, s ∈ B → t ∈ B →
          BV.get (getStates (model d) label) s
          = BV.get (getStates (model d) label) t.
Proof.
  intros Hmd Hfuel.
  destruct (deterministic_decomposition d fuel
              ltac:(by rewrite Hmd) Hfuel)
    as (d1 & d2 & Hinit & Hloop & Hcompute).
  eexists. split; [exact Hcompute|].
  intros label Hlabel Hnotinit B HB s t Hs Ht.
  apply extracted_blocks in HB as (h & b & Hb & HB).
  destruct (refinement_partition _ _ _ Hloop) as (_ & _ & Href).
  pose proof (initialPartition_labels d d1 Hmd Hinit label Hlabel Hnotinit)
    as Hunif.
  apply (refines_blocksUniform _ _ _ Href Hunif h b Hb); by apply HB.
Qed.

(** X9. Refinement only cuts blocks: every block of the decomposition lies
    within one block of the initial partition. *)
Theorem decomposition_refines_initial_partition d (fuel : nat) :
  (measureDrivenInitialPartition (options d) = true →
   is_Some (phiStates (options d)) ∧ is_Some (psiStates (options d))) →
  2 * numberOfStates (model d) + 1 ≤ fuel →
  ∃ d1 d', initializePartition d = Returned d1
    ∧ computeBisimulationDecomposition fuel d = Returned d'
    ∧ ∀ B, B ∈ blocks d' →
        ∃ h b, Part.getBlock (partition d1) h = Some b
               ∧ ∀ s, s ∈ B → s ∈ blockStates b.
Proof.
  intros Hmd Hfuel.
  destruct (deterministic_decomposition d fuel Hmd Hfuel)
    as (d1 & d2 & Hinit & Hloop & Hcompute).
  exists d1. eexists. split; [done|]. split; [exact Hcompute|].
  intros B HB.
  apply extracted_blocks in HB as (h2 & b2 & Hb2 & HB).
  destruct (refinement_partition _ _ _ Hloop) as (_ & _ & Href).
  destruct (Href _ _ Hb2) as (h & b & Hb & Hsub).
  exists h, b. split; [done|]. intros s Hs. by apply Hsub, HB.
Qed.

Lemma labelSplits_ext m m' (labels : list string) P :
  (∀ label, label ≠ "init"%string → getStates m' label = getStates m label) →
  foldl (λ P label,
           if bool_decide (label = "init"%string) then P
           else Part.splitStates (getStates m' label) P) P labels
  = foldl (λ P label,
             if bool_decide (label = "init"%string) then P
             else Part.splitStates (getStates m label) P) P labels.
Proof.
  intros Hsame. revert P.
  induction labels as [|label labels IH]; intros P; [done|].
  simpl. rewrite <- IH. case_bool_decide; [done|]. by rewrite Hsame.
Qed.

(** X10. The states that carry the label init have no influence on the
    label-based initial partition: two objects whose models differ in the
    states of that label only get the same initial partition. *)
Theorem init_label_ignored d d' :
  options d' = options d →
  numberOfStates (model d') = numberOfStates (model d) →
  rewardModels (model d') = rewardModels (model d) →
  (∀ label, label ≠ "init"%string →
            getStates (model d') label = getStates (model d) label) →
  partition (initializeLabelBasedPartition d')
  = partition (initializeLabelBasedPartition d).
Proof.
  intros Ho Hn Hrm Hlabels. unfold initializeLabelBasedPartition.
  cbv zeta. simpl. rewrite Ho, Hn.
  rewrite (labelSplits_ext (model d) (model d')) by done.
  unfold hasRewardModel. rewrite Hrm.
  destruct (keepRewards (options d)
            && negb (bool_decide (rewardModels (model d) = []))); [|done].
  unfold splitInitialPartitionBasedOnStateRewards. simpl.
  f_equal. unfold stateReward, stateRewardVector, getUniqueRewardModel.
  by rewrite Hrm.
Qed.
End DecompositionLabels.

Lemma respected_labels_preserved_witness :
  measureDrivenInitialPartition (options (Examples.chainDecomposition Strong))
  = false
  ∧ 2 * numberOfStates (model (Examples.chainDecomposition Strong)) + 1 ≤ 7
  ∧ ∃ d', computeBisimulationDecomposition 7
            (Examples.chainDecomposition Strong) = Returned d'
      ∧ ∀ label,
          label ∈ default ∅ (respectedAtomicPropositions
                               (options (Examples.chainDecomposition Strong))) →
          label ≠ "init"%string →
          ∀ B, B ∈ blocks d' → ∀ s t, s ∈ B → t ∈ B →
            BV.get (getStates (model (Examples.chainDecomposition Strong))
                      label) s
            = BV.get (getStates (model (Examples.chainDecomposition Strong))
                        label) t.
Proof.
  assert (Hfuel : 2 * numberOfStates
                        (model (Examples.chainDecomposition Strong)) + 1 ≤ 7)
    by (simpl; lia).
  split; [reflexivity|]. split; [exact Hfuel|].
  exact (respected_labels_preserved (Examples.chainDecomposition Strong) 7
           eq_refl Hfuel).
Defined.

Lemma decomposition_refines_initial_partition_witness :
  (measureDrivenInitialPartition (options Examples.branchDecomposition) = true →
   is_Some (phiStates (options Examples.branchDecomposition))
   ∧ is_Some (psiStates (options Examples.branchDecomposition)))
  ∧ 2 * numberOfStates (model Examples.branchDecomposition) + 1 ≤ 7
  ∧ ∃ d1 d', initializePartition Examples.branchDecomposition = Returned d1
      ∧ computeBisimulationDecomposition 7 Examples.branchDecomposition
        = Returned d'
      ∧ ∀ B, B ∈ blocks d' →
          ∃ h b, Part.getBlock (partition d1) h = Some b
                 ∧ ∀ s, s ∈ B → s ∈ blockStates b.
Proof.
  assert (Hmd : measureDrivenInitialPartition
                  (options Examples.branchDecomposition) = true →
                is_Some (phiStates (options Examples.branchDecomposition))
                ∧ is_Some (psiStates (options Examples.branchDecomposition)))
    by (intros _; split; by eexists).
  assert (Hfuel : 2 * numberOfStates (model Examples.branchDecomposition) + 1
                  ≤ 7) by (simpl; lia).
  split; [exact Hmd|]. split; [exact Hfuel|].
  exact (decomposition_refines_initial_partition Examples.branchDecomposition 7
           Hmd Hfuel).
Defined.


Lemma init_label_ignored_witness :
  options (mkDecomposition FurtherExamples.relabelledDie
             (getBackwardTransitions FurtherExamples.relabelledDie)
             (options (FurtherExamples.respectAll Examples.die)) [] [] None)
  = options (FurtherExamples.respectAll Examples.die)
  ∧ numberOfStates FurtherExamples.relabelledDie
    = numberOfStates (model (FurtherExamples.respectAll Examples.die))
  ∧ rewardModels FurtherExamples.relabelledDie
    = rewardModels (model (FurtherExamples.respectAll Examples.die))
  ∧ (∀ label, label ≠ "init"%string →
       getStates FurtherExamples.relabelledDie label
       = getStates (model (FurtherExamples.respectAll Examples.die)) label)
  ∧ partition (initializeLabelBasedPartition
                 (mkDecomposition FurtherExamples.relabelledDie
                    (getBackwardTransitions FurtherExamples.relabelledDie)
                    (options (FurtherExamples.respectAll Examples.die))
                    [] [] None))
    = partition (initializeLabelBasedPartition
                   (FurtherExamples.respectAll Examples.die)).
Proof.
  assert (Hlabels : ∀ label, label ≠ "init"%string →
            getStates FurtherExamples.relabelledDie label
            = getStates (model (FurtherExamples.respectAll Examples.die)) label).
  { intros label Hlabel. unfold getStates. simpl.
    by rewrite lookup_insert_ne. }
  split; [reflexivity|]. split; [reflexivity|]. split; [reflexivity|].
  split; [exact Hlabels|].
  exact (init_label_ignored (FurtherExamples.respectAll Examples.die)
           (mkDecomposition FurtherExamples.relabelledDie
              (getBackwardTransitions FurtherExamples.relabelledDie)
              (options (FurtherExamples.respectAll Examples.die)) [] [] None)
           eq_refl eq_refl eq_refl Hlabels).
Defined.

(** ** From formulas to the decomposition *)

Section FormulasToDecomposition.
Context {V : Type} `{ValueType V}.
Implicit Types (m : Model V) (d : BisimulationDecomposition V) (o : Options).

Lemma preserveFormula_foldl_kept m (formulas : list Formula) o :
  type (foldl (λ o f, preserveFormula m f o) o formulas) = type o
  ∧ buildQuotient (foldl (λ o f, preserveFormula m f o) o formulas)
    = buildQuotient o.
Proof.
  revert o. induction formulas as [|f fs IH]; intros o; [done|].
  simpl. destruct (IH (preserveFormula m f o)) as [-> ->].
  by rewrite preserveFormula_eq.
Qed.

Lemma Options_formulas_servable m (formulas : list Formula) o :
  Options_formulas m formulas = Some o →
  type o = Strong ∧ buildQuotient o = true
  ∧ (measureDrivenInitialPartition o = true →
     is_Some (phiStates o) ∧ is_Some (psiStates o)).
Proof.
  destruct formulas as [|f [|g fs]].
  - rewrite Options_formulas_none. by intros [= <-].
  - rewrite Options_formulas_single, Options_formula_eq. intros [= <-].
    destruct (reachabilityOperands (unwrapOperator f)) as [[l r]|]; simpl;
      (split; [done|]); (split; [done|]); [|done].
    intros _. split; by eexists.
  - unfold Options_formulas.
    change (bool_decide (f :: g :: fs = [])) with false. simpl.
    intros [= <-].
    destruct (preserveFormula_fold m (f :: g :: fs) Opt.default ltac:(done))
      as (Hmd & _).
    simpl in Hmd. rewrite Hmd.
    destruct (preserveFormula_foldl_kept m fs
                (preserveFormula m g (preserveFormula m f Opt.default)))
      as [-> ->].
    rewrite !preserveFormula_eq. simpl. done.
Qed.

Lemma construct_inr m bt o :
  (keepRewards o = true → rewardModels m ≠ [] →
   ∃ name rm, rewardModels m = [(name, rm)] ∧ hasOnlyStateRewards rm = true) →
  (type o = Weak → bounded o = false) →
  construct m bt o
  = inr (mkDecomposition m bt
           (Opt.setRespected
              (Some (default (getLabels m) (respectedAtomicPropositions o))) o)
           [] [] None).
Proof.
  intros Hrewards Hweak.
  unfold construct, hasRewardModel, hasUniqueRewardModel, getUniqueRewardModel.
  assert (Hfirst :
    negb (negb (keepRewards o) || negb (negb (bool_decide (rewardModels m = [])))
          || bool_decide (length (rewardModels m) = 1)) = false).
  { destruct (keepRewards o); [|done].
    destruct (rewardModels m) as [|rm1 rms] eqn:Hrm; [done|].
    destruct (Hrewards eq_refl ltac:(done)) as (name & rm & [= -> ->] & _).
    done. }
  assert (Hsecond :
    negb (negb (keepRewards o) || negb (negb (bool_decide (rewardModels m = [])))
          || from_option hasOnlyStateRewards false
               (snd <$> head (rewardModels m))) = false).
  { destruct (keepRewards o); [|done].
    destruct (rewardModels m) as [|rm1 rms] eqn:Hrm; [done|].
    destruct (Hrewards eq_refl ltac:(done)) as (name & rm & [= -> ->] & Hs).
    simpl. by rewrite Hs. }
  assert (Hthird :
    negb (negb (bool_decide (type o = Weak)) || negb (bounded o)) = false).
  { destruct (bool_decide (type o = Weak)) eqn:Htype; [|done].
    apply bool_decide_eq_true in Htype. by rewrite (Hweak Htype). }
  rewrite Hfirst, Hsecond, Hthird. f_equal. f_equal.
  destruct o as [? ? ? [r|] ? ? ? ? ?]; reflexivity.
Qed.

(** X11. Options configured from formulas can always be served, the reward
    models apart: if rewards are kept only where the model has no reward
    model or a single one with state rewards only, the constructor
    completes, the computation returns within [2 * n + 1] passes of the
    refinement loop, and [getQuotient] returns the quotient. *)
Theorem decompose_for_formulas m (formulas : list Formula) o (fuel : nat) :
  Options_formulas m formulas = Some o →
  (keepRewards o = true → rewardModels m ≠ [] →
   ∃ name rm, rewardModels m = [(name, rm)] ∧ hasOnlyStateRewards rm = true) →
  2 * numberOfStates m + 1 ≤ fuel →
  ∃ d', decompose fuel m (getBackwardTransitions m) o = inr (Returned d')
    ∧ model d' = m
    ∧ ∃ q, getQuotient d' = inr q.
Proof.
  intros Ho Hrewards Hfuel.
  destruct (Options_formulas_servable m formulas o Ho)
    as (Hstrong & Hquotient & Hmd).
  unfold decompose.
  rewrite (construct_inr m (getBackwardTransitions m) o Hrewards)
    by (intros Hweak; by rewrite Hstrong in Hweak).
  set (d := mkDecomposition m _ _ _ _ _).
  destruct (deterministic_decomposition d fuel Hmd Hfuel)
    as (d1 & d2 & Hinit & Hloop & Hcompute).
  eexists. split; [by rewrite Hcompute|].
  destruct (initializePartition_fields _ _ Hinit) as (Hm1 & _ & Ho1 & _).
  destruct (refinementLoop_fields _ _ _ Hloop) as (Hm2 & _ & Ho2 & _).
  simpl in Hm2, Ho2.
  assert (Hbuild : buildQuotient (options (extractDecompositionBlocks d2))
                   = true) by (simpl; by rewrite Ho2, Ho1).
  unfold buildQuotientStep, getQuotient. rewrite Hbuild. simpl.
  split; [by rewrite Hm2, Hm1|]. by eexists.
Qed.
End FormulasToDecomposition.

Lemma goalOptions_configured :
  Options_formulas Examples.chain [Examples.eventuallyGoal]
  = Some FurtherExamples.goalOptions.
Proof.
  unfold FurtherExamples.goalOptions.
  by rewrite Options_formulas_single, Options_formula_eq.
Qed.

Lemma decompose_for_formulas_witness :
  Options_formulas Examples.chain [Examples.eventuallyGoal]
  = Some FurtherExamples.goalOptions
  ∧ (keepRewards FurtherExamples.goalOptions = true →
     rewardModels Examples.chain ≠ [] →
     ∃ name rm, rewardModels Examples.chain = [(name, rm)]
                ∧ hasOnlyStateRewards rm = true)
  ∧ 2 * numberOfStates Examples.chain + 1 ≤ 7
  ∧ ∃ d', decompose 7 Examples.chain (getBackwardTransitions Examples.chain)
            FurtherExamples.goalOptions = inr (Returned d')
      ∧ model d' = Examples.chain
      ∧ ∃ q, getQuotient d' = inr q.
Proof.
  assert (Hrewards : keepRewards FurtherExamples.goalOptions = true →
            rewardModels Examples.chain ≠ [] →
            ∃ name rm, rewardModels Examples.chain = [(name, rm)]
                       ∧ hasOnlyStateRewards rm = true)
    by (intros _ Hrm; by destruct Hrm).
  assert (Hfuel : 2 * numberOfStates Examples.chain + 1 ≤ 7) by (simpl; lia).
  split; [exact goalOptions_configured|]. split; [exact Hrewards|].
  split; [exact Hfuel|].
  exact (decompose_for_formulas Examples.chain [Examples.eventuallyGoal]
           FurtherExamples.goalOptions 7 goalOptions_configured Hrewards
           Hfuel).
Defined.

(** ** What the computation depends on *)

Section ComputationDependencies.
Context {V : Type} `{ValueType V}.
Implicit Types (d : BisimulationDecomposition V) (o : Options).

Lemma refinementStep_sameCore d1 d2 (v : list nat) :
  sameCore d1 d2 →
  match refinementStep (d1, v), refinementStep (d2, v) with
  | Some (d1', v1), Some (d2', v2) =>
      sameCore d1' d2' ∧ v1 = v2
      ∧ options d1' = options d1 ∧ options d2' = options d2
      ∧ blocks d1' = blocks d1 ∧ blocks d2' = blocks d2
      ∧ quotient d1' = quotient d1 ∧ quotient d2' = quotient d2
  | None, None => True
  | _, _ => False
  end.
Proof.
  intros (Hm & Hbt & HP & Htype). unfold refinementStep. cbv beta iota.
  rewrite HP.
  destruct (last (merge_sort (largerFirst (partition d2)) v)) as [sp|];
    [|done].
  simpl. unfold refineDeterministic. simpl. rewrite Htype, Hbt.
  unfold sameCore. simpl. by rewrite Hm, Hbt, Htype.
Qed.

Lemma refinementLoop_sameCore (fuel : nat) d1 d2 (v : list nat) :
  sameCore d1 d2 →
  match refinementLoop fuel (d1, v), refinementLoop fuel (d2, v) with
  | Some d1', Some d2' =>
      sameCore d1' d2'
      ∧ options d1' = options d1 ∧ options d2' = options d2
      ∧ blocks d1' = blocks d1 ∧ blocks d2' = blocks d2
      ∧ quotient d1' = quotient d1 ∧ quotient d2' = quotient d2
  | None, None => True
  | _, _ => False
  end.
Proof.
  revert d1 d2 v. induction fuel as [|fuel IH]; intros d1 d2 v Hsame.
  - pose proof (refinementStep_sameCore d1 d2 v Hsame) as Hstep.
    rewrite !refinementLoop_0.
    destruct (refinementStep (d1, v)) as [[d1' v1]|],
             (refinementStep (d2, v)) as [[d2' v2]|]; simpl; done.
  - pose proof (refinementStep_sameCore d1 d2 v Hsame) as Hstep.
    rewrite !refinementLoop_S.
    destruct (refinementStep (d1, v)) as [[d1' v1]|],
             (refinementStep (d2, v)) as [[d2' v2]|]; simpl; try done.
    destruct Hstep as (Hsame' & <- & Ho1 & Ho2 & Hb1 & Hb2 & Hq1 & Hq2).
    specialize (IH d1' d2' v1 Hsame').
    destruct (refinementLoop fuel (d1', v1)) as [e1|],
             (refinementLoop fuel (d2', v1)) as [e2|]; try done.
    destruct IH as (? & -> & -> & -> & -> & -> & ->). done.
Qed.

Lemma performPartitionRefinement_sameCore (fuel : nat) d1 d2 :
  sameCore d1 d2 →
  match performPartitionRefinement fuel d1,
        performPartitionRefinement fuel d2 with
  | Some d1', Some d2' =>
      sameCore d1' d2'
      ∧ options d1' = options d1 ∧ options d2' = options d2
      ∧ quotient d1' = quotient d1 ∧ quotient d2' = quotient d2
  | None, None => True
  | _, _ => False
  end.
Proof.
  intros (Hm & Hbt & HP & Htype).
  unfold performPartitionRefinement, refinementStart.
  assert (Hsame :
    sameCore
      (setPartition (map (fmap (Part.setSplitterBlock true)) (partition d1)) d1)
      (setPartition (map (fmap (Part.setSplitterBlock true)) (partition d2)) d2))
    by (unfold sameCore; simpl; by rewrite Hm, Hbt, HP, Htype).
  pose proof (refinementLoop_sameCore fuel _ _ (Part.handles (partition d2))
                Hsame) as Hloop.
  rewrite HP in Hloop |- *.
  destruct (refinementLoop fuel
              (setPartition
                 (map (fmap (Part.setSplitterBlock true)) (partition d2)) d1,
               Part.handles (partition d2))) as [e1|],
           (refinementLoop fuel
              (setPartition
                 (map (fmap (Part.setSplitterBlock true)) (partition d2)) d2,
               Part.handles (partition d2))) as [e2|]; try done.
  destruct Hloop as (? & ? & ? & _ & _ & ? & ?). done.
Qed.

(** X12. With the measure-driven initial partition the atomic propositions
    to respect play no role: whatever they are, the computation ends the
    same way and returns the same blocks. *)
Theorem measureDriven_ignores_respected d (r : option (gset string))
    (fuel : nat) :
  measureDrivenInitialPartition (options d) = true →
  returnedBlocks (computeBisimulationDecomposition fuel (withRespected r d))
  = returnedBlocks (computeBisimulationDecomposition fuel d).
Proof.
  intros Hmd. unfold computeBisimulationDecomposition, initializePartition.
  simpl. rewrite Hmd.
  destruct (phiStates (options d)) as [phi|]; [|done].
  destruct (psiStates (options d)) as [psi|]; [|done].
  assert (Hsame : sameCore (initializeMeasureDrivenPartition psi
                              (withRespected r d))
                    (initializeMeasureDrivenPartition psi d)).
  { unfold initializeMeasureDrivenPartition. simpl.
    destruct (keepRewards (options d) && hasRewardModel (model d));
      unfold sameCore; simpl; done. }
  pose proof (performPartitionRefinement_sameCore fuel _ _ Hsame) as Hloop.
  destruct (performPartitionRefinement fuel
              (initializeMeasureDrivenPartition psi (withRespected r d)))
    as [d1|],
    (performPartitionRefinement fuel (initializeMeasureDrivenPartition psi d))
    as [d2|]; try done.
  destruct Hloop as ((_ & _ & HP & _) & _). simpl.
  rewrite !blocks_buildQuotientStep. simpl. by rewrite HP.
Qed.

(** X13. Computing again changes nothing: on the object a computation has
    returned, the computation returns that object. *)
Theorem computation_idempotent d d' (fuel : nat) :
  computeBisimulationDecomposition fuel d = Returned d' →
  computeBisimulationDecomposition fuel d' = Returned d'.
Proof.
  unfold computeBisimulationDecomposition.
  destruct (initializePartition d) as [d1| |] eqn:Hinit; [|done..].
  destruct (performPartitionRefinement fuel d1) as [d2|] eqn:Hloop; [|done].
  intros [= <-].
  destruct (initializePartition_fields _ _ Hinit)
    as (Hm1 & Hbt1 & Ho1 & Hb1 & Hq1).
  destruct (refinementLoop_fields _ _ _ Hloop)
    as (Hm2 & Hbt2 & Ho2 & Hb2 & Hq2).
  simpl in Hm2, Hbt2, Ho2, Hb2, Hq2.
  set (d' := buildQuotientStep (extractDecompositionBlocks d2)).
  assert (Hfields : model d' = model d
                    ∧ backwardTransitions d' = backwardTransitions d
                    ∧ options d' = options d).
  { unfold d', buildQuotientStep. case_match; simpl;
      by rewrite Hm2, Hm1, Hbt2, Hbt1, Ho2, Ho1. }
  destruct Hfields as (Hm' & Hbt' & Ho').
  assert (Hinit' : ∃ d1', initializePartition d' = Returned d1'
                          ∧ sameCore d1' d1 ∧ options d1' = options d1
                          ∧ quotient d1' = quotient d').
  { revert Hinit. unfold initializePartition. rewrite Ho'.
    destruct (measureDrivenInitialPartition (options d)).
    - destruct (phiStates (options d)) as [phi|]; [|done].
      destruct (psiStates (options d)) as [psi|]; [|done].
      intros [= <-]. eexists. split; [reflexivity|].
      unfold initializeMeasureDrivenPartition. simpl.
      unfold statesWithProbability01Deterministic.
      rewrite Ho', Hm', Hbt'.
      destruct (keepRewards (options d) && hasRewardModel (model d));
        unfold sameCore; simpl; rewrite ?Hm', ?Hbt', ?Ho'; done.
    - intros [= <-]. eexists. split; [reflexivity|].
      unfold initializeLabelBasedPartition. simpl. rewrite Ho', Hm'.
      destruct (keepRewards (options d) && hasRewardModel (model d));
        unfold sameCore; simpl; rewrite ?Hm', ?Hbt', ?Ho'; done. }
  destruct Hinit' as (d1' & -> & Hsame & Ho1' & Hq1').
  pose proof (performPartitionRefinement_sameCore fuel _ _ Hsame) as Hloop'.
  rewrite Hloop in Hloop'.
  destruct (performPartitionRefinement fuel d1') as [d2'|]; [|done].
  destruct Hloop' as ((Hm & Hbt & HP & _) & Ho2' & _ & Hq2' & _).
  f_equal.
  assert (Ho22 : options d2' = options d2) by (by rewrite Ho2', Ho1', Ho2).
  assert (Hq22 : buildQuotient (options d2) = false →
                 quotient d2' = quotient d2).
  { intros Hbuild. rewrite Hq2', Hq1'. unfold d', buildQuotientStep. simpl.
    by rewrite Hbuild. }
  clear Hq1' Hm' Hbt' Ho'. subst d'. unfold buildQuotientStep. simpl.
  rewrite Ho22. destruct (buildQuotient (options d2)) eqn:Hbuild.
  - unfold quotientDeterministic, extractDecompositionBlocks. simpl.
    by rewrite Hm, Hbt, HP, Ho22.
  - unfold extractDecompositionBlocks.
    by rewrite Hm, Hbt, HP, Ho22, (Hq22 eq_refl).
Qed.
End ComputationDependencies.

Lemma measureDriven_ignores_respected_witness :
  measureDrivenInitialPartition (options Examples.branchDecomposition) = true
  ∧ returnedBlocks
      (computeBisimulationDecomposition 7
         (withRespected None Examples.branchDecomposition))
    = returnedBlocks
        (computeBisimulationDecomposition 7 Examples.branchDecomposition).
Proof.
  split; [reflexivity|].
  exact (measureDriven_ignores_respected Examples.branchDecomposition None 7
           eq_refl).
Defined.

Lemma chainComputed_returned :
  computeBisimulationDecomposition 7 (Examples.chainDecomposition Strong)
  = Returned FurtherExamples.chainComputed.
Proof. vm_compute. reflexivity. Qed.

Lemma computation_idempotent_witness :
  computeBisimulationDecomposition 7 (Examples.chainDecomposition Strong)
  = Returned FurtherExamples.chainComputed
  ∧ computeBisimulationDecomposition 7 FurtherExamples.chainComputed
    = Returned FurtherExamples.chainComputed.
Proof.
  split; [exact chainComputed_returned|].
  exact (computation_idempotent (Examples.chainDecomposition Strong)
           FurtherExamples.chainComputed 7 chainComputed_returned).
Defined.

(** * Properties of the sparse matrix with a dense diagonal *)

Section SparseArrays.
Context {A : Type}.
Implicit Types (l : list A) (array : option (list A)).

Lemma writeAt_Some array i x l' :
  Sparse.writeAt array i x = Some l' →
  ∃ l, array = Some l ∧ N.to_nat i < length l
       ∧ l' = <[N.to_nat i := x]> l ∧ length l' = length l.
Proof.
  destruct array as [l|]; [|done]. simpl. case_decide; [|done].
  intros [= <-]. exists l. by rewrite length_insert.
Qed.

Lemma fill_length array i count x r :
  Sparse.fill array i count x = Some r → length <$> r = length <$> array.
Proof.
  revert array i. induction count as [|count IH]; intros array i; simpl.
  - by intros [= <-].
  - destruct (Sparse.writeAt array i x) as [l'|] eqn:Hwrite; [|done]. simpl.
    intros Hfill. apply IH in Hfill. rewrite Hfill. simpl.
    apply writeAt_Some in Hwrite as (l & -> & _ & _ & Hlen). simpl.
    by rewrite Hlen.
Qed.

Lemma copyElements_bound l source i count r :
  Sparse.copyElements (Some l) source i count = Some r →
  count = 0 ∨ N.to_nat i + count ≤ length l.
Proof.
  revert l i. induction count as [|count IH]; intros l i; [by left|].
  simpl. destruct (Sparse.readAt source i) as [x|]; [|done]. simpl.
  case_decide as Hi; [|done]. simpl. intros Hcopy. right.
  apply IH in Hcopy as [->|Hcopy]; [lia|].
  rewrite length_insert in Hcopy. lia.
Qed.
End SparseArrays.

Section SparseMatrix.
Context {T : Type} `{ValueType T}.
Implicit Types (m ssm : Sparse.StaticSparseMatrix T) (a : Sparse.Allocation).

Lemma copy_diagonal_fails (rows : N) (source : option (list T)) :
  Sparse.copyElements (Some (replicate (N.to_nat rows) vzero)) source 0
    (N.to_nat (rows + 1))
  = None.
Proof.
  destruct (Sparse.copyElements _ source 0 (N.to_nat (rows + 1)))
    as [r|] eqn:Hcopy; [|done].
  apply copyElements_bound in Hcopy as [Hcount|Hbound].
  - lia.
  - rewrite length_replicate in Hbound. lia.
Qed.

(** X14. The copy constructor never leaves a copy.  It throws
    [invalid_argument] exactly for a source that is not in the error state,
    the check being the wrong way round; for a source in the error state it
    throws [bad_alloc], or it runs into undefined behaviour, at the latest
    when the loop over the diagonal, which runs to the index [rowCount]
    inclusive, writes beyond the [rowCount] elements of
    [diagonalStorage]. *)
Theorem copy_never_completes a ssm :
  (Sparse.copy a ssm = inl (Sparse.invalid_argument EmptyString)
   ↔ Sparse.hasError ssm = false)
  ∧ (Sparse.hasError ssm = true →
     Sparse.copy a ssm = inl Sparse.bad_alloc ∨ Sparse.copy a ssm = inr None)
  ∧ ∀ m, Sparse.copy a ssm ≠ inr (Some m).
Proof.
  assert (Herror : Sparse.hasError ssm = true →
            Sparse.copy a ssm = inl Sparse.bad_alloc
            ∨ Sparse.copy a ssm = inr None).
  { intros Herr. unfold Sparse.copy. rewrite Herr. simpl.
    unfold Sparse.prepareInternalStorage. simpl.
    destruct a as [[|] [|] [|] [|]]; simpl; try (by left).
    right. f_equal.
    destruct (Sparse.copyElements _ (Sparse.valueStorage ssm) 0 _); [|done].
    simpl. by rewrite copy_diagonal_fails. }
  split; [|split; [done|]].
  - split.
    + intros Hcopy. destruct (Sparse.hasError ssm) eqn:Herr; [|done].
      destruct (Herror eq_refl) as [Hc|Hc]; by rewrite Hc in Hcopy.
    + intros Herr. unfold Sparse.copy. by rewrite Herr.
  - intros m Hcopy. destruct (Sparse.hasError ssm) eqn:Herr.
    + destruct (Herror eq_refl) as [Hc|Hc]; by rewrite Hc in Hcopy.
    + unfold Sparse.copy in Hcopy. by rewrite Herr in Hcopy.
Qed.

Lemma triggerErrorState_fields m :
  Sparse.rowCount (Sparse.triggerErrorState m) = Sparse.rowCount m
  ∧ Sparse.rowIndications (Sparse.triggerErrorState m) = Sparse.rowIndications m
  ∧ Sparse.diagonalStorage (Sparse.triggerErrorState m)
    = Sparse.diagonalStorage m
  ∧ Sparse.internalStatus (Sparse.triggerErrorState m) = Sparse.Error.
Proof.
  unfold Sparse.triggerErrorState, Sparse.setState. simpl.
  repeat split. by case_decide.
Qed.

Lemma consistent_triggerErrorState m :
  Sparse.consistent m → Sparse.consistent (Sparse.triggerErrorState m).
Proof.
  intros (_ & Hrows & Hdiagonal & _).
  destruct (triggerErrorState_fields m) as (Hrc & Hri & Hd & Hstatus).
  unfold Sparse.consistent. rewrite Hrc, Hri, Hd, Hstatus.
  split; [done|]. split; [done|]. split; [done|]. done.
Qed.

Lemma fresh_addNextValue (rows row col : N) (value : T) :
  ¬ (rows < row ∨ rows < col)%N →
  Sparse.addNextValue row col value (Sparse.create rows) = Sparse.Undefined.
Proof.
  intros Hrange. unfold Sparse.addNextValue. simpl.
  rewrite decide_False by done. case_decide; [done|].
  by destruct (if decide (row ≠ 0%N) then _ else _).
Qed.

Lemma fresh_getValue (rows row col : N) :
  ¬ (rows < row ∨ rows < col)%N →
  Sparse.getValue row col (Sparse.create rows) = Sparse.Undefined.
Proof.
  intros Hrange. unfold Sparse.getValue. simpl.
  rewrite decide_False by done. by case_decide.
Qed.

Lemma fresh_makeStateAbsorbing (rows state : N) :
  ¬ (rows < state)%N →
  Sparse.makeStateAbsorbing state (Sparse.create rows) = Sparse.Undefined.
Proof.
  intros Hrange. unfold Sparse.makeStateAbsorbing. simpl.
  by rewrite decide_False by done.
Qed.

Lemma fillRowIndications_length row m r :
  Sparse.fillRowIndications row m = Some r →
  length <$> r = length <$> Sparse.rowIndications m.
Proof.
  unfold Sparse.fillRowIndications. case_decide; [done|]. apply fill_length.
Qed.

(** [finalize] does not return on a consistent object: its last write
    goes to the index [rowCount + 1] of [rowIndications], which has
    [rowCount + 1] elements. *)
Lemma finalize_consistent m :
  Sparse.consistent m →
  Sparse.finalize m = Sparse.Undefined
  ∨ ∃ e, Sparse.finalize m = Sparse.Throws e (Sparse.triggerErrorState m).
Proof.
  intros (_ & Hrows & _). unfold Sparse.finalize.
  destruct (negb (Sparse.isInitialized m)); [right; by eexists|].
  case_decide; [right; by eexists|]. left.
  assert (Hsentinel : ∀ rows,
            length <$> rows = length <$> Sparse.rowIndications m →
            Sparse.writeAt rows (Sparse.wrap (Sparse.rowCount m + 1))
              (Sparse.nonZeroEntryCount m) = None).
  { intros [l|] Hlen; [|done]. simpl.
    destruct (Sparse.rowIndications m) as [l0|] eqn:Hl0; [|done].
    injection Hlen as Hlen. rewrite Hlen, (Hrows l0 eq_refl).
    case_decide; [lia|done]. }
  case_decide.
  - destruct (Sparse.fillRowIndications (Sparse.rowCount m) m)
      as [rows|] eqn:Hfill; [|done].
    simpl. by rewrite Hsentinel by (by eapply fillRowIndications_length).
  - simpl. by rewrite Hsentinel.
Qed.

Lemma consistent_after (c : Sparse.Call T) m m' :
  Sparse.consistent m → Sparse.after c m = Some m' → Sparse.consistent m'.
Proof.
  intros Hm. pose proof Hm as (Hstatus & Hrows & Hdiagonal & Hfresh).
  destruct c as [a n|row col value| |row col|state]; simpl.
  - unfold Sparse.initialize.
    case_decide as Hs; [intros [= <-]; by apply consistent_triggerErrorState|].
    case_decide; [intros [= <-]; by apply consistent_triggerErrorState|].
    case_decide; [intros [= <-]; by apply consistent_triggerErrorState|].
    unfold Sparse.prepareInternalStorage. simpl.
    set (m1 := Sparse.mkMatrix _ _ _ _ _ _ _ _ _).
    assert (Hm1 : (∀ l, Sparse.rowIndications m1 = Some l →
                        length l = N.to_nat (Sparse.wrap (Sparse.rowCount m1 + 1)))
                  ∧ (∀ l, Sparse.diagonalStorage m1 = Some l →
                          length l = N.to_nat (Sparse.rowCount m1))).
    { unfold m1, Sparse.allocate. simpl. split; intros l; case_match; try done;
        intros [= <-]; by rewrite length_replicate. }
    destruct Hm1 as [Hrows1 Hdiagonal1].
    assert (Hstatus1 : Sparse.internalStatus m1 = Sparse.UnInitialized)
      by done.
    clearbody m1. case_match; cbn [Sparse.objectLeft]; intros [= <-].
    + destruct (triggerErrorState_fields m1) as (Hrc & Hri & Hd & Hst).
      unfold Sparse.consistent. rewrite Hrc, Hri, Hd, Hst. done.
    + unfold Sparse.consistent, Sparse.setState. simpl. rewrite Hstatus1.
      rewrite decide_False by done. done.
  - unfold Sparse.addNextValue.
    case_decide as Hrange;
      [intros [= <-]; by apply consistent_triggerErrorState|].
    assert (Hnotfresh : Sparse.internalStatus m = Sparse.UnInitialized →
              Sparse.addNextValue row col value m = Sparse.Undefined).
    { intros Hs. rewrite (Hfresh Hs). apply fresh_addNextValue.
      by rewrite (Hfresh Hs) in Hrange. }
    unfold Sparse.addNextValue in Hnotfresh.
    rewrite decide_False in Hnotfresh by done.
    case_decide as Hdiag.
    + destruct (Sparse.writeAt (Sparse.diagonalStorage m) row value)
        as [diagonal|] eqn:Hwrite; [|done].
      intros [= <-]. unfold Sparse.consistent. simpl.
      split; [done|]. split; [done|]. split.
      * intros l [= <-].
        apply writeAt_Some in Hwrite as (l0 & Hl0 & _ & _ & ->).
        by apply Hdiagonal.
      * intros Hs. by specialize (Hnotfresh Hs).
    + destruct (if decide (row ≠ Sparse.lastRow m) then _ else _)
        as [rows|] eqn:Hfill; [|done].
      destruct (Sparse.writeAt (Sparse.valueStorage m) _ value)
        as [values|]; [|done].
      destruct (Sparse.writeAt (Sparse.columnIndications m) _ col)
        as [columns|]; [|done].
      intros [= <-]. unfold Sparse.consistent. simpl.
      split; [done|]. split; [|split; [done|]].
      * intros l ->.
        assert (Hlen : length <$> Some l
                       = length <$> Sparse.rowIndications m).
        { case_decide; [by eapply fillRowIndications_length|].
          by injection Hfill as <-. }
        destruct (Sparse.rowIndications m) as [l0|]; [|done].
        injection Hlen as ->. by apply Hrows.
      * intros Hs. by specialize (Hnotfresh Hs).
  - destruct (finalize_consistent m Hm) as [->|[e ->]]; [done|].
    intros [= <-]. by apply consistent_triggerErrorState.
  - unfold Sparse.getValue.
    case_decide; [by intros [= <-]|].
    case_decide.
    + case_match; [by intros [= <-]|done].
    + repeat case_match; try done; by intros [= <-].
  - unfold Sparse.makeStateAbsorbing.
    case_decide as Hrange; [by intros [= <-]|].
    assert (Hnotfresh : Sparse.internalStatus m = Sparse.UnInitialized →
              Sparse.rowIndications m = None).
    { intros Hs. by rewrite (Hfresh Hs). }
    destruct (Sparse.readAt (Sparse.rowIndications m) state)
      as [rowStart|] eqn:Hstart; [|done].
    destruct (Sparse.readAt (Sparse.rowIndications m)
                (Sparse.wrap (state + 1))) as [rowEnd|]; [|done].
    destruct (Sparse.fill _ _ _ _) as [values|]; [|done].
    destruct (Sparse.writeAt (Sparse.diagonalStorage m) state vone)
      as [diagonal|] eqn:Hwrite; [|done].
    intros [= <-]. unfold Sparse.consistent. simpl.
    split; [done|]. split; [done|]. split.
    + intros l [= <-].
      apply writeAt_Some in Hwrite as (l0 & Hl0 & _ & _ & ->).
      by apply Hdiagonal.
    + intros Hs. rewrite (Hnotfresh Hs) in Hstart. done.
Qed.

Lemma reachable_consistent m : Sparse.Reachable m → Sparse.consistent m.
Proof.
  induction 1 as [rows|c m m' _ IH Hafter].
  - unfold Sparse.consistent. simpl. done.
  - by eapply consistent_after.
Qed.
End SparseMatrix.

Section SparseProtocol.
Context {T : Type} `{ValueType T}.
Implicit Types (m : Sparse.StaticSparseMatrix T) (a : Sparse.Allocation).

(** X15. The error state is never left: [setState] keeps it whatever the new
    state is, and so does every call of [initialize] with a number of
    entries, [addNextValue], [finalize], [getValue] and
    [makeStateAbsorbing].  An exception of [initialize] ([invalid_state],
    [invalid_argument] or [bad_alloc]), of [addNextValue] ([out_of_range],
    thrown exactly for a row or column beyond [rowCount]) or of [finalize]
    ([invalid_state]) leaves the object in the error state.  [getValue]
    and [makeStateAbsorbing] throw [out_of_range] exactly for an index
    beyond [rowCount], and leave the object as it is. *)
Theorem error_state_is_kept :
  (∀ new_state m,
     Sparse.hasError m = true →
     Sparse.hasError (Sparse.setState new_state m) = true)
  ∧ (∀ (c : Sparse.Call T) m m',
       Sparse.after c m = Some m' →
       Sparse.hasError m = true → Sparse.hasError m' = true)
  ∧ (∀ a n m e m',
       Sparse.initialize a n m = Sparse.Throws e m' →
       Sparse.hasError m' = true
       ∧ ((∃ message, e = Sparse.invalid_state message)
          ∨ (∃ message, e = Sparse.invalid_argument message)
          ∨ e = Sparse.bad_alloc))
  ∧ (∀ row col (value : T) m,
       (Sparse.rowCount m < row ∨ Sparse.rowCount m < col)%N →
       Sparse.addNextValue row col value m
       = Sparse.Throws
           (Sparse.out_of_range
              "StaticSparseMatrix::addNextValue: row or col not in 0 .. rows")
           (Sparse.triggerErrorState m))
  ∧ (∀ row col (value : T) m e m',
       Sparse.addNextValue row col value m = Sparse.Throws e m' →
       (Sparse.rowCount m < row ∨ Sparse.rowCount m < col)%N
       ∧ (∃ message, e = Sparse.out_of_range message)
       ∧ m' = Sparse.triggerErrorState m
       ∧ Sparse.hasError m' = true)
  ∧ (∀ m e m',
       Sparse.finalize m = Sparse.Throws e m' →
       (∃ message, e = Sparse.invalid_state message)
       ∧ m' = Sparse.triggerErrorState m
       ∧ Sparse.hasError m' = true)
  ∧ (∀ row col m,
       (Sparse.rowCount m < row ∨ Sparse.rowCount m < col)%N →
       Sparse.getValue row col m
       = Sparse.Throws
           (Sparse.out_of_range
              "StaticSparseMatrix::getValue: row or col not in 0 .. rows")
           m)
  ∧ (∀ row col m e m',
       Sparse.getValue row col m = Sparse.Throws e m' →
       (Sparse.rowCount m < row ∨ Sparse.rowCount m < col)%N
       ∧ (∃ message, e = Sparse.out_of_range message)
       ∧ m' = m)
  ∧ (∀ state m,
       (Sparse.rowCount m < state)%N →
       Sparse.makeStateAbsorbing state m
       = Sparse.Throws
           (Sparse.out_of_range
              "StaticSparseMatrix::makeStateFinal: state not in 0 .. rows")
           m)
  ∧ (∀ state m e m',
       Sparse.makeStateAbsorbing state m = Sparse.Throws e m' →
       (Sparse.rowCount m < state)%N
       ∧ (∃ message, e = Sparse.out_of_range message)
       ∧ m' = m).
Proof.
  assert (Htrigger : ∀ m, Sparse.hasError (Sparse.triggerErrorState m) = true).
  { intros m. unfold Sparse.hasError.
    destruct (triggerErrorState_fields m) as (_ & _ & _ & ->).
    by apply bool_decide_eq_true. }
  assert (HsetState : ∀ new_state m,
            Sparse.hasError m = true →
            Sparse.hasError (Sparse.setState new_state m) = true).
  { intros new_state m Herror. apply bool_decide_eq_true in Herror.
    apply bool_decide_eq_true. unfold Sparse.setState. simpl.
    by rewrite decide_True. }
  assert (Hinitialize : ∀ a n m e m',
            Sparse.initialize a n m = Sparse.Throws e m' →
            Sparse.hasError m' = true
            ∧ ((∃ message, e = Sparse.invalid_state message)
               ∨ (∃ message, e = Sparse.invalid_argument message)
               ∨ e = Sparse.bad_alloc)).
  { intros a n m e m'. unfold Sparse.initialize.
    case_decide; [intros [= <- <-]; split; [done|]; left; by eexists|].
    case_decide;
      [intros [= <- <-]; split; [done|]; right; left; by eexists|].
    case_decide;
      [intros [= <- <-]; split; [done|]; right; left; by eexists|].
    unfold Sparse.prepareInternalStorage. simpl.
    case_match; [|done]. intros [= <- <-]. split; [done|]. by right; right. }
  assert (HaddNextValue : ∀ row col (value : T) m e m',
            Sparse.addNextValue row col value m = Sparse.Throws e m' →
            (Sparse.rowCount m < row ∨ Sparse.rowCount m < col)%N
            ∧ (∃ message, e = Sparse.out_of_range message)
            ∧ m' = Sparse.triggerErrorState m
            ∧ Sparse.hasError m' = true).
  { intros row col value m e m'. unfold Sparse.addNextValue.
    case_decide as Hrange.
    - intros [= <- <-]. split; [done|]. split; [by eexists|]. done.
    - case_decide; by repeat case_match. }
  assert (Hfinalize : ∀ m e m',
            Sparse.finalize m = Sparse.Throws e m' →
            (∃ message, e = Sparse.invalid_state message)
            ∧ m' = Sparse.triggerErrorState m
            ∧ Sparse.hasError m' = true).
  { intros m e m'. unfold Sparse.finalize.
    case_match; [intros [= <- <-]; split; [by eexists|done]|].
    case_decide; [intros [= <- <-]; split; [by eexists|done]|].
    by case_match. }
  assert (HgetValue : ∀ row col m e m',
            Sparse.getValue row col m = Sparse.Throws e m' →
            (Sparse.rowCount m < row ∨ Sparse.rowCount m < col)%N
            ∧ (∃ message, e = Sparse.out_of_range message)
            ∧ m' = m).
  { intros row col m e m'. unfold Sparse.getValue.
    case_decide as Hrange.
    - intros [= <- <-]. split; [done|]. split; [by eexists|done].
    - case_decide; by repeat case_match. }
  assert (HmakeStateAbsorbing : ∀ state m e m',
            Sparse.makeStateAbsorbing state m = Sparse.Throws e m' →
            (Sparse.rowCount m < state)%N
            ∧ (∃ message, e = Sparse.out_of_range message)
            ∧ m' = m).
  { intros state m e m'. unfold Sparse.makeStateAbsorbing.
    case_decide as Hrange.
    - intros [= <- <-]. split; [done|]. split; [by eexists|done].
    - by repeat case_match. }
  split; [done|]. split; [|split; [done|]; split; [|split; [done|];
    split; [done|]; split; [|split; [done|]; split; [|done]]]].
  - intros c m m' Hafter Herror.
    assert (Hstatus : Sparse.internalStatus m = Sparse.Error)
      by (by apply bool_decide_eq_true in Herror).
    destruct c as [a n|row col value| |row col|state]; simpl in Hafter.
    + destruct (Sparse.initialize a n m) as [[] m1|e m1|] eqn:Hcall;
        [|injection Hafter as <-; by eapply Hinitialize|done].
      unfold Sparse.initialize in Hcall. rewrite Hstatus in Hcall.
      by rewrite decide_True in Hcall.
    + destruct (Sparse.addNextValue row col value m) as [[] m1|e m1|] eqn:Hcall;
        [|injection Hafter as <-; by eapply HaddNextValue|done].
      injection Hafter as <-. unfold Sparse.addNextValue in Hcall.
      repeat case_decide; try done; repeat case_match; try done;
        injection Hcall as <-; by apply bool_decide_eq_true.
    + destruct (Sparse.finalize m) as [[] m1|e m1|] eqn:Hcall;
        [|injection Hafter as <-; by eapply Hfinalize|done].
      unfold Sparse.finalize, Sparse.isInitialized in Hcall.
      rewrite Hstatus in Hcall. done.
    + destruct (Sparse.getValue row col m) as [r m1|e m1|] eqn:Hcall;
        [|injection Hafter as <-;
          by destruct (HgetValue _ _ _ _ _ Hcall) as (_ & _ & ->)|done].
      injection Hafter as <-. unfold Sparse.getValue in Hcall.
      repeat case_decide; try done; repeat case_match; try done;
        by injection Hcall as _ <-.
    + destruct (Sparse.makeStateAbsorbing state m) as [r m1|e m1|] eqn:Hcall;
        [|injection Hafter as <-;
          by destruct (HmakeStateAbsorbing _ _ _ _ Hcall) as (_ & _ & ->)|done].
      injection Hafter as <-. unfold Sparse.makeStateAbsorbing in Hcall.
      case_decide; try done; repeat case_match; try done.
      injection Hcall as _ <-. by apply bool_decide_eq_true.
  - intros row col value m Hrange. unfold Sparse.addNextValue.
    by rewrite decide_True.
  - intros row col m Hrange. unfold Sparse.getValue. by rewrite decide_True.
  - intros state m Hrange. unfold Sparse.makeStateAbsorbing.
    by rewrite decide_True.
Qed.

(** X16. Calling [initialize] first is mandatory: on an object as constructed,
    [addNextValue], [getValue] and [makeStateAbsorbing] with indices that
    pass their range check go through a null pointer, and [finalize]
    throws [invalid_state] and leaves the error state. *)
Theorem initialize_is_mandatory (rows : N) :
  (∀ row col (value : T), (row ≤ rows)%N → (col ≤ rows)%N →
     Sparse.addNextValue row col value (Sparse.create rows) = Sparse.Undefined)
  ∧ (∀ row col, (row ≤ rows)%N → (col ≤ rows)%N →
       Sparse.getValue row col (Sparse.create (T:=T) rows) = Sparse.Undefined)
  ∧ (∀ state, (state ≤ rows)%N →
       Sparse.makeStateAbsorbing state (Sparse.create (T:=T) rows)
       = Sparse.Undefined)
  ∧ ∃ message m',
      Sparse.finalize (Sparse.create (T:=T) rows)
      = Sparse.Throws (Sparse.invalid_state message) m'
      ∧ Sparse.hasError m' = true.
Proof.
  split; [|split; [|split]].
  - intros row col value Hrow Hcol. apply fresh_addNextValue. lia.
  - intros row col Hrow Hcol. apply fresh_getValue. lia.
  - intros state Hstate. apply fresh_makeStateAbsorbing. lia.
  - by eexists _, _.
Qed.

(** X17. [initialize] returns once at most: on an object a program can have in
    hand it returns only if nothing has happened to the object since its
    construction, the number of rows is not zero and the number of entries
    is at most [rowCount * rowCount - rowCount], computed modulo [2 ^ 64];
    it then leaves the four arrays allocated and zeroed and the state
    [Initialized]. *)
Theorem initialize_returns_once m a n m' :
  Sparse.Reachable m →
  Sparse.initialize a n m = Sparse.Returns tt m' →
  m = Sparse.create (Sparse.rowCount m)
  ∧ Sparse.rowCount m ≠ 0%N
  ∧ (n ≤ Sparse.minus (Sparse.wrap (Sparse.rowCount m * Sparse.rowCount m))
           (Sparse.rowCount m))%N
  ∧ m' = Sparse.mkMatrix (Sparse.rowCount m) n
           (Some (replicate (N.to_nat n) vzero))
           (Some (replicate (N.to_nat (Sparse.rowCount m)) vzero))
           (Some (replicate (N.to_nat n) 0%N))
           (Some (replicate
                    (N.to_nat (Sparse.wrap (Sparse.rowCount m + 1))) 0%N))
           Sparse.Initialized 0 0
  ∧ ∀ a' n', ∃ message m'',
      Sparse.initialize a' n' m'
      = Sparse.Throws (Sparse.invalid_state message) m''
      ∧ Sparse.hasError m'' = true.
Proof.
  intros Hreachable Hinit.
  destruct (reachable_consistent m Hreachable) as (_ & _ & _ & Hfresh).
  unfold Sparse.initialize in Hinit.
  case_decide as Hstatus; [done|]. specialize (Hfresh Hstatus).
  case_decide as Hrows; [done|]. case_decide as Hbound; [done|].
  unfold Sparse.prepareInternalStorage in Hinit. simpl in Hinit.
  destruct a as [[|] [|] [|] [|]]; simpl in Hinit; try done.
  injection Hinit as <-.
  split; [done|]. split; [done|]. split; [lia|].
  assert (Hm' : Sparse.setState Sparse.Initialized
                  (Sparse.mkMatrix (Sparse.rowCount m) n
                     (Some (replicate (N.to_nat n) vzero))
                     (Some (replicate (N.to_nat (Sparse.rowCount m)) vzero))
                     (Some (replicate (N.to_nat n) 0%N))
                     (Some (replicate
                              (N.to_nat (Sparse.wrap (Sparse.rowCount m + 1)))
                              0%N))
                     (Sparse.internalStatus m) (Sparse.currentSize m) 0)
                = Sparse.mkMatrix (Sparse.rowCount m) n
                    (Some (replicate (N.to_nat n) vzero))
                    (Some (replicate (N.to_nat (Sparse.rowCount m)) vzero))
                    (Some (replicate (N.to_nat n) 0%N))
                    (Some (replicate
                             (N.to_nat (Sparse.wrap (Sparse.rowCount m + 1)))
                             0%N))
                    Sparse.Initialized 0 0).
  { unfold Sparse.setState, Sparse.withStatus. simpl. rewrite Hstatus.
    rewrite decide_False by done. f_equal. by rewrite Hfresh. }
  unfold Sparse.allocate. simpl. rewrite Hm'. split; [done|].
  intros a' n'. unfold Sparse.initialize. simpl.
  eexists _, _. split; [reflexivity|]. by apply bool_decide_eq_true.
Qed.

(** X18. [finalize] never completes: on an object a program can have in hand
    it throws, or its checks pass and it writes the sentinel to the index
    [rowCount + 1] of [rowIndications], beyond the [rowCount + 1] elements
    allocated; so no object is ever ready for reading. *)
Theorem finalize_never_returns m :
  Sparse.Reachable m →
  Sparse.isReadReady m = false
  ∧ (∀ m', Sparse.finalize m ≠ Sparse.Returns tt m')
  ∧ (Sparse.isInitialized m = true →
     Sparse.currentSize m = Sparse.nonZeroEntryCount m →
     Sparse.finalize m = Sparse.Undefined).
Proof.
  intros Hreachable.
  pose proof (reachable_consistent m Hreachable) as Hm.
  split; [|split].
  - destruct Hm as (Hstatus & _). by apply bool_decide_eq_false.
  - intros m' Hfinalize.
    destruct (finalize_consistent m Hm) as [Hf|[e Hf]];
      by rewrite Hf in Hfinalize.
  - intros Hinitialized Hsize.
    destruct (finalize_consistent m Hm) as [Hf|[e Hf]]; [done|].
    unfold Sparse.finalize in Hf. rewrite Hinitialized in Hf. simpl in Hf.
    rewrite decide_False in Hf by (by intros ?). by case_match.
Qed.

(** X19. The range checks admit the index [rowCount], one beyond the last row:
    on an object a program can have in hand, setting or reading the
    diagonal there, reading anything of that row and making that state
    absorbing pass the check and then go beyond the end of an array or
    through a null pointer. *)
Theorem range_check_admits_rowCount m :
  Sparse.Reachable m →
  (∀ value : T,
     Sparse.addNextValue (Sparse.rowCount m) (Sparse.rowCount m) value m
     = Sparse.Undefined)
  ∧ (∀ col, (col ≤ Sparse.rowCount m)%N →
       Sparse.getValue (Sparse.rowCount m) col m = Sparse.Undefined)
  ∧ Sparse.makeStateAbsorbing (Sparse.rowCount m) m = Sparse.Undefined.
Proof.
  intros Hreachable.
  destruct (reachable_consistent m Hreachable) as (_ & Hrows & Hdiagonal & _).
  assert (Hdiag : ∀ value : T,
            Sparse.writeAt (Sparse.diagonalStorage m) (Sparse.rowCount m) value
            = None).
  { intros value. destruct (Sparse.diagonalStorage m) as [l|]; [|done].
    simpl. rewrite (Hdiagonal l eq_refl). case_decide; [lia|done]. }
  assert (Hread : Sparse.readAt (Sparse.diagonalStorage m) (Sparse.rowCount m)
                  = None).
  { destruct (Sparse.diagonalStorage m) as [l|]; [|done].
    simpl. apply lookup_ge_None. rewrite (Hdiagonal l eq_refl). lia. }
  assert (Hend : Sparse.readAt (Sparse.rowIndications m)
                   (Sparse.wrap (Sparse.rowCount m + 1)) = None).
  { destruct (Sparse.rowIndications m) as [l|]; [|done].
    simpl. apply lookup_ge_None. rewrite (Hrows l eq_refl). lia. }
  split; [|split].
  - intros value. unfold Sparse.addNextValue.
    rewrite decide_False by lia. rewrite decide_True by done.
    by rewrite Hdiag.
  - intros col Hcol. unfold Sparse.getValue.
    rewrite decide_False by lia. case_decide; [by rewrite Hread|].
    rewrite Hend. by case_match.
  - unfold Sparse.makeStateAbsorbing. rewrite decide_False by lia.
    rewrite Hend. by case_match.
Qed.
End SparseProtocol.

Section SparseAccess.
Context {T : Type} `{ValueType T}.
Implicit Types (m : Sparse.StaticSparseMatrix T).

Lemma fill_keeps (array : option (list T)) (i : N) (count : nat) (x : T)
    (r : option (list T)) (k : N) :
  Sparse.fill array i count x = Some r →
  Sparse.readAt array k = Some x → Sparse.readAt r k = Some x.
Proof.
  revert array i. induction count as [|count IH]; intros array i; simpl.
  - by intros [= <-].
  - destruct (Sparse.writeAt array i x) as [l'|] eqn:Hwrite; [|done]. simpl.
    intros Hfill Hread. apply (IH _ _ Hfill).
    apply writeAt_Some in Hwrite as (l & -> & Hi & -> & _). simpl in *.
    destruct (decide (N.to_nat i = N.to_nat k)) as [<-|Hne].
    + by apply list_lookup_insert_eq.
    + by rewrite list_lookup_insert_ne.
Qed.

Lemma fill_written (array : option (list T)) (i : N) (count : nat) (x : T)
    (r : option (list T)) (k : N) :
  Sparse.fill array i count x = Some r →
  (i ≤ k)%N → N.to_nat k < N.to_nat i + count →
  Sparse.readAt r k = Some x.
Proof.
  revert array i. induction count as [|count IH]; intros array i; simpl.
  - lia.
  - destruct (Sparse.writeAt array i x) as [l'|] eqn:Hwrite; [|done]. simpl.
    intros Hfill Hik Hk.
    destruct (decide (k = i)) as [->|Hne].
    + apply (fill_keeps _ _ _ _ _ _ Hfill).
      apply writeAt_Some in Hwrite as (l & -> & Hi & -> & _). simpl.
      by apply list_lookup_insert_eq.
    + apply (IH _ _ Hfill); lia.
Qed.

Lemma find_value (columns : option (list N)) (values : option (list T))
    (col : N) (count : nat) (rowStart : N) (found : bool) (v : T) :
  Sparse.find columns values col count rowStart = Some (found, v) →
  v = vzero
  ∨ ∃ k, (rowStart ≤ k)%N ∧ N.to_nat k < N.to_nat rowStart + count
         ∧ Sparse.readAt values k = Some v.
Proof.
  revert rowStart. induction count as [|count IH]; intros rowStart; simpl.
  - intros [= _ <-]. by left.
  - destruct (Sparse.readAt columns rowStart) as [c|]; [|done]. simpl.
    case_decide.
    + destruct (Sparse.readAt values rowStart) as [v'|] eqn:Hv; [|done].
      simpl. intros [= _ <-]. right. exists rowStart.
      split; [lia|]. split; [lia|done].
    + case_decide; [intros [= _ <-]; by left|].
      intros Hfind. apply IH in Hfind as [->|(k & Hk1 & Hk2 & Hk3)];
        [by left|].
      right. exists k. split; [lia|]. split; [lia|done].
Qed.

(** X20. Setting an entry of the diagonal and reading it: when [addNextValue]
    returns for a row and the same column, [getValue] there returns the
    value set, and at every other position [getValue] does what it did
    before. *)
Theorem diagonal_round_trip (row : N) (value : T) m m' :
  Sparse.addNextValue row row value m = Sparse.Returns tt m' →
  Sparse.getValue row row m' = Sparse.Returns (true, value) m'
  ∧ ∀ r c, r ≠ row ∨ c ≠ row →
      Sparse.outcome (Sparse.getValue r c m')
      = Sparse.outcome (Sparse.getValue r c m).
Proof.
  unfold Sparse.addNextValue. case_decide as Hrange; [done|].
  rewrite decide_True by done.
  destruct (Sparse.writeAt (Sparse.diagonalStorage m) row value)
    as [diagonal|] eqn:Hwrite; [|done].
  intros [= <-].
  apply writeAt_Some in Hwrite as (l & Hl & Hrow & -> & _).
  split.
  - unfold Sparse.getValue. simpl. rewrite decide_False by done.
    rewrite decide_True by done. by rewrite list_lookup_insert_eq.
  - intros r c Hother. unfold Sparse.getValue. simpl.
    case_decide; [done|]. case_decide as Hdiag.
    + rewrite Hl. simpl. rewrite list_lookup_insert_ne by lia.
      by destruct (l !! N.to_nat r).
    + by repeat case_match.
Qed.

(** X21. Making a state absorbing: when [makeStateAbsorbing] returns, it
    returns true, [getValue] gives one on the diagonal of that row, and
    whatever [getValue] returns for another column of that row, found or
    not, the value it gives is zero. *)
Theorem absorbing_row (state : N) m (result : bool) m' :
  Sparse.makeStateAbsorbing state m = Sparse.Returns result m' →
  result = true
  ∧ Sparse.getValue state state m' = Sparse.Returns (true, vone) m'
  ∧ ∀ col found v, col ≠ state →
      Sparse.getValue state col m' = Sparse.Returns (found, v) m' →
      v = vzero.
Proof.
  unfold Sparse.makeStateAbsorbing. case_decide as Hrange; [done|].
  destruct (Sparse.readAt (Sparse.rowIndications m) state)
    as [rowStart|] eqn:Hstart; [|done].
  destruct (Sparse.readAt (Sparse.rowIndications m) (Sparse.wrap (state + 1)))
    as [rowEnd|] eqn:Hend; [|done].
  destruct (Sparse.fill (Sparse.valueStorage m) rowStart
              (N.to_nat (rowEnd - rowStart)) vzero)
    as [values|] eqn:Hfill; [|done].
  destruct (Sparse.writeAt (Sparse.diagonalStorage m) state vone)
    as [diagonal|] eqn:Hwrite; [|done].
  intros [= <- <-]. split; [done|].
  apply writeAt_Some in Hwrite as (l & Hl & Hstate & -> & _).
  split.
  - unfold Sparse.getValue. simpl. rewrite decide_False by lia.
    rewrite decide_True by done. by rewrite list_lookup_insert_eq.
  - intros col found v Hcol. unfold Sparse.getValue. simpl.
    case_decide; [done|]. rewrite decide_False by done.
    rewrite Hstart, Hend.
    destruct (Sparse.find (Sparse.columnIndications m) values col
                (N.to_nat (rowEnd - rowStart)) rowStart)
      as [[found' v']|] eqn:Hfind; [|done].
    intros [= -> ->].
    apply find_value in Hfind as [->|(k & Hk1 & Hk2 & Hk3)]; [done|].
    rewrite (fill_written _ _ _ _ _ k Hfill) in Hk3 by lia.
    by injection Hk3.
Qed.
End SparseAccess.

(** ** The sparse matrix on two rows *)

Lemma twoRows_initialize :
  Sparse.initialize SparseExamples.allocated 1 SparseExamples.twoRows
  = Sparse.Returns tt SparseExamples.twoRowsInitialized.
Proof. vm_compute. reflexivity. Qed.

Lemma twoRowsInitialized_reachable :
  Sparse.Reachable SparseExamples.twoRowsInitialized.
Proof.
  apply (Sparse.reachable_after
           (Sparse.CallInitialize SparseExamples.allocated 1)
           SparseExamples.twoRows); [apply Sparse.reachable_create|].
  exact (f_equal Sparse.objectLeft twoRows_initialize).
Qed.

Lemma initialize_returns_once_witness :
  Sparse.Reachable SparseExamples.twoRows
  ∧ Sparse.initialize SparseExamples.allocated 1 SparseExamples.twoRows
    = Sparse.Returns tt SparseExamples.twoRowsInitialized
  ∧ SparseExamples.twoRows
    = Sparse.create (Sparse.rowCount SparseExamples.twoRows)
  ∧ Sparse.rowCount SparseExamples.twoRows ≠ 0%N
  ∧ (1 ≤ Sparse.minus
           (Sparse.wrap (Sparse.rowCount SparseExamples.twoRows
                         * Sparse.rowCount SparseExamples.twoRows))
           (Sparse.rowCount SparseExamples.twoRows))%N
  ∧ SparseExamples.twoRowsInitialized
    = Sparse.mkMatrix (Sparse.rowCount SparseExamples.twoRows) 1
        (Some (replicate (N.to_nat 1) vzero))
        (Some (replicate (N.to_nat (Sparse.rowCount SparseExamples.twoRows))
                 vzero))
        (Some (replicate (N.to_nat 1) 0%N))
        (Some (replicate
                 (N.to_nat (Sparse.wrap
                              (Sparse.rowCount SparseExamples.twoRows + 1)))
                 0%N))
        Sparse.Initialized 0 0
  ∧ ∀ a' n', ∃ message m'',
      Sparse.initialize a' n' SparseExamples.twoRowsInitialized
      = Sparse.Throws (Sparse.invalid_state message) m''
      ∧ Sparse.hasError m'' = true.
Proof.
  assert (Hreachable : Sparse.Reachable SparseExamples.twoRows)
    by apply Sparse.reachable_create.
  split; [exact Hreachable|]. split; [exact twoRows_initialize|].
  exact (initialize_returns_once SparseExamples.twoRows
           SparseExamples.allocated 1 SparseExamples.twoRowsInitialized
           Hreachable twoRows_initialize).
Defined.

Lemma finalize_never_returns_witness :
  Sparse.Reachable SparseExamples.twoRowsInitialized
  ∧ Sparse.isReadReady SparseExamples.twoRowsInitialized = false
  ∧ (∀ m', Sparse.finalize SparseExamples.twoRowsInitialized
           ≠ Sparse.Returns tt m')
  ∧ (Sparse.isInitialized SparseExamples.twoRowsInitialized = true →
     Sparse.currentSize SparseExamples.twoRowsInitialized
     = Sparse.nonZeroEntryCount SparseExamples.twoRowsInitialized →
     Sparse.finalize SparseExamples.twoRowsInitialized = Sparse.Undefined).
Proof.
  split; [exact twoRowsInitialized_reachable|].
  exact (finalize_never_returns SparseExamples.twoRowsInitialized
           twoRowsInitialized_reachable).
Defined.

Lemma range_check_admits_rowCount_witness :
  Sparse.Reachable SparseExamples.twoRowsInitialized
  ∧ (∀ value : Qc,
       Sparse.addNextValue (Sparse.rowCount SparseExamples.twoRowsInitialized)
         (Sparse.rowCount SparseExamples.twoRowsInitialized) value
         SparseExamples.twoRowsInitialized
       = Sparse.Undefined)
  ∧ (∀ col, (col ≤ Sparse.rowCount SparseExamples.twoRowsInitialized)%N →
       Sparse.getValue (Sparse.rowCount SparseExamples.twoRowsInitialized) col
         SparseExamples.twoRowsInitialized
       = Sparse.Undefined)
  ∧ Sparse.makeStateAbsorbing
      (Sparse.rowCount SparseExamples.twoRowsInitialized)
      SparseExamples.twoRowsInitialized
    = Sparse.Undefined.
Proof.
  split; [exact twoRowsInitialized_reachable|].
  exact (range_check_admits_rowCount SparseExamples.twoRowsInitialized
           twoRowsInitialized_reachable).
Defined.

Lemma twoRows_addNextValue :
  Sparse.addNextValue 0 0 1%Qc SparseExamples.twoRowsInitialized
  = Sparse.Returns tt SparseExamples.twoRowsDiagonal.
Proof. vm_compute. reflexivity. Qed.

Lemma diagonal_round_trip_witness :
  Sparse.addNextValue 0 0 1%Qc SparseExamples.twoRowsInitialized
  = Sparse.Returns tt SparseExamples.twoRowsDiagonal
  ∧ Sparse.getValue 0 0 SparseExamples.twoRowsDiagonal
    = Sparse.Returns (true, 1%Qc) SparseExamples.twoRowsDiagonal
  ∧ ∀ r c, r ≠ 0%N ∨ c ≠ 0%N →
      Sparse.outcome (Sparse.getValue r c SparseExamples.twoRowsDiagonal)
      = Sparse.outcome (Sparse.getValue r c SparseExamples.twoRowsInitialized).
Proof.
  split; [exact twoRows_addNextValue|].
  exact (diagonal_round_trip 0 1%Qc SparseExamples.twoRowsInitialized
           SparseExamples.twoRowsDiagonal twoRows_addNextValue).
Defined.

Lemma twoRows_makeStateAbsorbing :
  Sparse.makeStateAbsorbing 0 SparseExamples.twoRowsInitialized
  = Sparse.Returns true SparseExamples.twoRowsDiagonal.
Proof. vm_compute. reflexivity. Qed.

Lemma absorbing_row_witness :
  Sparse.makeStateAbsorbing 0 SparseExamples.twoRowsInitialized
  = Sparse.Returns true SparseExamples.twoRowsDiagonal
  ∧ true = true
  ∧ Sparse.getValue 0 0 SparseExamples.twoRowsDiagonal
    = Sparse.Returns (true, vone) SparseExamples.twoRowsDiagonal
  ∧ ∀ col found v, col ≠ 0%N →
      Sparse.getValue 0 col SparseExamples.twoRowsDiagonal
      = Sparse.Returns (found, v) SparseExamples.twoRowsDiagonal →
      v = vzero.
Proof.
  split; [exact twoRows_makeStateAbsorbing|].
  exact (absorbing_row 0 SparseExamples.twoRowsInitialized true
           SparseExamples.twoRowsDiagonal twoRows_makeStateAbsorbing).
Defined.
